(** * Transcript ingestion and hybrid retrieval: a shallow embedding

  The development follows the TypeScript sources of the backend:
  - [JS]: the string and array primitives of the host language that the
    modelled functions call ([toLowerCase], [trim], [includes],
    [split] on a regular expression, [replace] with the global flag);
  - [Double]: the arithmetic of the host language's numbers;
  - [TimestampMatching]: [preprocessTimestampSegments] and
    [matchChunkToTimestamp];
  - [HybridSearch]: [performSemanticSearch] and [fuseAndRankResults];
  - [Chunker]: [estimateTokens] and [chunkText];
  - [Storage]: the two [storeTranscriptChunks], of the vector index and of
    the metadata collection;
  - [Ingestion]: the eligibility gate and the body of
    [processVideosAsync], the duplicate check of the route, the channel
    keys of the job store and the timer of
    [processVideosAsyncWithTimeout];
  - [Claimed]: the alignment and the keyword count in the words of the
    specification, for comparison;
  - [Exclusion] and [Scenarios]: what the requests of a schedule maintain,
    and further schedules;
  - [FinalWrites]: the end of [processVideosAsync] with writes that fail;
  - [YouTube]: [cleanTranscript], [extractTimestampSegments],
    [parseDurationToMinutes] and the selection of [getChannelVideos];
  - [VideoReferences]: [formatTimestamp];
  - [Validation] and [QueryPreprocessing]: [sanitizeText] and
    [preprocessQuery] with its steps;
  - [Search]: [hybridSearch];
  - [ChunkGroups]: the text a run of sentences is accumulated into;
  - [ChannelContext]: [storeChannelContext].
  The properties follow the definitions, one module of facts for each.

  A JavaScript string is modelled as a [string] whose characters are the
  UTF-16 code units of the source string, for code units below 256
  (Latin-1).  On that range the character classes and the case mapping
  below are those of ECMAScript.  Second counts and chunk indices are
  integers in the source (they come from [parseInt]-style parsing and from
  array indices) and are modelled in [Z]; the products, sums and quotients
  the source takes in double precision are rounded as the source rounds
  them, see [Double]. *)

From Stdlib Require Import Bool Arith ZArith QArith Qround Lia List String Ascii.
From Stdlib Require Import Permutation Sorted DecimalString Lqa.
From Stdlib Require DecimalNat.
From Stdlib Require Import Qpower Qreduction.
From stdpp Require gmap strings.
Import ListNotations.

Close Scope Q_scope.
Open Scope string_scope.
Open Scope list_scope.
Open Scope nat_scope.

(* ===================================================================== *)
(** ** Host-language primitives *)
(* ===================================================================== *)

Module JS.

(** [\s]: TAB, LF, VT, FF, CR, SPACE and NBSP. *)
Definition isSpace (c : ascii) : bool :=
  let n := nat_of_ascii c in
  ((9 <=? n) && (n <=? 13)) || (n =? 32) || (n =? 160).

(** [\d]: the ten ASCII digits. *)
Definition isDigit (c : ascii) : bool :=
  let n := nat_of_ascii c in (48 <=? n) && (n <=? 57).

(** [[\n\r]]. *)
Definition isNewline (c : ascii) : bool :=
  let n := nat_of_ascii c in (n =? 10) || (n =? 13).

(** [[.!?;]]. *)
Definition isSentenceEnd (c : ascii) : bool :=
  let n := nat_of_ascii c in
  (n =? 46) || (n =? 33) || (n =? 63) || (n =? 59).

(** Case mapping of one code unit: A-Z, and the Latin-1 capitals
    U+00C0..U+00DE except the multiplication sign U+00D7. *)
Definition lowerChar (c : ascii) : ascii :=
  let n := nat_of_ascii c in
  if ((65 <=? n) && (n <=? 90))
     || ((192 <=? n) && (n <=? 222) && negb (n =? 215))
  then ascii_of_nat (n + 32) else c.

(** [s.toLowerCase()] *)
Fixpoint toLowerCase (s : string) : string :=
  match s with
  | EmptyString => EmptyString
  | String c s' => String (lowerChar c) (toLowerCase s')
  end.

(** [s.startsWith(p)] *)
Fixpoint startsWith (s p : string) : bool :=
  match p, s with
  | EmptyString, _ => true
  | String _ _, EmptyString => false
  | String a p', String b s' => Ascii.eqb a b && startsWith s' p'
  end.

(** [s.includes(t)]: [t] occurs in [s] as a contiguous substring. *)
Fixpoint includes (s t : string) : bool :=
  match s with
  | EmptyString => startsWith EmptyString t
  | String _ s' => startsWith s t || includes s' t
  end.

(** Number of leading characters of [s] that satisfy [p]. *)
Fixpoint run (p : ascii -> bool) (s : string) : nat :=
  match s with
  | String c s' => if p c then S (run p s') else 0
  | EmptyString => 0
  end.

(** [s.slice(n)] *)
Fixpoint drop (n : nat) (s : string) : string :=
  match n, s with
  | S k, String _ s' => drop k s'
  | _, _ => s
  end.

(** [s.trimStart()], [s.trimEnd()], [s.trim()] *)
Fixpoint trimStart (s : string) : string :=
  match s with
  | String c s' => if isSpace c then trimStart s' else s
  | EmptyString => EmptyString
  end.

Fixpoint trimEnd (s : string) : string :=
  match s with
  | EmptyString => EmptyString
  | String c s' =>
      match trimEnd s' with
      | EmptyString => if isSpace c then EmptyString else String c EmptyString
      | r => String c r
      end
  end.

Definition trim (s : string) : string := trimEnd (trimStart s).

(** A regular expression is represented by its matcher at the head of a
    string: [m s = Some k] when the expression matches a prefix of [s],
    [k] being the length of the match the backtracking engine returns.
    The expressions used here never match the empty string. *)
Definition matcher := string -> option nat.

(** [/\s+/] *)
Definition reSpaces : matcher := fun s =>
  match run isSpace s with 0 => None | n => Some n end.

(** [/\d+:\d+/]: both digit runs are taken greedily; when the first run
    is not followed by a colon and a digit, giving digits back cannot
    help, since the character after a shorter run is a digit. *)
Definition reTimestamp : matcher := fun s =>
  match run isDigit s with
  | 0 => None
  | d1 =>
      match drop d1 s with
      | String ":" rest =>
          match run isDigit rest with
          | 0 => None
          | d2 => Some (d1 + 1 + d2)
          end
      | _ => None
      end
  end.

(** [s.replace(re, '')] with the global flag: scan left to right; at a
    position where [re] matches, drop the match and resume after it,
    elsewhere keep the character.  [skip] counts the characters of the
    current match that are still to be dropped. *)
Fixpoint removeAllFrom (re : matcher) (skip : nat) (s : string) : string :=
  match s with
  | EmptyString => EmptyString
  | String c s' =>
      match skip with
      | S k => removeAllFrom re k s'
      | 0 =>
          match re s with
          | Some (S k) => removeAllFrom re k s'
          | _ => String c (removeAllFrom re 0 s')
          end
      end
  end.

Definition removeAll (re : matcher) (s : string) : string :=
  removeAllFrom re 0 s.

(** [s.split(re)]: the pieces between consecutive matches, empty pieces
    included (so a separator at either end yields an empty first or last
    piece, and the empty string yields one empty piece).  The head of
    the result is the piece that starts at the current position. *)
Fixpoint splitFrom (re : matcher) (skip : nat) (s : string) : list string :=
  match s with
  | EmptyString => [EmptyString]
  | String c s' =>
      match skip with
      | S k => splitFrom re k s'
      | 0 =>
          match re s with
          | Some (S k) => EmptyString :: splitFrom re k s'
          | _ =>
              match splitFrom re 0 s' with
              | p :: ps => String c p :: ps
              | [] => [String c EmptyString]
              end
          end
      end
  end.

Definition split (re : matcher) (s : string) : list string :=
  splitFrom re 0 s.

(** The slices [arr.slice(i, i + size)] a loop
    [for (i = 0; i < arr.length; i += step)] visits, in order.  [l] is the
    part of the array from [i] on; [fuel] bounds the number of rounds, and
    [List.length l] rounds are enough when [step] is positive. *)
Fixpoint windows {A : Type} (fuel step size : nat) (l : list A)
  : list (list A) :=
  match fuel, l with
  | S fuel', _ :: _ => firstn size l :: windows fuel' step size (skipn step l)
  | _, _ => []
  end.

(** [String(n)] for a non-negative integer. *)
Definition numberToString (n : nat) : string :=
  NilZero.string_of_uint (Nat.to_uint n).

(** [arr.join(sep)] *)
Definition join (sep : string) (l : list string) : string :=
  String.concat sep l.

End JS.

(* ===================================================================== *)
(** ** Double-precision arithmetic *)
(* ===================================================================== *)

Module Double.

(** A finite double is represented by the rational number it stands for.
    Every arithmetic operation of the source gives the double nearest to
    the exact result, ties going to the even significand (IEEE 754
    binary64: 53 significant bits, least exponent -1022, subnormal numbers
    on the grid of [2^-1074]).  Overflow is not modelled: the numbers of
    the modelled functions are scores, second counts and token budgets,
    far below [2^1024]. *)

(** [2^k] for an integer [k]. *)
Definition pow2 (k : Z) : Q := (2 ^ k)%Q.

(** The exponent [e] of a positive number: [2^e <= q < 2^(e+1)]. *)
Definition exponentOf (q : Q) : Z :=
  if Qle_bool 1 q then Z.log2 (Qfloor q)
  else (- Z.log2_up (Qceiling (/ q)))%Z.

(** The exponent of the unit in the last place of the doubles around a
    positive [q]. *)
Definition ulpExponent (q : Q) : Z :=
  (Z.max (exponentOf q) (-1022) - 52)%Z.

(** The integer nearest to [s], the even one when two are as near. *)
Definition nearestEven (s : Q) : Z :=
  let f := Qfloor s in
  match (s - inject_Z f ?= 1 # 2)%Q with
  | Lt => f
  | Gt => (f + 1)%Z
  | Eq => if Z.even f then f else (f + 1)%Z
  end.

(** The double nearest to a positive [q]. *)
Definition roundPositive (q : Q) : Q :=
  let u := ulpExponent q in
  (inject_Z (nearestEven (q / pow2 u)) * pow2 u)%Q.

(** The double nearest to [q], in lowest terms. *)
Definition round (q : Q) : Q :=
  let r := Qred q in
  match Qnum r with
  | Z0 => 0%Q
  | Zpos _ => Qred (roundPositive r)
  | Zneg _ => Qred (- roundPositive (- r))
  end.

(** The operators [*], [+], [-] and [/] on doubles. *)
Definition mul (a b : Q) : Q := round (a * b).
Definition add (a b : Q) : Q := round (a + b).
Definition sub (a b : Q) : Q := round (a - b).
Definition div (a b : Q) : Q := round (a / b).

(** [a < b] *)
Definition ltb (a b : Q) : bool := negb (Qle_bool b a).

(** A decimal literal of the source. *)
Definition literal (q : Q) : Q := round q.

(** An array index or a length as a number: an integer below [2^53]. *)
Definition ofNat (n : nat) : Q := inject_Z (Z.of_nat n).

(** [Math.floor(x)] *)
Definition floor (x : Q) : Z := Qfloor x.

(** A number a double can hold. *)
Definition isDouble (q : Q) : Prop := (round q == q)%Q.

End Double.

(* ===================================================================== *)
(** ** Timestamp alignment (timestamp-matching.ts) *)
(* ===================================================================== *)

Module TimestampMatching.
Import JS.

Record TimestampSegment := mkSegment {
  text : string;
  timestampDisplay : string;
  timestampSeconds : Z;
  endSeconds : Z
}.

(** [matchDisplay] is the optional [timestampDisplay] of the result. *)
Record TimestampMatch := mkMatch {
  startTime : Z;
  endTime : Z;
  matched : bool;
  matchDisplay : option string
}.

(** [w => w.length > 2] *)
Definition longWord (w : string) : bool := 2 <? String.length w.

(** The tail shared by both fingerprints:
    [.toLowerCase().split(/\s+/).filter(w => w.length > 2).slice(0, 20).join(' ')] *)
Definition fingerprintWords (s : string) : string :=
  join " " (firstn 20 (filter longWord (split reSpaces (toLowerCase s)))).

(** Fingerprint of a segment, as in [preprocessTimestampSegments]:
    [seg.text.replace(/\d+:\d+/g, '').trim()] and then the shared tail. *)
Definition segmentFingerprint (segText : string) : string :=
  fingerprintWords (trim (removeAll reTimestamp segText)).

Definition preprocessTimestampSegments (segments : list TimestampSegment)
  : list (TimestampSegment * string) :=
  map (fun seg => (seg, segmentFingerprint (text seg))) segments.

(** Fingerprint of a chunk, as in [matchChunkToTimestamp]: the shared
    tail applied to the chunk text itself. *)
Definition chunkFingerprint (chunkText : string) : string :=
  fingerprintWords chunkText.

(** The test in the body of the [for] loop. *)
Definition segmentMatches (chunkFp segmentFp : string) : bool :=
  let chunkIncludesSegment := includes chunkFp (substring 0 50 segmentFp) in
  let segmentIncludesChunk := includes segmentFp (substring 0 50 chunkFp) in
  chunkIncludesSegment || segmentIncludesChunk.

(** The [for ... break] loop: the first preprocessed segment that
    passes the test. *)
Definition findMatchingSegment (chunkFp : string)
    (pre : list (TimestampSegment * string)) : option TimestampSegment :=
  option_map fst (find (fun p => segmentMatches chunkFp (snd p)) pre).

(** [segments[segments.length - 1]?.endSeconds || 0] *)
Definition totalDurationOf (segments : list TimestampSegment) : Z :=
  match last (map Some segments) None with
  | Some seg => endSeconds seg
  | None => 0%Z
  end.

(** The proportional fallback, in the source's double precision:
    [chunkIndex / totalChunks], then
    [Math.floor(chunkPosition * totalDuration)] and
    [Math.floor((chunkPosition + (1 / totalChunks)) * totalDuration)],
    each operation rounded.  The integers are below [2^53] and so are
    doubles as they stand.  For [totalChunks = 0] the quotient is NaN or an
    infinity in the source, which is not modelled; every caller passes the
    length of the array it is mapping over, which is positive. *)
Definition chunkPositionOf (chunkIndex totalChunks : Z) : Q :=
  Double.div (inject_Z chunkIndex) (inject_Z totalChunks).

Definition fallbackStart (chunkIndex totalChunks totalDuration : Z) : Z :=
  Double.floor
    (Double.mul (chunkPositionOf chunkIndex totalChunks)
                (inject_Z totalDuration)).

Definition fallbackEnd (chunkIndex totalChunks totalDuration : Z) : Z :=
  Double.floor
    (Double.mul
       (Double.add (chunkPositionOf chunkIndex totalChunks)
                   (Double.div 1%Q (inject_Z totalChunks)))
       (inject_Z totalDuration)).

Definition matchChunkToTimestamp (chunkText : string)
    (segments : list TimestampSegment) (chunkIndex totalChunks : Z)
  : TimestampMatch :=
  match segments with
  | [] => mkMatch 0 0 false None
  | _ :: _ =>
      let preprocessedSegments := preprocessTimestampSegments segments in
      let chunkFp := chunkFingerprint chunkText in
      match findMatchingSegment chunkFp preprocessedSegments with
      | Some seg =>
          mkMatch (timestampSeconds seg) (endSeconds seg) true
                  (Some (timestampDisplay seg))
      | None =>
          let totalDuration := totalDurationOf segments in
          mkMatch (fallbackStart chunkIndex totalChunks totalDuration)
                  (fallbackEnd chunkIndex totalChunks totalDuration)
                  false None
      end
  end.

(** The call inside the chunk loops,
    [textChunks.map((chunk, index) =>
       matchChunkToTimestamp(chunk, segments, index, textChunks.length))]. *)
Fixpoint alignFrom (segments : list TimestampSegment) (total : Z)
    (index : nat) (chunks : list string) : list TimestampMatch :=
  match chunks with
  | [] => []
  | chunk :: rest =>
      matchChunkToTimestamp chunk segments (Z.of_nat index) total
        :: alignFrom segments total (S index) rest
  end.

Definition alignChunks (chunks : list string)
    (segments : list TimestampSegment) : list TimestampMatch :=
  alignFrom segments (Z.of_nat (List.length chunks)) 0 chunks.

(** Segments ordered by non-decreasing start time. *)
Fixpoint wellFormed (segments : list TimestampSegment) : bool :=
  match segments with
  | [] => true
  | seg :: rest =>
      forallb (fun later => (timestampSeconds seg <=? timestampSeconds later)%Z)
              rest
      && wellFormed rest
  end.

(** Position of the first segment that passes the test of the loop. *)
Fixpoint firstMatchIndex (chunkFp : string) (segments : list TimestampSegment)
  : option nat :=
  match segments with
  | [] => None
  | seg :: rest =>
      if segmentMatches chunkFp (segmentFingerprint (text seg)) then Some 0
      else option_map S (firstMatchIndex chunkFp rest)
  end.

End TimestampMatching.


(* ===================================================================== *)
(** ** Result fusion (hybrid-search.ts) *)
(* ===================================================================== *)

Module HybridSearch.
Import JS.

Inductive Source := semantic | keyword | hybrid.

Record Metadata := mkMetadata {
  videoId : string;
  chunkIndex : Z
}.

(** [score] is a double: the rational number it stands for. *)
Record SearchResult := mkResult {
  text : string;
  score : Q;
  source : Source;
  metadata : Metadata
}.

(** [0.8 - (index * 0.05)] *)
Definition rankScore (index : nat) : Q :=
  Double.sub (Double.literal (8 # 10))
             (Double.mul (Double.ofNat index) (Double.literal (5 # 100))).

(** [performSemanticSearch], after the vector index has answered with
    [chunks]: the [index]-th text gets the score [0.8 - index * 0.05]. *)
Fixpoint semanticResultsFrom (index : nat) (chunks : list string)
  : list SearchResult :=
  match chunks with
  | [] => []
  | t :: rest =>
      mkResult t (rankScore index) semantic
               (mkMetadata "unknown" (Z.of_nat index))
        :: semanticResultsFrom (S index) rest
  end.

Definition performSemanticSearch (chunks : list string) : list SearchResult :=
  semanticResultsFrom 0 chunks.

(** [prev.text.substring(0, 100) === result.text.substring(0, 100)] *)
Definition samePrefix (prev result : SearchResult) : bool :=
  String.eqb (substring 0 100 (text prev)) (substring 0 100 (text result)).

(** [allResults.filter((result, index, array) =>
       !array.slice(0, index).some(prev => ...))]:
    [prev] is [array.slice(0, index)], every earlier element whether it was
    kept or not. *)
Fixpoint uniqueFrom (prev rest : list SearchResult) : list SearchResult :=
  match rest with
  | [] => []
  | result :: rest' =>
      if existsb (fun p => samePrefix p result) prev
      then uniqueFrom (prev ++ [result]) rest'
      else result :: uniqueFrom (prev ++ [result]) rest'
  end.

Definition uniqueResults (allResults : list SearchResult) : list SearchResult :=
  uniqueFrom [] allResults.

(** [queryWords.filter(word => word.length > 2 && textWords.includes(word)).length] *)
Definition keywordMatches (query : string) (resultText : string) : nat :=
  let queryWords := split reSpaces (toLowerCase query) in
  let textWords := toLowerCase resultText in
  List.length
    (filter (fun word => (2 <? String.length word) && includes textWords word)
            queryWords).

(** [hybridScore *= 0.7] for a semantic result, [hybridScore *= 0.3] for a
    keyword result. *)
Definition sourceWeighted (result : SearchResult) : Q :=
  match source result with
  | semantic => Double.mul (score result) (Double.literal (7 # 10))
  | keyword => Double.mul (score result) (Double.literal (3 # 10))
  | hybrid => score result
  end.

(** [1 + keywordMatches * 0.1] *)
Definition boost (keywordMatches : nat) : Q :=
  Double.add 1%Q (Double.mul (Double.ofNat keywordMatches)
                             (Double.literal (1 # 10))).

(** [if (keywordMatches > 0) { hybridScore *= (1 + keywordMatches * 0.1) }] *)
Definition hybridScore (query : string) (result : SearchResult) : Q :=
  let k := keywordMatches query (text result) in
  if 0 <? k
  then Double.mul (sourceWeighted result) (boost k)
  else sourceWeighted result.

(** The callback of [uniqueResults.map]. *)
Definition scoreResult (query : string) (result : SearchResult) : SearchResult :=
  mkResult (text result) (hybridScore query result) hybrid (metadata result).

(** [arr.sort((a, b) => b.score - a.score)].  The host sort is stable, so
    its result is the sorted, stable rearrangement of the input; it is
    written here as a stable insertion sort.  The comparator's difference
    is rounded, and the rounded difference of two doubles has the sign of
    the exact one, so the scores themselves are compared. *)
Fixpoint insertByScore (x : SearchResult) (l : list SearchResult)
  : list SearchResult :=
  match l with
  | [] => [x]
  | y :: l' =>
      if Qle_bool (score y) (score x) then x :: y :: l'
      else y :: insertByScore x l'
  end.

Fixpoint sortByScore (l : list SearchResult) : list SearchResult :=
  match l with
  | [] => []
  | x :: l' => insertByScore x (sortByScore l')
  end.

(** [limit] is a non-negative integer at every call site. *)
Definition fuseAndRankResults (semanticResults keywordResults : list SearchResult)
    (query : string) (limit : nat) : list SearchResult :=
  let allResults := semanticResults ++ keywordResults in
  let scoredResults := map (scoreResult query) (uniqueResults allResults) in
  firstn limit (sortByScore scoredResults).

(** The order the sort establishes, the candidates tied at a score, and
    the weight of a source. *)
Definition descending (a b : SearchResult) : Prop := (score b <= score a)%Q.

Definition tiedAt (v : Q) (r : SearchResult) : bool := Qeq_bool (score r) v.

(** The hybrid score of the semantic result at [rank] whose text contains
    [k] of the query words. *)
Definition semanticHybridScore (rank k : nat) : Q :=
  let weighted := Double.mul (rankScore rank) (Double.literal (7 # 10)) in
  if 0 <? k then Double.mul weighted (boost k) else weighted.



End HybridSearch.

(* ===================================================================== *)
(** ** The sentence chunker (youtube.ts, [chunkText]) *)
(* ===================================================================== *)

Module Chunker.
Import JS.

(** [Math.ceil(text.length / 4)] *)
Definition estimateTokens (text : string) : nat :=
  (String.length text + 3) / 4.

(** [/[.!?;]\s+|[\n\r]+/] *)
Definition reSentence : matcher := fun s =>
  match s with
  | EmptyString => None
  | String c rest =>
      if isSentenceEnd c then
        match run isSpace rest with
        | 0 => None
        | n => Some (1 + n)
        end
      else
        match run isNewline s with
        | 0 => None
        | n => Some n
        end
  end.

(** Index just past the last line feed among the first [n] characters of
    [s], if there is one. *)
Fixpoint lastLineFeed (n : nat) (s : string) : option nat :=
  match n, s with
  | S k, String c s' =>
      match lastLineFeed k s' with
      | Some j => Some (S j)
      | None => if (nat_of_ascii c =? 10) then Some 1 else None
      end
  | _, _ => None
  end.

(** [/\n\s*\n/]: a line feed, then the longest stretch of white space that
    still ends in a line feed (the star gives characters back until the
    closing line feed is found). *)
Definition reParagraph : matcher := fun s =>
  match s with
  | String c rest =>
      if (nat_of_ascii c =? 10) then
        match lastLineFeed (run isSpace rest) rest with
        | Some j => Some (1 + j)
        | None => None
        end
      else None
  | EmptyString => None
  end.

(** The word-based fallback: [words.slice(i, i + wordsPerChunk).join(' ')]
    for [i = 0, step, 2 * step, ...] while [i < words.length], keeping the
    windows longer than 50 characters. *)
Definition wordWindows (step wordsPerChunk : nat) (words : list string)
  : list string :=
  filter (fun chunk => 50 <? String.length chunk)
         (map (join " ")
              (windows (List.length words) step wordsPerChunk words)).

(** [maxTokens * 0.8] *)
Definition targetChunkTokens (maxTokens : nat) : Q :=
  Double.mul (Double.ofNat maxTokens) (Double.literal (8 # 10)).

(** [estimatedTokens < targetChunkTokens && testChunk.length < 2500] *)
Definition fits (maxTokens : nat) (testChunk : string) : bool :=
  Double.ltb (Double.ofNat (estimateTokens testChunk))
             (targetChunkTokens maxTokens)
  && (String.length testChunk <? 2500).

Definition flush (currentChunk : string) : list string :=
  if 100 <? String.length currentChunk then [currentChunk] else [].

(** The accumulation loop and the final push.  The result lists the
    chunks in the order they are pushed. *)
Fixpoint accumulate (maxTokens : nat) (currentChunk : string)
    (sentences : list string) : list string :=
  match sentences with
  | [] => flush currentChunk
  | sentence :: rest =>
      let testChunk :=
        match currentChunk with
        | EmptyString => trim sentence
        | _ => (currentChunk ++ " " ++ trim sentence)%string
        end in
      if fits maxTokens testChunk
      then accumulate maxTokens testChunk rest
      else flush currentChunk ++ accumulate maxTokens (trim sentence) rest
  end.

Definition usable (s : string) : bool := 10 <? String.length (trim s).

(** [Math.floor(maxTokens * 0.7)] and [Math.floor(wordsPerChunk * 0.1)] *)
Definition wordsPerChunkOf (maxTokens : nat) : nat :=
  Z.to_nat (Double.floor (Double.mul (Double.ofNat maxTokens)
                                     (Double.literal (7 # 10)))).

Definition overlapWordsOf (wordsPerChunk : nat) : nat :=
  Z.to_nat (Double.floor (Double.mul (Double.ofNat wordsPerChunk)
                                     (Double.literal (1 # 10)))).

(** The three ways [sentences] is obtained.  The word loop of the last one
    advances by [wordsPerChunk - overlapWords]; when that is 0 (a budget
    below 2 tokens) the loop never ends and the function does not return,
    which is the result [None]. *)
Definition sentencesOf (text : string) (maxTokens : nat)
  : option (list string) :=
  let bySentence := filter usable (split reSentence text) in
  let sentences :=
    if List.length bySentence <=? 2
    then filter usable (split reParagraph text)
    else bySentence in
  if List.length sentences <=? 1
  then
    let words := split reSpaces text in
    let wordsPerChunk := wordsPerChunkOf maxTokens in
    let overlapWords := overlapWordsOf wordsPerChunk in
    if wordsPerChunk - overlapWords =? 0 then None
    else Some (wordWindows (wordsPerChunk - overlapWords) wordsPerChunk words)
  else Some sentences.

(** [chunkText(text, maxTokens)]: the chunks, or [None] when the call does
    not return. *)
Definition chunkTextWith (text : string) (maxTokens : nat)
  : option (list string) :=
  if String.length text <? 50 then Some []
  else option_map (accumulate maxTokens EmptyString)
                  (sentencesOf text maxTokens).

(** [chunkText(text)] with the default [maxTokens = 400]. *)
Definition chunkText (text : string) : option (list string) :=
  chunkTextWith text 400.

End Chunker.


(* ===================================================================== *)
(** ** The alignment and the overlap count as the specification words them *)
(* ===================================================================== *)

Module Claimed.
Import JS.

(** One fingerprint for segments and chunks alike: lower-case, strip
    the timestamps, tokenize on white space, drop the tokens of length at
    most 2, keep the first 20 tokens, join them with spaces. *)
Definition fingerprint (s : string) : string :=
  join " "
    (firstn 20
       (filter (fun w => 2 <? String.length w)
          (split reSpaces (removeAll reTimestamp (toLowerCase s))))).

Definition align (chunkText : string)
    (segments : list TimestampMatching.TimestampSegment)
    (chunkIndex totalChunks : Z) : TimestampMatching.TimestampMatch :=
  match segments with
  | [] => TimestampMatching.mkMatch 0 0 false None
  | _ :: _ =>
      match find (fun seg =>
                    TimestampMatching.segmentMatches
                      (fingerprint chunkText)
                      (fingerprint (TimestampMatching.text seg)))
                 segments with
      | Some seg =>
          TimestampMatching.mkMatch
            (TimestampMatching.timestampSeconds seg)
            (TimestampMatching.endSeconds seg) true
            (Some (TimestampMatching.timestampDisplay seg))
      | None =>
          let totalDuration := TimestampMatching.totalDurationOf segments in
          TimestampMatching.mkMatch
            (Double.floor
               (Double.mul (Double.div (inject_Z chunkIndex)
                                       (inject_Z totalChunks))
                           (inject_Z totalDuration)))
            (Double.floor
               (Double.mul (Double.div (inject_Z (chunkIndex + 1))
                                       (inject_Z totalChunks))
                           (inject_Z totalDuration)))
            false None
      end
  end.

(** The number of distinct query words of length above 2 that the
    candidate text contains literally. *)
Definition keywordOverlap (query resultText : string) : nat :=
  List.length
    (nodup string_dec
       (filter (fun word => (2 <? String.length word) && includes resultText word)
               (split reSpaces query))).

Definition hybridScore (query : string) (result : HybridSearch.SearchResult) : Q :=
  Double.mul (HybridSearch.sourceWeighted result)
             (HybridSearch.boost
                (keywordOverlap query (HybridSearch.text result))).

End Claimed.

(* ===================================================================== *)
(** ** The two stores (pinecone.ts and rag.ts, [storeTranscriptChunks]) *)
(* ===================================================================== *)

Module Storage.
Import stdpp.base stdpp.gmap stdpp.strings.
Import JS.

Definition Embedding := list Q.

Inductive Result (A : Type) :=
| Ok (a : A)
| Throw (msg : string).
Arguments Ok {A} a.
Arguments Throw {A} msg.

(** An element of [chunksWithEmbeddings]. *)
Record EmbeddedChunk := mkEmbeddedChunk {
  text : string;
  embedding : Embedding;
  chunkIndex : nat;
  videoTitle : option string;
  startTime : option Z;
  endTime : option Z
}.

Record VectorMetadata := mkVectorMetadata {
  vm_creatorId : string;
  vm_videoId : string;
  vm_chunkIndex : nat;
  vm_text : string;
  vm_videoTitle : string;
  vm_startTime : Z;
  vm_endTime : Z;
  vm_createdAt : string
}.

Record PineconeRecord := mkPineconeRecord {
  id : string;
  values : Embedding;
  metadata : VectorMetadata
}.

(** The template [`${creatorId}_${videoId}_${chunk.chunkIndex}`]. *)
Definition vectorId (creatorId videoId : string) (chunkIndex : nat) : string :=
  (creatorId ++ "_" ++ videoId ++ "_" ++ numberToString chunkIndex)%string.

(** The callback of [chunks.map] in pinecone.ts; [now] stands for
    [new Date().toISOString()]. *)
Definition vectorOf (creatorId videoId now : string) (chunk : EmbeddedChunk)
  : PineconeRecord :=
  mkPineconeRecord
    (vectorId creatorId videoId (chunkIndex chunk))
    (embedding chunk)
    (mkVectorMetadata creatorId videoId (chunkIndex chunk)
       (substring 0 5000 (text chunk))
       (match videoTitle chunk with Some t => t | None => EmptyString end)
       (match startTime chunk with Some t => t | None => 0%Z end)
       (match endTime chunk with Some t => t | None => 0%Z end)
       now).

(** The vector index: records by id.  [index.upsert(batch)] writes each
    record of the batch under its id, replacing a record already there. *)
Definition upsert (index : gmap string PineconeRecord)
    (batch : list PineconeRecord) : gmap string PineconeRecord :=
  foldl (fun m v => <[id v := v]> m) index batch.

(** pinecone.ts, [storeTranscriptChunks]: batches of 100, upserted in
    order. *)
Definition storeToPinecone (index : gmap string PineconeRecord)
    (creatorId videoId now : string) (chunks : list EmbeddedChunk)
  : gmap string PineconeRecord :=
  match chunks with
  | [] => index
  | _ :: _ =>
      let vectors := map (vectorOf creatorId videoId now) chunks in
      let batches := windows (List.length vectors) 100 100 vectors in
      foldl upsert index batches
  end.

(** A document of the [transcript_chunks] collection. *)
Record ChunkDocument := mkChunkDocument {
  doc_creatorId : string;
  doc_videoId : string;
  doc_chunkIndex : nat;
  doc_text : string;
  doc_contentType : string;
  doc_videoTitle : option string;
  doc_videoUrl : option string;
  doc_thumbnailUrl : option string;
  doc_startTime : Z;
  doc_endTime : Z;
  doc_duration : option Z;
  doc_createdAt : string
}.

(** [collection.insertMany(documents)]: the collection has no unique
    index on the chunk identity (mongodb.ts declares two plain indexes on
    it), so every document is added. *)
Definition insertMany (collection documents : list ChunkDocument)
  : list ChunkDocument :=
  collection ++ documents.

(** The documents of the collection with a given chunk identity, as
    [find({ creatorId, videoId, chunkIndex })] returns them. *)
Definition withIdentity (creatorId videoId : string) (chunkIndex : nat)
    (collection : list ChunkDocument) : list ChunkDocument :=
  List.filter (fun d => String.eqb (doc_creatorId d) creatorId
                        && String.eqb (doc_videoId d) videoId
                        && Nat.eqb (doc_chunkIndex d) chunkIndex)
              collection.

Record Stores := mkStores {
  pinecone : gmap string PineconeRecord;
  transcript_chunks : list ChunkDocument
}.

(** A LangChain document as the ingestion job passes it:
    [pageContent] and the timestamps in its metadata. *)
Record LangChainDocument := mkDocument {
  pageContent : string;
  md_startTime : option Z;
  md_endTime : option Z
}.

(** The embedding loop of rag.ts: chunk [i] is skipped when its text is
    empty, fails the whole call when [createEmbedding] throws or answers
    with an empty vector, and is pushed with [chunkIndex: i] otherwise. *)
Fixpoint embedChunks (createEmbedding : string -> Result Embedding)
    (videoTitle : option string) (i : nat) (chunks : list LangChainDocument)
  : Result (list EmbeddedChunk) :=
  match chunks with
  | [] => Ok []
  | doc :: rest =>
      match pageContent doc with
      | EmptyString => embedChunks createEmbedding videoTitle (S i) rest
      | chunkText =>
          match createEmbedding chunkText with
          | Throw msg =>
              Throw ("Embedding creation failed for chunk " ++ numberToString i
                     ++ ": " ++ msg)%string
          | Ok [] =>
              Throw ("Embedding creation failed for chunk " ++ numberToString i
                     ++ ": Failed to create embedding for chunk "
                     ++ numberToString i)%string
          | Ok e =>
              match embedChunks createEmbedding videoTitle (S i) rest with
              | Ok l =>
                  Ok (mkEmbeddedChunk chunkText e i videoTitle
                        (md_startTime doc) (md_endTime doc) :: l)
              | Throw msg => Throw msg
              end
          end
      end
  end.

(** The callback of [chunksWithEmbeddings.map] that builds the metadata
    documents. *)
Definition documentOf (creatorId videoId now : string)
    (videoTitle videoUrl thumbnailUrl : option string)
    (timestampSegments : list TimestampMatching.TimestampSegment)
    (total : nat) (chunk : EmbeddedChunk) : ChunkDocument :=
  let timestampMatch :=
    TimestampMatching.matchChunkToTimestamp (text chunk) timestampSegments
      (Z.of_nat (chunkIndex chunk)) (Z.of_nat total) in
  let startTime := TimestampMatching.startTime timestampMatch in
  let endTime := TimestampMatching.endTime timestampMatch in
  mkChunkDocument creatorId videoId (chunkIndex chunk) (text chunk)
    "video_transcript" videoTitle videoUrl thumbnailUrl
    startTime endTime
    (if negb (startTime =? 0)%Z && negb (endTime =? 0)%Z
     then Some (endTime - startTime)%Z else None)
    now.

(** rag.ts, [storeTranscriptChunks], for LangChain documents (the form
    the ingestion job passes), on the path where the two stores accept the
    writes; a store that rejects a write makes the call throw. *)
Definition storeTranscriptChunks
    (createEmbedding : string -> Result Embedding) (now : string)
    (stores : Stores) (creatorId videoId : string)
    (chunks : list LangChainDocument)
    (videoTitle videoUrl thumbnailUrl : option string)
    (timestampSegments : list TimestampMatching.TimestampSegment)
  : Result Stores :=
  match chunks with
  | [] => Throw "No chunks provided for storage"
  | _ :: _ =>
      match embedChunks createEmbedding videoTitle 0 chunks with
      | Throw msg => Throw msg
      | Ok [] => Throw "No valid embeddings created from chunks"
      | Ok chunksWithEmbeddings =>
          let pinecone' :=
            storeToPinecone (pinecone stores) creatorId videoId now
                            chunksWithEmbeddings in
          let documents :=
            map (documentOf creatorId videoId now videoTitle videoUrl
                   thumbnailUrl timestampSegments
                   (List.length chunksWithEmbeddings))
                chunksWithEmbeddings in
          Ok (mkStores pinecone' (insertMany (transcript_chunks stores) documents))
      end
  end.

End Storage.

(* ===================================================================== *)
(** ** The ingestion job (routes/process.ts and job-store.ts) *)
(* ===================================================================== *)

Module Ingestion.
Import stdpp.base stdpp.gmap stdpp.strings.
Import JS.
Import Storage (Result, Ok, Throw).

Inductive JobStatus := queued | processing | completed | failed.

Record JobResult := mkJobResult {
  processedVideos : nat;
  totalChunks : nat;
  failedVideos : nat
}.

Record ProcessingJob := mkJob {
  jobId : string;
  creatorId : string;
  status : JobStatus;
  progressCurrent : nat;
  progressTotal : nat;
  result : option JobResult;
  error : option string
}.

(** What the job reads of a fetched video.  [durationMinutes] is the
    whole number [parseDurationToMinutes] returns. *)
Record Video := mkVideo {
  videoId : string;
  durationMinutes : Z;
  hasCaptions : bool
}.

(** *** The eligibility gate *)

(** [d && d.length > 50], as a truth value. *)
Definition usableDescription (d : option string) : bool :=
  match d with
  | Some s => 50 <? String.length s
  | None => false
  end.

(** [duration >= 2 && duration <= 25] with [duration = v.durationMinutes || 0]. *)
Definition validDuration (v : Video) : bool :=
  (2 <=? durationMinutes v)%Z && (durationMinutes v <=? 25)%Z.

Definition videosWithCaptions (videos : list Video) : nat :=
  List.length (List.filter hasCaptions videos).

Definition videosWithValidDuration (videos : list Video) : nat :=
  List.length (List.filter validDuration videos).

Definition videosEligibleForProcessing (videos : list Video) : nat :=
  List.length (List.filter (fun v => hasCaptions v && validDuration v) videos).

Definition nl : string := String (ascii_of_nat 10) EmptyString.

(** The message of the first [throw] ("fail early"). *)
Definition noEligibleVideosMessage : string :=
  ("No eligible videos found. Your videos must be between 2-25 minutes long with captions enabled. "
   ++ "To proceed without eligible videos, please provide a custom description when creating the bot (or add a detailed channel description on YouTube).")%string.

(** The messages of the second block ("Build specific error message based
    on what's missing").  The bullet of the source, U+2022, is written
    with an asterisk. *)
Definition neitherMessage : string :=
  ("Channel not eligible: No videos with captions AND no videos between 2-25 minutes in length. "
   ++ "Requirements:" ++ nl
   ++ "* Videos must have captions/transcripts enabled" ++ nl
   ++ "* Videos must be between 2-25 minutes long" ++ nl
   ++ "OR provide a custom description when creating the bot.")%string.

Definition noCaptionsMessage (validDurationCount : nat) : string :=
  ("Channel not eligible: Found " ++ numberToString validDurationCount
   ++ " video(s) with valid duration (2-25 min), but NONE have captions/transcripts. "
   ++ "YouTube auto-generates captions after 10-30 minutes. "
   ++ "Please enable captions or provide a custom description.")%string.

Definition wrongDurationMessage (captionsCount : nat) : string :=
  ("Channel not eligible: Found " ++ numberToString captionsCount
   ++ " video(s) with captions, but NONE are between 2-25 minutes in length. "
   ++ "We only process videos between 2-25 minutes. "
   ++ "Please ensure you have videos in this duration range or provide a custom description.")%string.

Definition noOverlapMessage (captionsCount validDurationCount : nat) : string :=
  ("Channel not eligible: Found " ++ numberToString captionsCount
   ++ " video(s) with captions and " ++ numberToString validDurationCount
   ++ " video(s) with valid duration, but NO overlap. "
   ++ "Videos need BOTH captions AND be 2-25 minutes long. "
   ++ "Please provide a custom description to proceed.")%string.

Definition specificMessage (videos : list Video) : string :=
  if (videosWithCaptions videos =? 0) && (videosWithValidDuration videos =? 0)
  then neitherMessage
  else if videosWithCaptions videos =? 0
  then noCaptionsMessage (videosWithValidDuration videos)
  else if videosWithValidDuration videos =? 0
  then wrongDurationMessage (videosWithCaptions videos)
  else noOverlapMessage (videosWithCaptions videos)
                        (videosWithValidDuration videos).

(** The two consecutive [if (...) { ... throw ... }] statements of the
    eligibility check, in source order: the message thrown, if any. *)
Definition eligibilityError (videos : list Video)
    (customDescription channelDescription wikipediaSummary : option string)
  : option string :=
  let hasCustomDescription := usableDescription customDescription in
  let hasChannelDescription := usableDescription channelDescription in
  let hasWikipedia := usableDescription wikipediaSummary in
  if (videosEligibleForProcessing videos =? 0)
     && negb hasCustomDescription && negb hasChannelDescription
     && negb hasWikipedia
  then Some noEligibleVideosMessage
  else
    if (videosEligibleForProcessing videos =? 0)
       && negb hasChannelDescription && negb hasCustomDescription
       && negb hasWikipedia
    then Some (specificMessage videos)
    else None.

(** *** The body of [processVideosAsync] *)

(** What happens to one video inside the loop, after the duration test:
    no transcript text; [documents] chunks produced and stored; the same,
    but the write of the progress that follows throws; or an exception
    from one of the calls before the chunks are stored. *)
Inductive VideoOutcome :=
| NoTranscript
| Chunked (documents : nat)
| ChunkedUnrecorded (documents : nat)
| VideoThrows.

Record Team := mkTeam {
  sub_status : string;
  has_channel_ai : bool
}.

(** The answers of the collaborators during one run. *)
Record Env := mkEnv {
  channelVideos : Result (list Video);
  channelInfo : Result (option string * option string);
  customDescription : option string;
  videoOutcome : Video -> VideoOutcome;
  creatorOwned : bool;
  teamAtEnd : option Team
}.

Record Counters := mkCounters {
  c_processedVideos : nat;
  c_totalChunks : nat;
  c_failedVideos : nat;
  c_progressCurrent : nat
}.

(** The [for] loop over [videos]; [i] is the loop index.  A video whose
    progress write throws has been counted as processed, with its chunks
    and the progress set on the job object, and the [catch] of the loop
    body counts it as failed as well. *)
Fixpoint processVideos (outcome : Video -> VideoOutcome) (i : nat)
    (videos : list Video) (acc : Counters) : Counters :=
  match videos with
  | [] => acc
  | video :: rest =>
      let failedOne :=
        mkCounters (c_processedVideos acc) (c_totalChunks acc)
                   (S (c_failedVideos acc)) (c_progressCurrent acc) in
      let acc' :=
        if negb (validDuration video) then failedOne
        else
          match outcome video with
          | NoTranscript => failedOne
          | Chunked 0 => failedOne
          | Chunked documents =>
              mkCounters (S (c_processedVideos acc))
                         (c_totalChunks acc + documents)
                         (c_failedVideos acc) (S i)
          | ChunkedUnrecorded 0 => failedOne
          | ChunkedUnrecorded documents =>
              mkCounters (S (c_processedVideos acc))
                         (c_totalChunks acc + documents)
                         (S (c_failedVideos acc)) (S i)
          | VideoThrows => failedOne
          end in
      processVideos outcome (S i) rest acc'
  end.

(** The videos of the loop whose progress write throws. *)
Definition progressWriteFailures (outcome : Video -> VideoOutcome)
    (videos : list Video) : nat :=
  List.length
    (List.filter (fun video =>
                    validDuration video
                    && match outcome video with
                       | ChunkedUnrecorded (S _) => true
                       | _ => false
                       end)
                 videos).

(** The re-validation before the results are stored. *)
Definition revalidationError (owned : bool) (team : option Team)
  : option string :=
  if owned then
    match team with
    | None => Some "Team no longer exists. Processing aborted."
    | Some t =>
        if negb (String.eqb (sub_status t) "active")
        then Some ("Subscription is no longer active (status: "
                   ++ sub_status t ++ "). Processing aborted.")%string
        else if negb (has_channel_ai t)
        then Some "Channel AI subscription was cancelled during processing. Processing aborted."
        else None
    end
  else None.

Definition noContentMessage : string :=
  ("Processing completed but no content available. None of your videos have transcripts, and no channel description was found. "
   ++ "Please either:" ++ nl
   ++ "1. Enable captions on your videos" ++ nl
   ++ "2. Add a channel description on YouTube" ++ nl
   ++ "3. Provide a custom description")%string.

(** What the [try] block leaves behind: the progress written to the job
    and either the result or the exception that reached the [catch]. *)
Record Run := mkRun {
  run_total : nat;
  run_current : nat;
  run_outcome : Result JobResult
}.

Definition processBody (env : Env) (job : ProcessingJob) : Run :=
  match channelVideos env with
  | Throw msg => mkRun (progressTotal job) (progressCurrent job) (Throw msg)
  | Ok videos =>
      let total := List.length videos in
      match channelInfo env with
      | Throw msg => mkRun total (progressCurrent job) (Throw msg)
      | Ok (channelDescription, wikipediaSummary) =>
          match eligibilityError videos (customDescription env)
                                 channelDescription wikipediaSummary with
          | Some msg => mkRun total (progressCurrent job) (Throw msg)
          | None =>
              let c := processVideos (videoOutcome env) 0 videos
                         (mkCounters 0 0 0 (progressCurrent job)) in
              let described :=
                usableDescription channelDescription
                || usableDescription (customDescription env)
                || usableDescription wikipediaSummary in
              if (c_processedVideos c =? 0) && negb described
              then mkRun total (c_progressCurrent c) (Throw noContentMessage)
              else
                match revalidationError (creatorOwned env) (teamAtEnd env) with
                | Some msg => mkRun total (c_progressCurrent c) (Throw msg)
                | None =>
                    mkRun total (c_progressCurrent c)
                      (Ok (mkJobResult (c_processedVideos c) (c_totalChunks c)
                                       (c_failedVideos c)))
                end
          end
      end
  end.

(** The job record once [processVideosAsync] has run to its end: the
    last [jobStore.set] of the [try] block or the one of the [catch]. *)
Definition finishedJob (env : Env) (job : ProcessingJob) : ProcessingJob :=
  let r := processBody env job in
  match run_outcome r with
  | Ok res =>
      mkJob (jobId job) (creatorId job) completed (run_current r) (run_total r)
            (Some res) (error job)
  | Throw msg =>
      mkJob (jobId job) (creatorId job) failed (run_current r) (run_total r)
            (result job) (Some msg)
  end.

(** *** The processing collection and the job store *)

(** A document of the [ChannelAIProcessing] collection (the fields the
    job's control flow reads or writes). *)
Record ChannelAIProcessing := mkProcessing {
  p_channelId : string;
  p_teamId : string;
  p_jobId : string;
  p_status : JobStatus;
  p_canReprocess : bool;
  p_lastError : option string
}.

Definition isProcessing (s : JobStatus) : bool :=
  match s with processing => true | _ => false end.

(** [findOne({ channelId, teamId, status: 'processing' })] *)
Definition findOngoing (collection : list ChannelAIProcessing)
    (channelId teamId : string) : option ChannelAIProcessing :=
  List.find (fun r => String.eqb (p_channelId r) channelId
                      && String.eqb (p_teamId r) teamId
                      && isProcessing (p_status r))
            collection.

(** [updateOne({ channelId, teamId, jobId }, { $set: record }, { upsert: true })] *)
Fixpoint upsertRecord (record : ChannelAIProcessing)
    (collection : list ChannelAIProcessing) : list ChannelAIProcessing :=
  match collection with
  | [] => [record]
  | r :: rest =>
      if String.eqb (p_channelId r) (p_channelId record)
         && String.eqb (p_teamId r) (p_teamId record)
         && String.eqb (p_jobId r) (p_jobId record)
      then record :: rest
      else r :: upsertRecord record rest
  end.

(** job-store.ts: the channel keys.  [markChannelProcessing] is
    [SET key jobId EX ttl NX]; the expiry of the key is not modelled. *)
Definition getChannelKey (channelId teamId : string) : string :=
  ("yt-processor:processing:" ++ channelId ++ ":" ++ teamId)%string.

Definition markChannelProcessing (keys : gmap string string)
    (channelId teamId jobId : string) : gmap string string * bool :=
  match keys !! getChannelKey channelId teamId with
  | None => (<[getChannelKey channelId teamId := jobId]> keys, true)
  | Some _ => (keys, false)
  end.

Definition unmarkChannelProcessing (keys : gmap string string)
    (channelId teamId : string) : gmap string string :=
  delete (getChannelKey channelId teamId) keys.

Definition isChannelProcessing (keys : gmap string string)
    (channelId teamId : string) : bool :=
  match keys !! getChannelKey channelId teamId with
  | Some _ => true
  | None => false
  end.

(** The state the requests share. *)
Record World := mkWorld {
  jobStore : gmap string ProcessingJob;
  processingRecords : list ChannelAIProcessing;
  channelKeys : gmap string string;
  errorLog : list string
}.

(** *** One request, from the duplicate check on

    Between two control points lies one access to a store; the [await]s
    are where another request, or the timer, can run. *)
Inductive ControlPoint :=
| AtCheck        (* before the [findOne] of the duplicate check *)
| AtCreateJob    (* before [jobStore.set(jobId, job)] with status queued *)
| AtStart        (* background task: before the write of status processing *)
| AtWriteRecord  (* before the upsert of the processing record *)
| AtBody         (* before the rest of [processVideosAsync] *)
| Done.

Record Request := mkRequest {
  r_channelId : string;
  r_teamId : string;
  r_jobId : string;
  r_creatorId : string;
  r_env : Env;
  r_pc : ControlPoint;
  r_response : option nat;
  r_job : option ProcessingJob;
  r_timerFired : bool
}.

Definition at_ (pc : ControlPoint) (r : Request) : Request :=
  mkRequest (r_channelId r) (r_teamId r) (r_jobId r) (r_creatorId r)
            (r_env r) pc (r_response r) (r_job r) (r_timerFired r).

Definition respond (code : nat) (r : Request) : Request :=
  mkRequest (r_channelId r) (r_teamId r) (r_jobId r) (r_creatorId r)
            (r_env r) (r_pc r) (Some code) (r_job r) (r_timerFired r).

Definition holding (job : ProcessingJob) (r : Request) : Request :=
  mkRequest (r_channelId r) (r_teamId r) (r_jobId r) (r_creatorId r)
            (r_env r) (r_pc r) (r_response r) (Some job) (r_timerFired r).

Definition setJob (w : World) (job : ProcessingJob) : World :=
  mkWorld (<[jobId job := job]> (jobStore w)) (processingRecords w)
          (channelKeys w) (errorLog w).

Definition writeRecord (w : World) (record : ChannelAIProcessing) : World :=
  mkWorld (jobStore w) (upsertRecord record (processingRecords w))
          (channelKeys w) (errorLog w).

Definition recordOf (r : Request) (job : ProcessingJob) : ChannelAIProcessing :=
  match status job with
  | failed =>
      mkProcessing (r_channelId r) (r_teamId r) (r_jobId r) failed true
                   (error job)
  | completed =>
      mkProcessing (r_channelId r) (r_teamId r) (r_jobId r) completed true None
  | s =>
      mkProcessing (r_channelId r) (r_teamId r) (r_jobId r) s false None
  end.

(** The next store access of a request, in a run whose stores take every
    write and whose creator stays as at the start;
    [FinalWrites.stepRequestWith] has the writes that fail. *)
Definition stepRequest (w : World) (r : Request) : World * Request :=
  match r_pc r with
  | AtCheck =>
      match findOngoing (processingRecords w) (r_channelId r) (r_teamId r) with
      | Some _ => (w, at_ Done (respond 409 r))
      | None => (w, at_ AtCreateJob r)
      end
  | AtCreateJob =>
      let job := mkJob (r_jobId r) (r_creatorId r) queued 0 0 None None in
      (setJob w job, at_ AtStart (respond 202 r))
  | AtStart =>
      match jobStore w !! r_jobId r with
      | None => (w, at_ Done r)
      | Some job =>
          let job' := mkJob (jobId job) (creatorId job) processing
                            (progressCurrent job) (progressTotal job)
                            (result job) (error job) in
          (setJob w job', at_ AtWriteRecord (holding job' r))
      end
  | AtWriteRecord =>
      match r_job r with
      | Some job =>
          ((if creatorOwned (r_env r) then writeRecord w (recordOf r job) else w),
           at_ AtBody r)
      | None => (w, at_ Done r)
      end
  | AtBody =>
      match r_job r with
      | Some job =>
          let job' := finishedJob (r_env r) job in
          let w' := setJob w job' in
          ((if creatorOwned (r_env r) then writeRecord w' (recordOf r job') else w'),
           at_ Done (holding job' r))
      | None => (w, at_ Done r)
      end
  | Done => (w, r)
  end.

Definition PROCESSING_TIMEOUT_MS : Z := (30 * 60 * 1000)%Z.

Definition timeoutMessage : string :=
  ("Processing timeout: Job exceeded maximum time limit of "
   ++ numberToString (Z.to_nat (PROCESSING_TIMEOUT_MS / 60000))
   ++ " minutes")%string.

Definition taskPending (r : Request) : bool :=
  match r_pc r with
  | AtStart | AtWriteRecord | AtBody => true
  | _ => false
  end.

(** The timer of [processVideosAsyncWithTimeout] going off.  While the
    background task is pending, the race rejects with the timeout error
    and the [catch] of the wrapper runs, which logs the error; the task
    itself is not told and goes on.  Once the task has settled the race,
    the rejection is dropped. *)
Definition fireTimer (w : World) (r : Request) : World * Request :=
  if taskPending r && negb (r_timerFired r)
  then
    (mkWorld (jobStore w) (processingRecords w) (channelKeys w)
             (errorLog w ++ [("Processing failed or timed out: " ++ timeoutMessage)%string]),
     mkRequest (r_channelId r) (r_teamId r) (r_jobId r) (r_creatorId r)
               (r_env r) (r_pc r) (r_response r) (r_job r) true)
  else (w, r).

(** Schedules: which request takes its next step, or whose timer fires. *)
Inductive Event :=
| Step (i : nat)
| Timer (i : nat).

Definition State := (World * list Request)%type.

Definition applyAt (f : World -> Request -> World * Request) (i : nat)
    (st : State) : State :=
  match List.nth_error (snd st) i with
  | Some r =>
      let '(w', r') := f (fst st) r in
      (w', List.firstn i (snd st) ++ r' :: List.skipn (S i) (snd st))
  | None => st
  end.

Definition applyEvent (st : State) (e : Event) : State :=
  match e with
  | Step i => applyAt stepRequest i st
  | Timer i => applyAt fireTimer i st
  end.

Definition exec (schedule : list Event) (st : State) : State :=
  List.fold_left applyEvent schedule st.

Definition emptyWorld : World := mkWorld ∅ [] ∅ [].

Definition newRequest (channelId teamId jobId creatorId : string) (env : Env)
  : Request :=
  mkRequest channelId teamId jobId creatorId env AtCheck None None false.

Definition jobStatusOf (st : State) (jobId : string) : option JobStatus :=
  option_map status (jobStore (fst st) !! jobId).

Definition jobErrorOf (st : State) (jobId : string) : option string :=
  match jobStore (fst st) !! jobId with
  | Some job => error job
  | None => None
  end.

(** A state without what only the timer writes: the error log and the
    mark that a request's timer has fired. *)
Definition untimed (r : Request) : Request :=
  mkRequest (r_channelId r) (r_teamId r) (r_jobId r) (r_creatorId r)
            (r_env r) (r_pc r) (r_response r) (r_job r) false.

Definition storesOf (st : State)
  : gmap string ProcessingJob * list ChannelAIProcessing * gmap string string
    * list Request :=
  (jobStore (fst st), processingRecords (fst st), channelKeys (fst st),
   List.map untimed (snd st)).

Definition isStep (e : Event) : bool :=
  match e with
  | Step _ => true
  | Timer _ => false
  end.

(** Number of jobs of a channel and team whose record says processing. *)
Definition processingCount (st : State) (channelId teamId : string) : nat :=
  List.length
    (List.filter (fun r => String.eqb (p_channelId r) channelId
                           && String.eqb (p_teamId r) teamId
                           && isProcessing (p_status r))
                 (processingRecords (fst st))).

End Ingestion.

(* ===================================================================== *)
(** ** Sample inputs *)
(* ===================================================================== *)

Module Examples.

(** [c.repeat(n)] *)
Fixpoint repeatChar (n : nat) (c : ascii) : string :=
  match n with
  | 0 => EmptyString
  | S k => String c (repeatChar k c)
  end.

(** A run-on sentence of 3000 characters followed by three short ones. *)
Definition runOnText : string :=
  (repeatChar 3000 "a" ++ ". bbbbbbbbbbbb. cccccccccccc. dddddddddddd")%string.


(** An ingestion of one chunk of one video: the embedding service
    answers with a one-dimensional vector. *)
Definition oneChunk : list Storage.LangChainDocument :=
  [Storage.mkDocument "welcome everybody today" (Some 0%Z) (Some 5%Z)].

Definition constantEmbedding (chunkText : string)
  : Storage.Result Storage.Embedding :=
  Storage.Ok [1%Q].

Definition emptyStores : Storage.Stores := Storage.mkStores gmap.gmap_empty [].

Definition runOnce (now : string) (stores : Storage.Stores) : Storage.Stores :=
  match Storage.storeTranscriptChunks constantEmbedding now stores
          "creator1" "video1" oneChunk (Some "Welcome") None None
          [TimestampMatching.mkSegment "welcome everybody today" "0:00" 0 5] with
  | Storage.Ok stores' => stores'
  | Storage.Throw _ => stores
  end.

Definition firstRun : Storage.Stores :=
  runOnce "2025-01-01T10:00:00.000Z" emptyStores.

Definition secondRun : Storage.Stores :=
  runOnce "2025-01-02T10:00:00.000Z" firstRun.

(** A channel with one eligible video that yields three chunks, owned
    by a team whose subscription stays active. *)
Definition healthyEnv : Ingestion.Env :=
  Ingestion.mkEnv
    (Storage.Ok [Ingestion.mkVideo "video1" 10 true])
    (Storage.Ok (None, None))
    None
    (fun _ => Ingestion.Chunked 3)
    true
    (Some (Ingestion.mkTeam "active" true)).

(** The same channel with a second video; the progress write of the first
    video throws after its chunks were stored. *)
Definition unrecordedEnv : Ingestion.Env :=
  Ingestion.mkEnv
    (Storage.Ok [Ingestion.mkVideo "video1" 10 true;
                 Ingestion.mkVideo "video2" 12 true])
    (Storage.Ok (None, None))
    None
    (fun video => if String.eqb (Ingestion.videoId video) "video1"
                  then Ingestion.ChunkedUnrecorded 3 else Ingestion.Chunked 2)
    true
    (Some (Ingestion.mkTeam "active" true)).

(** Channels with no eligible video and no description: no video at
    all; one video of valid duration without captions; one captioned video
    of 40 minutes. *)
Definition envOf (videos : list Ingestion.Video) : Ingestion.Env :=
  Ingestion.mkEnv (Storage.Ok videos) (Storage.Ok (None, None)) None
    (fun _ => Ingestion.NoTranscript) true
    (Some (Ingestion.mkTeam "active" true)).

Definition noVideos : list Ingestion.Video := [].

Definition noCaptions : list Ingestion.Video :=
  [Ingestion.mkVideo "video1" 10 false].

Definition wrongDuration : list Ingestion.Video :=
  [Ingestion.mkVideo "video2" 40 true].

(** Two requests for the same channel and team. *)
Definition twoRequests : Ingestion.State :=
  (Ingestion.emptyWorld,
   [Ingestion.newRequest "channel1" "team1" "job_1" "creator1" healthyEnv;
    Ingestion.newRequest "channel1" "team1" "job_2" "creator1" healthyEnv]).

(** Both requests pass the duplicate check before either background task
    has written its processing record. *)
Definition raceSchedule : list Ingestion.Event :=
  [Ingestion.Step 0; Ingestion.Step 1;
   Ingestion.Step 0; Ingestion.Step 1;
   Ingestion.Step 0; Ingestion.Step 1;
   Ingestion.Step 0; Ingestion.Step 1].

(** The second request arrives once the first has written its processing
    record. *)
Definition sequentialSchedule : list Ingestion.Event :=
  [Ingestion.Step 0; Ingestion.Step 0; Ingestion.Step 0; Ingestion.Step 0;
   Ingestion.Step 1].

(** One request whose run is still in its body when the timer goes off. *)
Definition oneRequest : Ingestion.State :=
  (Ingestion.emptyWorld,
   [Ingestion.newRequest "channel1" "team1" "job_1" "creator1" healthyEnv]).

Definition untilTimeout : list Ingestion.Event :=
  [Ingestion.Step 0; Ingestion.Step 0; Ingestion.Step 0; Ingestion.Step 0;
   Ingestion.Timer 0].

End Examples.


(* ===================================================================== *)
(** ** What the requests of a schedule maintain *)
(* ===================================================================== *)

Module Exclusion.
Import Ingestion.

(** The collection holds the processing record of the request's job. *)
Definition holdsProcessingRecord (w : World) (r : Request) : Prop :=
  exists record,
    In record (processingRecords w)
    /\ p_channelId record = r_channelId r
    /\ p_teamId record = r_teamId r
    /\ p_jobId record = r_jobId r
    /\ p_status record = processing.

(** A background task that is about to write its record holds the job it
    has marked processing; one that has reached the body has written the
    record, when the creator is owned by a team. *)
Definition requestInvariant (w : World) (r : Request) : Prop :=
  match r_pc r with
  | AtWriteRecord => exists job, r_job r = Some job /\ status job = processing
  | AtBody =>
      (exists job, r_job r = Some job)
      /\ (creatorOwned (r_env r) = true -> holdsProcessingRecord w r)
  | _ => True
  end.

Definition stateInvariant (st : State) : Prop :=
  Forall (requestInvariant (fst st)) (snd st)
  /\ NoDup (map r_jobId (snd st)).

(** Requests that have just arrived. *)
Definition allArriving (requests : list Request) : Prop :=
  Forall (fun r => r_pc r = AtCheck) requests.

End Exclusion.

(* ===================================================================== *)
(** ** Further sample schedules *)
(* ===================================================================== *)

Module Scenarios.
Import Ingestion.

(** The first request runs to its end, then the second one arrives and
    takes its first two steps. *)
Definition retrySchedule : list Event :=
  [Step 0; Step 0; Step 0; Step 0; Step 0; Step 1; Step 1].

(** The identity of a processing record for [updateOne]. *)
Definition recordKey (r : ChannelAIProcessing) : string * string * string :=
  (p_channelId r, p_teamId r, p_jobId r).

End Scenarios.

(* ===================================================================== *)
(** ** health.ts: the writes of a run that can fail

    [Ingestion.stepRequest] is the run in which the stores take every
    write.  Here the stores answer: the upsert of the record at the start
    and the one at the end sit in [try] blocks whose [catch] only logs;
    [jobStore.set] rethrows what Redis throws, so that a failure of the
    write of the completed job sends the run to the [catch] of
    [processVideosAsync], and a failure of the write in that [catch] ends
    the task before the last upsert; and the creator is read again before
    the last upsert, which is skipped when the creator has no team or no
    channel then. *)
(* ===================================================================== *)

Module FinalWrites.
Import stdpp.base stdpp.gmap stdpp.strings.
Import Ingestion.
Import Storage (Result, Ok, Throw).

Record StoreAnswers := mkAnswers {
  startRecordStored : bool;            (* the upsert of status processing *)
  completedJobError : option string;   (* thrown by the set of the completed job *)
  failedJobError : option string;      (* thrown by the set of the failed job *)
  ownedAtEnd : bool;                   (* the creator read before the last upsert *)
  finalRecordStored : bool             (* the last upsert *)
}.

(** The stores take every write, and the creator is as at the start. *)
Definition allStored (owned : bool) : StoreAnswers :=
  mkAnswers true None None owned true.

(** The last upsert, of the completed or of the failed record. *)
Definition writeFinalRecord (answers : StoreAnswers) (w : World) (r : Request)
    (job : ProcessingJob) : World :=
  if ownedAtEnd answers && finalRecordStored answers
  then writeRecord w (recordOf r job) else w.

(** The [catch] of [processVideosAsync] with the job as it is in memory:
    the job is written and then the failed record; when the write of the
    job throws, the task rejects, which the wrapper logs unless the timer
    has settled the race before. *)
Definition catchBlock (answers : StoreAnswers) (w : World) (r : Request)
    (job : ProcessingJob) : World :=
  match failedJobError answers with
  | None => writeFinalRecord answers (setJob w job) r job
  | Some msg =>
      if r_timerFired r then w
      else mkWorld (jobStore w) (processingRecords w) (channelKeys w)
                   (errorLog w ++ [("Processing failed or timed out: " ++ msg)%string])
  end.

(** The rest of [processVideosAsync] from the fetch of the videos on:
    the world it leaves and the job as it is in memory at the end. *)
Definition endOfRun (answers : StoreAnswers) (w : World) (r : Request)
    (job : ProcessingJob) : World * ProcessingJob :=
  let finished := finishedJob (r_env r) job in
  match status finished with
  | completed =>
      match completedJobError answers with
      | None => (writeFinalRecord answers (setJob w finished) r finished, finished)
      | Some msg =>
          let job' := mkJob (jobId finished) (creatorId finished) failed
                            (progressCurrent finished) (progressTotal finished)
                            (result finished) (Some msg) in
          (catchBlock answers w r job', job')
      end
  | _ => (catchBlock answers w r finished, finished)
  end.

(** The next store access of a request whose stores answer [answers]. *)
Definition stepRequestWith (answers : StoreAnswers) (w : World) (r : Request)
  : World * Request :=
  match r_pc r with
  | AtWriteRecord =>
      match r_job r with
      | Some job =>
          ((if creatorOwned (r_env r) && startRecordStored answers
            then writeRecord w (recordOf r job) else w),
           at_ AtBody r)
      | None => (w, at_ Done r)
      end
  | AtBody =>
      match r_job r with
      | Some job =>
          let '(w', job') := endOfRun answers w r job in
          (w', at_ Done (holding job' r))
      | None => (w, at_ Done r)
      end
  | _ => stepRequest w r
  end.

(** Schedules, with the answers the stores give to each request. *)
Definition applyEventWith (answersOf : nat -> StoreAnswers) (st : State)
    (e : Event) : State :=
  match e with
  | Step i => applyAt (stepRequestWith (answersOf i)) i st
  | Timer i => applyAt fireTimer i st
  end.

Definition execWith (answersOf : nat -> StoreAnswers) (schedule : list Event)
    (st : State) : State :=
  List.fold_left (applyEventWith answersOf) schedule st.

(** Whether the run gets to its last upsert: the job was written, as
    completed or, by the [catch], as failed. *)
Definition reachesFinalRecord (answers : StoreAnswers) (env : Env)
    (job : ProcessingJob) : bool :=
  match status (finishedJob env job), completedJobError answers,
        failedJobError answers with
  | completed, None, _ => true
  | _, _, None => true
  | _, _, Some _ => false
  end.

(** The last upsert of the first request fails. *)
Definition lastUpsertFails (i : nat) : StoreAnswers :=
  match i with
  | 0 => mkAnswers true None None true false
  | _ => allStored true
  end.

End FinalWrites.

(* ===================================================================== *)
(** ** Transcript and duration helpers (youtube.ts) *)
(* ===================================================================== *)

Module YouTube.
Import JS.

(** [s.replace(re, rep)] with the global flag, for a replacement without
    [$] patterns. *)
Fixpoint replaceAllFrom (re : matcher) (rep : string) (skip : nat) (s : string)
  : string :=
  match s with
  | EmptyString => EmptyString
  | String c s' =>
      match skip with
      | S k => replaceAllFrom re rep k s'
      | 0 =>
          match re s with
          | Some (S k) => (rep ++ replaceAllFrom re rep k s')%string
          | _ => String c (replaceAllFrom re rep 0 s')
          end
      end
  end.

Definition replaceAll (re : matcher) (rep : string) (s : string) : string :=
  replaceAllFrom re rep 0 s.

(** A literal, non-empty pattern. *)
Definition reLiteral (lit : string) : matcher := fun s =>
  if startsWith s lit then Some (String.length lit) else None.

(** [\d{2}] at the head of [s]. *)
Definition twoDigits (s : string) : bool :=
  match s with
  | String a (String b _) => isDigit a && isDigit b
  | _ => false
  end.

(** [/\d+:\d{2}(?::\d{2})?/]: the first digit run is taken whole (a
    shorter one is followed by a digit, not by the colon); the optional
    group is taken when it matches. *)
Definition reClock : matcher := fun s =>
  match run isDigit s with
  | 0 => None
  | d1 =>
      match drop d1 s with
      | String ":" rest =>
          if twoDigits rest then
            match drop 2 rest with
            | String ":" rest' =>
                if twoDigits rest' then Some (d1 + 6) else Some (d1 + 3)
            | _ => Some (d1 + 3)
            end
          else None
      | _ => None
      end
  end.

(** The line terminators [.] does not match (on Latin-1: LF and CR). *)
Definition isLineTerminator (c : ascii) : bool :=
  let n := nat_of_ascii c in (n =? 10) || (n =? 13).

(** Number of characters before the first closing bracket of [s], when no
    line terminator comes before it. *)
Fixpoint untilBracket (s : string) : option nat :=
  match s with
  | EmptyString => None
  | String c s' =>
      if Ascii.eqb c "]" then Some 0
      else if isLineTerminator c then None
      else option_map S (untilBracket s')
  end.

(** [/\[.*?\]/]: the lazy star stops at the first closing bracket. *)
Definition reBracket : matcher := fun s =>
  match s with
  | String "[" rest => option_map (fun k => k + 2) (untilBracket rest)
  | _ => None
  end.

Definition cleanTranscript (text : string) : string :=
  trim
    (replaceAll reSpaces " "
       (removeAll (reLiteral "[adultswim]")
          (removeAll reBracket (removeAll reClock text)))).

(** [Number(s)] for a string of decimal digits, from the accumulator
    [acc] on. *)
Fixpoint digitsValue (acc : nat) (s : string) : nat :=
  match s with
  | EmptyString => acc
  | String c s' => digitsValue (10 * acc + (nat_of_ascii c - 48)) s'
  end.

(** [timestampDisplay.split(':').map(Number)] and the two layouts. *)
Definition secondsOf (timestampDisplay : string) : nat :=
  match map (digitsValue 0) (split (reLiteral ":") timestampDisplay) with
  | [h; m; s] => h * 3600 + m * 60 + s
  | [m; s] => m * 60 + s
  | _ => 0
  end.

(** The [exec] loop of [/([^0-9]+?)(\d+:\d{2}(?::\d{2})?)/g]: the pairs
    of [match[1]] and [match[2]], in order.  A match starts at a non-digit
    and its first group runs to the next digit, where the clock pattern
    has to match; [current] is the text since the end of the last match or
    of the last digit run at which the clock pattern failed, and [skip]
    counts the characters of the current match still to pass. *)
Fixpoint scanTimestamps (current : string) (skip : nat) (s : string)
  : list (string * string) :=
  match s with
  | EmptyString => []
  | String c s' =>
      match skip with
      | S k => scanTimestamps EmptyString k s'
      | 0 =>
          if isDigit c then
            match current with
            | EmptyString => scanTimestamps EmptyString 0 s'
            | _ =>
                match reClock s with
                | Some (S k) =>
                    (current, substring 0 (S k) s)
                      :: scanTimestamps EmptyString k s'
                | _ => scanTimestamps EmptyString 0 s'
                end
            end
          else scanTimestamps (current ++ String c EmptyString) 0 s'
      end
  end.

(** The segments pushed by the loop, before their ends are set:
    the trimmed text, the display and the seconds. *)
Definition pushedSegments (text : string) : list (string * string * nat) :=
  map (fun m => (trim (fst m), snd m, secondsOf (snd m)))
      (filter (fun m => 5 <? String.length (trim (fst m)))
              (scanTimestamps EmptyString 0 text)).

(** The two passes over [endSeconds]: each segment ends where the next
    one starts, the last one 10 seconds after its start. *)
Fixpoint closeSegments (pushed : list (string * string * nat))
  : list TimestampMatching.TimestampSegment :=
  match pushed with
  | [] => []
  | (t, d, sec) :: rest =>
      TimestampMatching.mkSegment t d (Z.of_nat sec)
        (match rest with
         | [] => Z.of_nat sec + 10
         | (_, _, next) :: _ => Z.of_nat next
         end)
        :: closeSegments rest
  end.

Definition extractTimestampSegments (text : string)
  : list TimestampMatching.TimestampSegment :=
  closeSegments (pushedSegments text).

(** The rest of [s] after the first occurrence of [PT]. *)
Fixpoint afterPT (s : string) : option string :=
  match s with
  | EmptyString => None
  | String c s' => if startsWith s "PT" then Some (drop 1 s') else afterPT s'
  end.

(** One optional group [(?:(\d+)U)?] of the duration pattern: the number
    captured, if the group takes part in the match, and the rest. *)
Definition durationField (unit : ascii) (s : string) : option nat * string :=
  match run isDigit s with
  | 0 => (None, s)
  | d =>
      match drop d s with
      | String c rest =>
          if Ascii.eqb c unit
          then (Some (digitsValue 0 (substring 0 d s)), rest)
          else (None, s)
      | EmptyString => (None, s)
      end
  end.

(** [parseInt(match[i] ?? '0')] *)
Definition fieldValue (f : option nat) : nat :=
  match f with Some n => n | None => 0 end.

(** [/PT(?:(\d+)H)?(?:(\d+)M)?(?:(\d+)S)?/] and the minutes, the seconds
    rounded up to a whole minute. *)
Definition parseDurationToMinutes (duration : string) : nat :=
  match afterPT duration with
  | None => 0
  | Some rest =>
      let (hours, rest1) := durationField "H" rest in
      let (minutes, rest2) := durationField "M" rest1 in
      let (seconds, _) := durationField "S" rest2 in
      fieldValue hours * 60 + fieldValue minutes
      + (if 0 <? fieldValue seconds then 1 else 0)
  end.

Definition MIN_DURATION_MINUTES : Z := 2.
Definition MAX_DURATION_MINUTES : Z := 25.

(** The selection at the end of [getChannelVideos]: the videos of 2 to 25
    minutes, those with captions first, [maxVideos] at most. *)
Definition selectVideos (allVideos : list Ingestion.Video) (maxVideos : nat)
  : list Ingestion.Video :=
  let filteredByDuration :=
    filter (fun video =>
              (MIN_DURATION_MINUTES <=? Ingestion.durationMinutes video)%Z
              && (Ingestion.durationMinutes video <=? MAX_DURATION_MINUTES)%Z)
           allVideos in
  let videosWithCaptions := filter Ingestion.hasCaptions filteredByDuration in
  let videosWithoutCaptions :=
    filter (fun v => negb (Ingestion.hasCaptions v)) filteredByDuration in
  firstn maxVideos
    (firstn maxVideos videosWithCaptions
     ++ firstn (maxVideos - List.length videosWithCaptions) videosWithoutCaptions).

(** An ISO 8601 duration with the given components, in the layout of the
    video list: [PT], then the hours, the minutes and the seconds that are
    present, each followed by its unit. *)
Definition durationComponent (n : option nat) (unit : ascii) : string :=
  match n with
  | Some n => (numberToString n ++ String unit EmptyString)%string
  | None => EmptyString
  end.

Definition isoDuration (h m s : option nat) : string :=
  ("PT" ++ (durationComponent h "H"
            ++ (durationComponent m "M" ++ durationComponent s "S")))%string.

(** White space in normal form: every white-space character is a space
    and is followed by a character that is not white space, if by any. *)
Definition startsClear (s : string) : bool :=
  match s with
  | String d _ => negb (isSpace d)
  | EmptyString => true
  end.

Fixpoint singleSpaced (s : string) : bool :=
  match s with
  | EmptyString => true
  | String c s' =>
      (if isSpace c then Ascii.eqb c " " && startsClear s' else true)
      && singleSpaced s'
  end.

End YouTube.

(* ===================================================================== *)
(** ** Timestamps for display (video-references.ts) *)
(* ===================================================================== *)

Module VideoReferences.
Import JS.

(** [String(n).padStart(2, '0')] *)
Definition padStart2 (n : nat) : string :=
  if String.length (numberToString n) <? 2
  then ("0" ++ numberToString n)%string
  else numberToString n.

(** [formatTimestamp], for a whole, non-negative number of seconds. *)
Definition formatTimestamp (seconds : nat) : string :=
  let hours := seconds / 3600 in
  let minutes := (seconds mod 3600) / 60 in
  let remainingSeconds := seconds mod 60 in
  if 0 <? hours
  then (numberToString hours ++ ":" ++ padStart2 minutes ++ ":"
        ++ padStart2 remainingSeconds)%string
  else (numberToString minutes ++ ":" ++ padStart2 remainingSeconds)%string.

(** A transcript in the layout [extractTimestampSegments] handles: each
    piece of text followed by the timestamp of its start. *)
Fixpoint renderTranscript (pieces : list (string * nat)) : string :=
  match pieces with
  | [] => EmptyString
  | (t, seconds) :: rest =>
      (t ++ formatTimestamp seconds ++ renderTranscript rest)%string
  end.

(** A text without digits. *)
Fixpoint digitFree (s : string) : bool :=
  match s with
  | EmptyString => true
  | String c s' => negb (isDigit c) && digitFree s'
  end.

End VideoReferences.

(* ===================================================================== *)
(** ** Text sanitization (validation.ts) and query normalization
       (query-preprocessing.ts) *)
(* ===================================================================== *)

Module Validation.
Import JS YouTube.

(** Every character of [s] satisfies [p]. *)
Fixpoint allChars (p : ascii -> bool) (s : string) : bool :=
  match s with
  | EmptyString => true
  | String c s' => p c && allChars p s'
  end.

(** A character class as a pattern of one character. *)
Definition reClass (p : ascii -> bool) : matcher := fun s =>
  match s with
  | String c _ => if p c then Some 1 else None
  | EmptyString => None
  end.

(** [[\u0000-\u001f\u007f-\u009f]] *)
Definition isControl (c : ascii) : bool :=
  let n := nat_of_ascii c in (n <=? 31) || ((127 <=? n) && (n <=? 159)).

(** The limit of [substring(0, 10000)]. *)
Definition maxSanitizedLength : nat := 100 * 100.

Definition sanitizeText (text : string) : string :=
  substring 0 maxSanitizedLength
    (replaceAll reSpaces " " (removeAll (reClass isControl) (trim text))).

End Validation.

Module QueryPreprocessing.
Import JS YouTube Validation.

(** [[.,!?;]] and [/[.,!?;]+/] *)
Definition isPunctuation (c : ascii) : bool :=
  let n := nat_of_ascii c in
  (n =? 46) || (n =? 44) || (n =? 33) || (n =? 63) || (n =? 59).

Definition rePunctuation : matcher := fun s =>
  match run isPunctuation s with 0 => None | n => Some n end.

Definition normalizeText (text : string) : string :=
  trim
    (replaceAll reSpaces " "
       (replaceAll rePunctuation " " (replaceAll reSpaces " " text))).

Definition FILLER_WORDS : list string :=
  ["um"; "uh"; "like"; "you know"; "basically"; "actually"; "literally";
   "i mean"; "sort of"; "kind of"; "well"; "so"; "right"; "okay"; "ok";
   "yeah"; "yes"; "no"; "just"; "really"; "very"; "quite"; "pretty";
   "totally"; "completely"; "absolutely"; "definitely"; "probably";
   "maybe"; "perhaps"; "anyway"; "anyways"; "obviously"; "clearly"].

Definition STOP_WORDS : list string :=
  ["a"; "an"; "and"; "are"; "as"; "at"; "be"; "by"; "for"; "from";
   "has"; "he"; "in"; "is"; "it"; "its"; "of"; "on"; "that"; "the";
   "to"; "was"; "will"; "with"; "this"; "these"; "they"; "them"; "their";
   "what"; "how"; "why"; "when"; "where"; "who"; "which"; "whose";
   "did"; "do"; "does"; "can"; "could"; "would"; "should"; "you"; "your";
   "have"; "had"; "been"; "being"; "were"].

(** [set.has(word)] *)
Definition has (set : list string) (word : string) : bool :=
  existsb (String.eqb word) set.

(** [\w]: the ASCII letters, the digits and the underscore. *)
Definition isWordChar (c : ascii) : bool :=
  let n := nat_of_ascii c in
  ((48 <=? n) && (n <=? 57)) || ((65 <=? n) && (n <=? 90)) || (n =? 95)
  || ((97 <=? n) && (n <=? 122)).

(** [word.replace(/[^\w]/g, '')] *)
Definition stripNonWord (word : string) : string :=
  removeAll (reClass (fun c => negb (isWordChar c))) word.

(** [text.toLowerCase().split(/\s+/).map(word => word.replace(/[^\w]/g, ''))] *)
Definition strippedWords (text : string) : list string :=
  map stripNonWord (split reSpaces (toLowerCase text)).

(** The words that count as keywords. *)
Definition keywordCandidates (text : string) : list string :=
  filter (fun word => (2 <? String.length word)
                      && negb (has STOP_WORDS word)
                      && negb (has FILLER_WORDS word))
         (strippedWords text).

(** [wordCount.set(word, (wordCount.get(word) ?? 0) + 1)] on a [Map], whose
    entries keep the order in which the keys were first set. *)
Fixpoint increment (word : string) (wordCount : list (string * nat))
  : list (string * nat) :=
  match wordCount with
  | [] => [(word, 1)]
  | (k, n) :: rest =>
      if String.eqb k word then (k, S n) :: rest
      else (k, n) :: increment word rest
  end.

Definition countWords (words : list string) : list (string * nat) :=
  fold_left (fun wordCount word => increment word wordCount) words [].

(** [entries.sort(([, a], [, b]) => b - a)]: the stable sort, by
    decreasing count. *)
Fixpoint insertByCount (x : string * nat) (l : list (string * nat))
  : list (string * nat) :=
  match l with
  | [] => [x]
  | y :: l' =>
      if snd y <=? snd x then x :: y :: l' else y :: insertByCount x l'
  end.

Fixpoint sortByCount (l : list (string * nat)) : list (string * nat) :=
  match l with
  | [] => []
  | x :: l' => insertByCount x (sortByCount l')
  end.

Definition extractKeywords (text : string) : list string :=
  match keywordCandidates text with
  | [] =>
      firstn 10 (filter (fun word => 0 <? String.length word)
                        (strippedWords text))
  | words => map fst (firstn 10 (sortByCount (countWords words)))
  end.

(** *** The steps of [preprocessQuery] *)




















(** The count the map holds for a word ([wordCount.get(word) ?? 0]). *)
Fixpoint countOf (word : string) (wordCount : list (string * nat)) : nat :=
  match wordCount with
  | [] => 0
  | (k, n) :: rest => if String.eqb k word then n else countOf word rest
  end.

(** How often a word occurs among the words. *)
Definition occurrences (words : list string) (word : string) : nat :=
  count_occ string_dec words word.

(** The order the comparator [b - a] sorts the entries into. *)
Definition byCount (a b : string * nat) : Prop := snd b <= snd a.

End QueryPreprocessing.

(* ===================================================================== *)
(** ** The entry point of the search (hybrid-search.ts, [hybridSearch]) *)
(* ===================================================================== *)

Module Search.
Import JS HybridSearch QueryPreprocessing.





End Search.

(* ===================================================================== *)
(** ** The sentences of a chunk *)
(* ===================================================================== *)

Module ChunkGroups.
Import JS.

(** The chunk a run of consecutive sentences is accumulated into: the
    trimmed sentences, joined by single spaces as the loop of [chunkText]
    joins them. *)
Definition glueStep (currentChunk sentence : string) : string :=
  match currentChunk with
  | EmptyString => trim sentence
  | _ => (currentChunk ++ " " ++ trim sentence)%string
  end.

Definition glue (group : list string) : string :=
  fold_left glueStep group EmptyString.

(** Each sentence of [group], added in turn to [currentChunk], passes the
    size test. *)
Fixpoint extensionsFit (maxTokens : nat) (currentChunk : string)
    (group : list string) : bool :=
  match group with
  | [] => true
  | sentence :: rest =>
      Chunker.fits maxTokens (glueStep currentChunk sentence)
      && extensionsFit maxTokens (glueStep currentChunk sentence) rest
  end.

(** A group that starts a new chunk: its first sentence becomes the chunk
    as it is, each of the others passes the size test. *)
Definition laterGroup (maxTokens : nat) (group : list string) : bool :=
  match group with
  | [] => false
  | sentence :: rest => extensionsFit maxTokens (trim sentence) rest
  end.

(** Where a new chunk starts, the sentence that starts it failed the
    size test against the chunk before it. *)
Fixpoint boundariesFail (maxTokens : nat) (previous : string)
    (groups : list (list string)) : bool :=
  match groups with
  | [] => true
  | [] :: _ => false
  | (sentence :: rest) :: more =>
      negb (Chunker.fits maxTokens (glueStep previous sentence))
      && boundariesFail maxTokens (glue (sentence :: rest)) more
  end.

End ChunkGroups.

(* ===================================================================== *)
(** ** The channel context (rag.ts, [storeChannelContext]) *)
(* ===================================================================== *)

Module ChannelContext.
Import stdpp.base stdpp.gmap stdpp.strings.
Import JS.
Import Storage (Result, Ok, Throw, Embedding).

Inductive ContentType :=
| channel_description
| custom_description
| wikipedia_summary
| wikipedia_topics.

Record WikipediaData := mkWikipediaData {
  summary : option string;
  relatedTopics : option (list string)
}.

(** [if (d && d.length > 50) contextChunks.push({ text: label + d, contentType })] *)
Definition describedChunk (label : string) (d : option string)
    (contentType : ContentType) : list (string * ContentType) :=
  match d with
  | Some s =>
      if 50 <? String.length s then [((label ++ s)%string, contentType)] else []
  | None => []
  end.

Definition topicsChunk (topics : option (list string))
  : list (string * ContentType) :=
  match topics with
  | Some (t :: ts) =>
      [(("Related topics: " ++ join ", " (t :: ts))%string, wikipedia_topics)]
  | _ => []
  end.

(** The four pushes, in source order. *)
Definition contextChunks (description customDescription : option string)
    (wikipediaData : option WikipediaData) : list (string * ContentType) :=
  (describedChunk "Channel Description: " description channel_description
   ++ describedChunk "About this channel: " customDescription custom_description
   ++ describedChunk "Background information: "
        (match wikipediaData with Some w => summary w | None => None end)
        wikipedia_summary
   ++ topicsChunk
        (match wikipediaData with Some w => relatedTopics w | None => None end))%list.

Record EmbeddedContext := mkEmbeddedContext {
  ec_text : string;
  ec_embedding : Embedding;
  ec_chunkIndex : nat;
  ec_contentType : ContentType
}.

(** The embedding loop: chunk [i] is pushed with [chunkIndex: i] when
    [createEmbedding] answers with a non-empty vector, and is passed over
    (the [catch] inside the loop) otherwise. *)
Fixpoint embedContext (createEmbedding : string -> Result Embedding) (i : nat)
    (chunks : list (string * ContentType)) : list EmbeddedContext :=
  match chunks with
  | [] => []
  | (t, contentType) :: rest =>
      match createEmbedding t with
      | Ok (x :: e) =>
          mkEmbeddedContext t (x :: e) i contentType
            :: embedContext createEmbedding (S i) rest
      | _ => embedContext createEmbedding (S i) rest
      end
  end.

(** [`${channelData.title} - Channel Context`] *)
Definition contextTitle (title : option string) : string :=
  ((match title with Some t => t | None => "undefined" end)
   ++ " - Channel Context")%string.

Definition pineconeChunkOf (title : option string) (chunk : EmbeddedContext)
  : Storage.EmbeddedChunk :=
  Storage.mkEmbeddedChunk (ec_text chunk) (ec_embedding chunk)
    (ec_chunkIndex chunk) (Some (contextTitle title)) None None.

(** A context document of the [transcript_chunks] collection. *)
Record ContextDocument := mkContextDocument {
  ctx_creatorId : string;
  ctx_videoId : string;
  ctx_chunkIndex : nat;
  ctx_text : string;
  ctx_contentType : ContentType;
  ctx_videoTitle : string;
  ctx_isChannelContext : bool;
  ctx_createdAt : string
}.

(** The collection holds the documents of the transcripts and those of
    the channel context. *)
Inductive StoredDocument :=
| TranscriptDocument (d : Storage.ChunkDocument)
| ChannelContextDocument (d : ContextDocument).

Record ContextStores := mkContextStores {
  pinecone : gmap string Storage.PineconeRecord;
  transcript_chunks : list StoredDocument
}.

Definition contextDocumentOf (creatorId now : string) (title : option string)
    (chunk : EmbeddedContext) : StoredDocument :=
  ChannelContextDocument
    (mkContextDocument creatorId "CHANNEL_CONTEXT" (ec_chunkIndex chunk)
       (ec_text chunk) (ec_contentType chunk) (contextTitle title) true now).

(** [storeChannelContext], on the path where the two stores accept the
    writes. *)
Definition storeChannelContext
    (createEmbedding : string -> Result Embedding) (now : string)
    (stores : ContextStores) (creatorId : string)
    (title description customDescription : option string)
    (wikipediaData : option WikipediaData) : Result ContextStores :=
  match contextChunks description customDescription wikipediaData with
  | [] => Ok stores
  | chunks =>
      match embedContext createEmbedding 0 chunks with
      | [] => Throw "Failed to create any channel context embeddings"
      | chunksWithEmbeddings =>
          Ok (mkContextStores
                (Storage.storeToPinecone (pinecone stores) creatorId
                   "CHANNEL_CONTEXT" now
                   (map (pineconeChunkOf title) chunksWithEmbeddings))
                (transcript_chunks stores
                 ++ map (contextDocumentOf creatorId now title)
                        chunksWithEmbeddings)%list)
      end
  end.

End ChannelContext.
(* ===================================================================== *)
(** * Properties *)
(* ===================================================================== *)

(** ** Substring containment *)

Module JSFacts.
Import JS.

Lemma startsWith_spec (s p : string) :
  startsWith s p = true <-> exists v, s = (p ++ v)%string.
Proof.
  revert s; induction p as [|a p IH]; intros s; simpl.
  - split; [intros _; exists s; reflexivity | intros _; destruct s; reflexivity].
  - destruct s as [|b s]; simpl.
    + split; [discriminate | intros [v Hv]; discriminate].
    + rewrite andb_true_iff, Ascii.eqb_eq, IH. split.
      * intros [-> [v ->]]. exists v. reflexivity.
      * intros [v Hv]. injection Hv as -> ->. split; [reflexivity | exists v; reflexivity].
Qed.

(** [includes] is containment as a contiguous substring. *)
Lemma includes_spec (s t : string) :
  includes s t = true <-> exists u v, s = (u ++ t ++ v)%string.
Proof.
  induction s as [|c s IH]; cbn [includes].
  - rewrite startsWith_spec. split.
    + intros [v Hv]. exists EmptyString, v. exact Hv.
    + intros [u [v Huv]]. destruct u; simpl in Huv.
      * exists v. exact Huv.
      * discriminate.
  - rewrite orb_true_iff, IH. split.
    + intros [H | [u [v ->]]].
      * apply (proj1 (startsWith_spec (String c s) t)) in H. destruct H as [v Hv].
        exists EmptyString, v. exact Hv.
      * exists (String c u), v. reflexivity.
    + intros [u [v Huv]]. destruct u as [|d u]; simpl in Huv.
      * left. apply startsWith_spec. exists v. exact Huv.
      * right. injection Huv as -> ->. exists u, v. reflexivity.
Qed.

Lemma includes_empty (s : string) : includes s EmptyString = true.
Proof. apply includes_spec. exists EmptyString, s. reflexivity. Qed.

Lemma append_empty_r (s : string) : (s ++ EmptyString)%string = s.
Proof.
  induction s as [|c s IH]; [reflexivity|].
  change (String c (s ++ EmptyString)%string = String c s). rewrite IH. reflexivity.
Qed.

Lemma includes_refl (s : string) : includes s s = true.
Proof.
  apply includes_spec. exists EmptyString, EmptyString.
  simpl. rewrite append_empty_r. reflexivity.
Qed.

(** A loop over the slices is cut by nothing but the end of the array:
    with a positive step, more rounds than elements change nothing. *)
Lemma windows_enough_fuel {A : Type} (step size : nat) (l : list A)
    (fuel1 fuel2 : nat) :
  0 < step -> List.length l <= fuel1 -> List.length l <= fuel2 ->
  windows fuel1 step size l = windows fuel2 step size l.
Proof.
  intros Hstep. revert fuel2 l.
  induction fuel1 as [|f1 IH]; intros fuel2 l H1 H2.
  - destruct l; [|simpl in H1; lia]. destruct fuel2; reflexivity.
  - destruct l as [|x l]; [destruct fuel2; reflexivity|].
    destruct fuel2 as [|f2]; [simpl in H2; lia|].
    cbn [windows]. f_equal.
    assert (Hlen : List.length (skipn step (x :: l)) <= List.length l).
    { rewrite length_skipn. simpl. lia. }
    simpl in H1, H2. apply IH; lia.
Qed.

(** With the step equal to the size, the slices put together are the
    array. *)
Lemma concat_windows {A : Type} (n fuel : nat) (l : list A) :
  0 < n -> List.length l <= fuel -> List.concat (windows fuel n n l) = l.
Proof.
  intros Hn. revert l. induction fuel as [|f IH]; intros l Hlen.
  - destruct l; [reflexivity | simpl in Hlen; lia].
  - destruct l as [|x l]; [reflexivity|].
    cbn [windows List.concat]. rewrite IH.
    + apply firstn_skipn.
    + rewrite length_skipn. simpl in *. lia.
Qed.

End JSFacts.


(* ===================================================================== *)
(** ** Double-precision arithmetic: rounding *)
(* ===================================================================== *)

Module DoubleFacts.
Import Double.
Local Open Scope Q_scope.

(** *** Powers of two *)

Lemma pow2_pos (k : Z) : 0 < pow2 k.
Proof. apply Qpower_0_lt. reflexivity. Qed.

Lemma pow2_add (a b : Z) : pow2 (a + b) == pow2 a * pow2 b.
Proof. apply Qpower_plus. discriminate. Qed.

Lemma pow2_opp (k : Z) : pow2 (- k) == / pow2 k.
Proof. apply Qpower_opp. Qed.

Lemma pow2_le (a b : Z) : (a <= b)%Z -> pow2 a <= pow2 b.
Proof. intros H. apply Qpower_le_compat_l; [exact H | discriminate]. Qed.

Lemma pow2_lt_inv (a b : Z) : pow2 a < pow2 b -> (a < b)%Z.
Proof. intros H. apply (Qpower_lt_compat_l_inv 2); [exact H | reflexivity]. Qed.

Lemma pow2_Z (k : Z) : (0 <= k)%Z -> pow2 k == inject_Z (2 ^ k).
Proof. intros H. symmetry. apply (Zpower_Qpower 2 k H). Qed.

Lemma pow2_cancel (k : Z) (q : Q) : q / pow2 k * pow2 k == q.
Proof.
  pose proof (pow2_pos k) as H. field. intros E. rewrite E in H.
  discriminate.
Qed.

Lemma div_pow2_le (k : Z) (a b : Q) : a <= b -> a / pow2 k <= b / pow2 k.
Proof.
  intros H. unfold Qdiv. apply Qmult_le_compat_r; [exact H|].
  apply Qlt_le_weak, Qinv_lt_0_compat, pow2_pos.
Qed.

Lemma div_pow2 (k j : Z) : pow2 k / pow2 j == pow2 (k - j).
Proof.
  unfold Z.sub. rewrite pow2_add, pow2_opp. reflexivity.
Qed.

(** *** The exponent of a positive number *)

Lemma exponentOf_spec (q : Q) :
  0 < q -> pow2 (exponentOf q) <= q /\ q < pow2 (exponentOf q + 1).
Proof.
  intros Hq. unfold exponentOf. destruct (Qle_bool 1 q) eqn:H1.
  - apply Qle_bool_iff in H1.
    assert (Hn : (1 <= Qfloor q)%Z).
    { change 1%Z with (Qfloor 1). apply Qfloor_resp_le. exact H1. }
    destruct (Z.log2_spec (Qfloor q)) as [Hlo Hhi]; [lia|].
    pose proof (Z.log2_nonneg (Qfloor q)) as Hk.
    split.
    + rewrite pow2_Z by exact Hk.
      apply Qle_trans with (inject_Z (Qfloor q)); [|apply Qfloor_le].
      rewrite <- Zle_Qle. exact Hlo.
    + rewrite pow2_Z by lia.
      apply Qlt_le_trans with (inject_Z (Qfloor q + 1)); [apply Qlt_floor|].
      rewrite <- Zle_Qle. unfold Z.succ in Hhi. lia.
  - assert (Hlt : q < 1).
    { apply Qnot_le_lt. intros H. apply Qle_bool_iff in H. congruence. }
    assert (Hinv : / q * q == 1).
    { field. intros E. rewrite E in Hq. discriminate. }
    assert (Hx : 1 < / q).
    { destruct (Qlt_le_dec 1 (/ q)) as [H | H]; [exact H|].
      assert (H' : / q * q <= 1 * q).
      { apply Qmult_le_compat_r; [exact H | lra]. }
      lra. }
    set (n := Qceiling (/ q)).
    assert (Hn : (1 < n)%Z).
    { assert (H : 1 < inject_Z n).
      { apply Qlt_le_trans with (/ q); [exact Hx | apply Qle_ceiling]. }
      change 1 with (inject_Z 1) in H. rewrite <- Zlt_Qlt in H. exact H. }
    destruct (Z.log2_up_spec n Hn) as [Hlo Hhi].
    pose proof (Z.log2_up_pos n Hn) as Hk.
    set (k := Z.log2_up n) in *.
    split.
    + rewrite pow2_opp.
      assert (Hle : / q <= pow2 k).
      { rewrite pow2_Z by lia.
        apply Qle_trans with (inject_Z n); [apply Qle_ceiling|].
        rewrite <- Zle_Qle. exact Hhi. }
      pose proof (pow2_pos k) as Hp.
      assert (Hpi : / pow2 k * pow2 k == 1).
      { field. intros E. rewrite E in Hp. discriminate. }
      assert (0 < / pow2 k) by (apply Qinv_lt_0_compat; exact Hp).
      nra.
    + replace (- k + 1)%Z with (- (k - 1))%Z by lia. rewrite pow2_opp.
      assert (Hgt : pow2 (k - 1) < / q).
      { rewrite pow2_Z by lia.
        apply Qle_lt_trans with (inject_Z (n - 1)); [|apply Qceiling_lt].
        rewrite <- Zle_Qle. replace (k - 1)%Z with (Z.pred k) by lia. lia. }
      pose proof (pow2_pos (k - 1)) as Hp.
      assert (Hpi : / pow2 (k - 1) * pow2 (k - 1) == 1).
      { field. intros E. rewrite E in Hp. discriminate. }
      assert (0 < / pow2 (k - 1)) by (apply Qinv_lt_0_compat; exact Hp).
      nra.
Qed.

Lemma exponentOf_mono (a b : Q) :
  0 < a -> a <= b -> (exponentOf a <= exponentOf b)%Z.
Proof.
  intros Ha Hab.
  destruct (exponentOf_spec a Ha) as [Hlo _].
  destruct (exponentOf_spec b) as [_ Hhi]; [lra|].
  assert (H : pow2 (exponentOf a) < pow2 (exponentOf b + 1)) by lra.
  apply pow2_lt_inv in H. lia.
Qed.

Lemma ulpExponent_mono (a b : Q) :
  0 < a -> a <= b -> (ulpExponent a <= ulpExponent b)%Z.
Proof.
  intros Ha Hab. unfold ulpExponent.
  pose proof (exponentOf_mono a b Ha Hab). lia.
Qed.

Lemma ulpExponent_least (q : Q) : (-1074 <= ulpExponent q)%Z.
Proof. unfold ulpExponent. lia. Qed.

(** A positive number, scaled by its unit in the last place, is below
    [2^53]; a number of the normal range is at least [2^52]. *)
Lemma scaled_below (q : Q) :
  0 < q -> q / pow2 (ulpExponent q) < pow2 53.
Proof.
  intros Hq. destruct (exponentOf_spec q Hq) as [_ Hhi].
  pose proof (pow2_pos (ulpExponent q)) as Hp.
  apply Qlt_shift_div_r; [exact Hp|].
  rewrite <- pow2_add.
  apply Qlt_le_trans with (pow2 (exponentOf q + 1)); [exact Hhi|].
  apply pow2_le. unfold ulpExponent. lia.
Qed.

Lemma scaled_above (q : Q) :
  0 < q -> (-1022 <= exponentOf q)%Z ->
  pow2 52 <= q / pow2 (ulpExponent q).
Proof.
  intros Hq He. destruct (exponentOf_spec q Hq) as [Hlo _].
  pose proof (pow2_pos (ulpExponent q)) as Hp.
  apply Qle_shift_div_l; [exact Hp|].
  rewrite <- pow2_add.
  apply Qle_trans with (pow2 (exponentOf q)); [|exact Hlo].
  apply pow2_le. unfold ulpExponent. lia.
Qed.

(** *** The nearest integer *)

Lemma nearestEven_cases (s : Q) :
  let f := Qfloor s in
  (nearestEven s = f /\ s - inject_Z f <= 1 # 2
   /\ (s - inject_Z f == 1 # 2 -> Z.even f = true))
  \/ (nearestEven s = (f + 1)%Z /\ 1 # 2 <= s - inject_Z f
      /\ (s - inject_Z f == 1 # 2 -> Z.even f = false)).
Proof.
  cbv zeta. unfold nearestEven.
  destruct (Qcompare_spec (s - inject_Z (Qfloor s)) (1 # 2)) as [E | L | G].
  - destruct (Z.even (Qfloor s)) eqn:Hev.
    + left. split; [reflexivity|]. split; [lra | intros _; reflexivity].
    + right. split; [reflexivity|]. split; [lra | intros _; reflexivity].
  - left. split; [reflexivity|]. split; [lra | intros E; lra].
  - right. split; [reflexivity|]. split; [lra | intros E; lra].
Qed.

Lemma floor_bounds (s : Q) :
  inject_Z (Qfloor s) <= s /\ s < inject_Z (Qfloor s) + 1.
Proof.
  split; [apply Qfloor_le|].
  pose proof (Qlt_floor s) as H. rewrite inject_Z_plus in H. exact H.
Qed.

(** The nearest integer is within a half of the number. *)
Lemma nearestEven_near (s : Q) :
  s - (1 # 2) <= inject_Z (nearestEven s) <= s + (1 # 2).
Proof.
  destruct (floor_bounds s) as [Hlo Hhi].
  destruct (nearestEven_cases s) as [(-> & H & _) | (-> & H & _)].
  - lra.
  - rewrite inject_Z_plus. change (inject_Z 1) with 1. lra.
Qed.

Lemma nearestEven_mono (s t : Q) :
  s <= t -> (nearestEven s <= nearestEven t)%Z.
Proof.
  intros Hst.
  pose proof (Qfloor_resp_le s t Hst) as Hf.
  destruct (floor_bounds s) as [Hs1 Hs2].
  destruct (floor_bounds t) as [Ht1 Ht2].
  destruct (nearestEven_cases s) as [(-> & Hs & Hse) | (-> & Hs & Hse)];
    destruct (nearestEven_cases t) as [(-> & Ht & Hte) | (-> & Ht & Hte)];
    try lia.
  destruct (Z.eq_dec (Qfloor s) (Qfloor t)) as [E | Hne]; [|lia].
  exfalso. rewrite E in *.
  assert (E1 : s - inject_Z (Qfloor t) == 1 # 2) by lra.
  assert (E2 : t - inject_Z (Qfloor t) == 1 # 2) by lra.
  rewrite (Hse E1) in Hte. specialize (Hte E2). discriminate.
Qed.

Lemma nearestEven_Z (z : Z) : nearestEven (inject_Z z) = z.
Proof.
  unfold nearestEven. rewrite Qfloor_Z.
  destruct (Qcompare_spec (inject_Z z - inject_Z z) (1 # 2)) as [E | L | G].
  - exfalso. lra.
  - reflexivity.
  - exfalso. lra.
Qed.

Lemma nearestEven_comp (s t : Q) : s == t -> nearestEven s = nearestEven t.
Proof.
  intros E. apply Z.le_antisymm; apply nearestEven_mono; lra.
Qed.

Lemma nearestEven_ge (z : Z) (s : Q) :
  inject_Z z <= s -> (z <= nearestEven s)%Z.
Proof.
  intros H. rewrite <- (nearestEven_Z z). apply nearestEven_mono. exact H.
Qed.

Lemma nearestEven_le (z : Z) (s : Q) :
  s <= inject_Z z -> (nearestEven s <= z)%Z.
Proof.
  intros H. rewrite <- (nearestEven_Z z). apply nearestEven_mono. exact H.
Qed.

(** *** Rounding a positive number *)

Lemma roundPositive_nonneg (q : Q) : 0 < q -> 0 <= roundPositive q.
Proof.
  intros Hq. unfold roundPositive. cbv zeta.
  pose proof (pow2_pos (ulpExponent q)) as Hp.
  apply Qmult_le_0_compat; [|lra].
  change 0 with (inject_Z 0). rewrite <- Zle_Qle. apply nearestEven_ge.
  change (inject_Z 0) with 0.
  apply Qle_shift_div_l; [exact Hp | lra].
Qed.

Lemma roundPositive_below (q : Q) :
  0 < q -> roundPositive q <= pow2 (ulpExponent q + 53).
Proof.
  intros Hq. unfold roundPositive. cbv zeta.
  pose proof (pow2_pos (ulpExponent q)) as Hp.
  rewrite Z.add_comm, pow2_add.
  apply Qmult_le_compat_r; [|lra].
  rewrite (pow2_Z 53) by lia. rewrite <- Zle_Qle. apply nearestEven_le.
  rewrite <- (pow2_Z 53) by lia. apply Qlt_le_weak, scaled_below. exact Hq.
Qed.

Lemma roundPositive_above (q : Q) :
  0 < q -> (-1022 <= exponentOf q)%Z ->
  pow2 (ulpExponent q + 52) <= roundPositive q.
Proof.
  intros Hq He. unfold roundPositive. cbv zeta.
  pose proof (pow2_pos (ulpExponent q)) as Hp.
  rewrite Z.add_comm, pow2_add.
  apply Qmult_le_compat_r; [|lra].
  rewrite (pow2_Z 52) by lia. rewrite <- Zle_Qle. apply nearestEven_ge.
  rewrite <- (pow2_Z 52) by lia. apply scaled_above; assumption.
Qed.

Lemma roundPositive_mono (a b : Q) :
  0 < a -> a <= b -> roundPositive a <= roundPositive b.
Proof.
  intros Ha Hab.
  assert (Hb : 0 < b) by lra.
  pose proof (ulpExponent_mono a b Ha Hab) as Hu.
  destruct (Z.eq_dec (ulpExponent a) (ulpExponent b)) as [E | Hne].
  - unfold roundPositive. cbv zeta. rewrite E.
    pose proof (pow2_pos (ulpExponent b)) as Hp.
    apply Qmult_le_compat_r; [|lra].
    rewrite <- Zle_Qle. apply nearestEven_mono. apply div_pow2_le. exact Hab.
  - apply Qle_trans with (pow2 (ulpExponent a + 53));
      [apply roundPositive_below; exact Ha|].
    apply Qle_trans with (pow2 (ulpExponent b + 52)).
    + apply pow2_le. lia.
    + apply roundPositive_above; [exact Hb|].
      pose proof (ulpExponent_least a). unfold ulpExponent in *. lia.
Qed.

(** *** Rounding *)

Lemma round_comp (a b : Q) : a == b -> round a = round b.
Proof. intros E. unfold round. rewrite (Qred_complete a b E). reflexivity. Qed.

Lemma Qnum_sign (q : Q) :
  match Qnum q with
  | Z0 => q == 0
  | Zpos _ => 0 < q
  | Zneg _ => q < 0
  end.
Proof.
  destruct q as [[|p|p] d]; cbn [Qnum].
  - reflexivity.
  - reflexivity.
  - reflexivity.
Qed.

(** The three cases of [round]. *)
Lemma round_cases (q : Q) :
  (q == 0 /\ round q = 0)
  \/ (0 < q /\ round q == roundPositive (Qred q))
  \/ (q < 0 /\ round q == - roundPositive (- Qred q)).
Proof.
  unfold round. cbv zeta.
  pose proof (Qnum_sign (Qred q)) as H. pose proof (Qred_correct q) as E.
  destruct (Qnum (Qred q)).
  - left. split; [lra | reflexivity].
  - right. left. split; [lra | apply Qred_correct].
  - right. right. split; [lra | apply Qred_correct].
Qed.

Lemma round_nonneg (q : Q) : 0 <= q -> 0 <= round q.
Proof.
  intros Hq. pose proof (Qred_correct q) as E.
  destruct (round_cases q) as [[_ ->] | [[H ->] | [H _]]].
  - lra.
  - apply roundPositive_nonneg. lra.
  - lra.
Qed.

Lemma round_nonpos (q : Q) : q <= 0 -> round q <= 0.
Proof.
  intros Hq. pose proof (Qred_correct q) as E.
  destruct (round_cases q) as [[_ ->] | [[H _] | [H ->]]].
  - lra.
  - lra.
  - assert (0 <= roundPositive (- Qred q)); [|lra].
    apply roundPositive_nonneg. lra.
Qed.

(** Rounding is monotone. *)
Theorem round_mono (a b : Q) : a <= b -> round a <= round b.
Proof.
  intros Hab.
  pose proof (Qred_correct a) as Ea. pose proof (Qred_correct b) as Eb.
  destruct (round_cases a) as [[Ha Ra] | [[Ha Ra] | [Ha Ra]]].
  - rewrite Ra. apply round_nonneg. lra.
  - destruct (round_cases b) as [[Hb _] | [[Hb Rb] | [Hb _]]]; [lra | | lra].
    rewrite Ra, Rb. apply roundPositive_mono; lra.
  - destruct (round_cases b) as [[Hb Rb] | [[Hb Rb] | [Hb Rb]]].
    + rewrite Rb. apply round_nonpos. lra.
    + apply Qle_trans with 0; [apply round_nonpos | apply round_nonneg]; lra.
    + rewrite Ra, Rb.
      assert (roundPositive (- Qred b) <= roundPositive (- Qred a)); [|lra].
      apply roundPositive_mono; lra.
Qed.

Lemma round_opp (q : Q) : round (- q) == - round q.
Proof.
  pose proof (Qred_correct q) as E.
  destruct (round_cases q) as [[H R] | [[H R] | [H R]]].
  - rewrite R. rewrite (round_comp (- q) 0) by lra. reflexivity.
  - destruct (round_cases (- q)) as [[H' _] | [[H' _] | [H' R']]]; [lra | lra |].
    rewrite R, R', Qred_opp.
    assert (E' : - - Qred q = Qred q).
    { destruct (Qred q) as [n d]. unfold Qopp. cbn. rewrite Z.opp_involutive.
      reflexivity. }
    rewrite E'. reflexivity.
  - destruct (round_cases (- q)) as [[H' _] | [[H' R'] | [H' _]]]; [lra | | lra].
    rewrite R, R', Qred_opp. lra.
Qed.

(** An integer below [2^53] is a double. *)
Lemma roundPositive_Z (z : Z) (q : Q) :
  (0 < z < 2 ^ 53)%Z -> q == inject_Z z -> roundPositive q == inject_Z z.
Proof.
  intros Hz E. unfold roundPositive. cbv zeta.
  assert (Hq : 0 < q).
  { rewrite E. change 0 with (inject_Z 0). rewrite <- Zlt_Qlt. lia. }
  set (u := ulpExponent q).
  assert (Hu : (u <= 0)%Z).
  { destruct (exponentOf_spec q Hq) as [Hlo _].
    assert (Hp : pow2 (exponentOf q) < pow2 53).
    { apply Qle_lt_trans with q; [exact Hlo|]. rewrite E.
      rewrite (pow2_Z 53) by lia. rewrite <- Zlt_Qlt. lia. }
    apply pow2_lt_inv in Hp. unfold u, ulpExponent. lia. }
  assert (Hs : q / pow2 u == inject_Z (z * 2 ^ (- u))).
  { rewrite inject_Z_mult, <- (pow2_Z (- u)) by lia. rewrite pow2_opp, E.
    reflexivity. }
  rewrite (nearestEven_comp _ _ Hs), nearestEven_Z.
  rewrite inject_Z_mult, <- (pow2_Z (- u)) by lia. rewrite pow2_opp.
  pose proof (pow2_pos u) as Hp. field. intros E0. rewrite E0 in Hp.
  discriminate.
Qed.

Theorem round_Z (z : Z) :
  (Z.abs z < 2 ^ 53)%Z -> round (inject_Z z) == inject_Z z.
Proof.
  intros Hz. pose proof (Qred_correct (inject_Z z)) as E.
  destruct (round_cases (inject_Z z)) as [[H R] | [[H R] | [H R]]].
  - rewrite R. lra.
  - rewrite R. apply roundPositive_Z; [|exact E].
    change 0 with (inject_Z 0) in H. rewrite <- Zlt_Qlt in H. lia.
  - rewrite R.
    assert (H' : roundPositive (- Qred (inject_Z z)) == inject_Z (- z)).
    { apply roundPositive_Z.
      - change 0 with (inject_Z 0) in H. rewrite <- Zlt_Qlt in H. lia.
      - rewrite inject_Z_opp, E. reflexivity. }
    rewrite H', inject_Z_opp. lra.
Qed.

(** *** The numbers a double can hold *)

Lemma exponentOf_unique (q : Q) (k : Z) :
  pow2 k <= q -> q < pow2 (k + 1) -> exponentOf q = k.
Proof.
  intros Hlo Hhi.
  assert (Hq : 0 < q) by (pose proof (pow2_pos k); lra).
  destruct (exponentOf_spec q Hq) as [Hlo' Hhi'].
  assert (H1 : pow2 k < pow2 (exponentOf q + 1)) by lra.
  assert (H2 : pow2 (exponentOf q) < pow2 (k + 1)) by lra.
  apply pow2_lt_inv in H1, H2. lia.
Qed.

(** [m * 2^j] with [m] below [2^53] and [j] from -1074 on rounds to
    itself. *)
Lemma roundPositive_fixed (m j : Z) (q : Q) :
  (0 < m < 2 ^ 53)%Z -> (-1074 <= j)%Z -> q == inject_Z m * pow2 j ->
  roundPositive q == q.
Proof.
  intros Hm Hj E.
  pose proof (pow2_pos j) as Hpj.
  assert (Hm0 : 0 < inject_Z m).
  { change 0 with (inject_Z 0). rewrite <- Zlt_Qlt. lia. }
  assert (Hq : 0 < q).
  { rewrite E. apply Qmult_lt_0_compat; assumption. }
  unfold roundPositive. cbv zeta. set (u := ulpExponent q).
  assert (Hu : (u <= j)%Z).
  { destruct (exponentOf_spec q Hq) as [Hlo _].
    assert (Hp : pow2 (exponentOf q) < pow2 (j + 53)).
    { apply Qle_lt_trans with q; [exact Hlo|]. rewrite E.
      rewrite Z.add_comm, pow2_add. apply Qmult_lt_compat_r; [exact Hpj|].
      rewrite (pow2_Z 53) by lia. rewrite <- Zlt_Qlt. lia. }
    apply pow2_lt_inv in Hp. unfold u, ulpExponent. lia. }
  pose proof (pow2_pos u) as Hpu.
  assert (Hs : q / pow2 u == inject_Z (m * 2 ^ (j - u))).
  { rewrite inject_Z_mult, <- (pow2_Z (j - u)) by lia.
    rewrite <- div_pow2, E. field. intros E0. rewrite E0 in Hpu.
    discriminate. }
  rewrite (nearestEven_comp _ _ Hs), nearestEven_Z, <- Hs.
  apply pow2_cancel.
Qed.

Theorem round_fixed (m j : Z) (q : Q) :
  (Z.abs m < 2 ^ 53)%Z -> (-1074 <= j)%Z -> q == inject_Z m * pow2 j ->
  round q == q.
Proof.
  intros Hm Hj E. pose proof (Qred_correct q) as Er.
  pose proof (pow2_pos j) as Hpj.
  destruct (round_cases q) as [[H R] | [[H R] | [H R]]].
  - rewrite R. lra.
  - rewrite R. transitivity (Qred q); [|exact Er].
    apply (roundPositive_fixed m j); [| exact Hj | lra].
    split; [|lia].
    destruct (Z.lt_ge_cases 0 m) as [Hlt | Hge]; [exact Hlt|]. exfalso.
    assert (inject_Z m <= 0).
    { change 0 with (inject_Z 0). rewrite <- Zle_Qle. exact Hge. }
    nra.
  - rewrite R.
    assert (H' : roundPositive (- Qred q) == - Qred q).
    { apply (roundPositive_fixed (- m) j); [| exact Hj |].
      - split; [|lia].
        destruct (Z.lt_ge_cases m 0) as [Hlt | Hge]; [lia|]. exfalso.
        assert (0 <= inject_Z m).
        { change 0 with (inject_Z 0). rewrite <- Zle_Qle. exact Hge. }
        nra.
      - rewrite inject_Z_opp, Er, E. ring. }
    rewrite H'. lra.
Qed.

(** What rounding returns has that form. *)
Lemma roundPositive_form (q : Q) :
  0 < q ->
  exists m j, (0 <= m < 2 ^ 53)%Z /\ (-1074 <= j)%Z
              /\ roundPositive q == inject_Z m * pow2 j.
Proof.
  intros Hq. set (u := ulpExponent q). set (n := nearestEven (q / pow2 u)).
  assert (Hn : (0 <= n <= 2 ^ 53)%Z).
  { split.
    - apply nearestEven_ge. change (inject_Z 0) with 0.
      apply Qle_shift_div_l; [apply pow2_pos | lra].
    - apply nearestEven_le. rewrite <- (pow2_Z 53) by lia.
      apply Qlt_le_weak, scaled_below. exact Hq. }
  destruct (Z.eq_dec n (2 ^ 53)) as [E | Hne].
  - exists (2 ^ 52)%Z, (u + 1)%Z. split; [lia|].
    split; [pose proof (ulpExponent_least q); unfold u; lia|].
    unfold roundPositive. cbv zeta. fold u. fold n. rewrite E.
    rewrite pow2_add. change (pow2 1) with 2.
    change (2 ^ 53)%Z with (2 ^ 52 * 2)%Z. rewrite inject_Z_mult.
    change (inject_Z 2) with 2. ring.
  - exists n, u. split; [lia|].
    split; [apply ulpExponent_least | reflexivity].
Qed.

Theorem round_form (q : Q) :
  exists m j, (Z.abs m < 2 ^ 53)%Z /\ (-1074 <= j)%Z
              /\ round q == inject_Z m * pow2 j.
Proof.
  pose proof (Qred_correct q) as Er.
  destruct (round_cases q) as [[H R] | [[H R] | [H R]]].
  - exists 0%Z, 0%Z. split; [lia|]. split; [lia|]. rewrite R. reflexivity.
  - destruct (roundPositive_form (Qred q)) as (m & j & Hm & Hj & E); [lra|].
    exists m, j. split; [lia|]. split; [exact Hj|]. rewrite R. exact E.
  - destruct (roundPositive_form (- Qred q)) as (m & j & Hm & Hj & E); [lra|].
    exists (- m)%Z, j. split; [lia|]. split; [exact Hj|].
    rewrite R, E, inject_Z_opp. ring.
Qed.

(** Rounding a double changes nothing. *)
Theorem round_idempotent (q : Q) : round (round q) == round q.
Proof.
  destruct (round_form q) as (m & j & Hm & Hj & E).
  exact (round_fixed m j (round q) Hm Hj E).
Qed.

Lemma round_isDouble (q : Q) : isDouble (round q).
Proof. apply round_idempotent. Qed.

Lemma isDouble_Z (z : Z) : (Z.abs z < 2 ^ 53)%Z -> isDouble (inject_Z z).
Proof. apply round_Z. Qed.

Lemma isDouble_form (q : Q) :
  isDouble q ->
  exists m j, (Z.abs m < 2 ^ 53)%Z /\ (-1074 <= j)%Z
              /\ q == inject_Z m * pow2 j.
Proof.
  intros H. destruct (round_form q) as (m & j & Hm & Hj & E).
  exists m, j. split; [exact Hm|]. split; [exact Hj|].
  rewrite <- E. symmetry. exact H.
Qed.

(** A double below a bound stays below it after rounding, and the same
    above. *)
Lemma round_le_double (q d : Q) : isDouble d -> q <= d -> round q <= d.
Proof.
  intros Hd H. unfold isDouble in Hd. rewrite <- Hd. apply round_mono, H.
Qed.

Lemma round_ge_double (q d : Q) : isDouble d -> d <= q -> d <= round q.
Proof.
  intros Hd H. unfold isDouble in Hd. rewrite <- Hd. apply round_mono, H.
Qed.

(** Every double is a multiple of [2^-1074]. *)
Lemma isDouble_grid (q : Q) :
  isDouble q -> exists g : Z, q == inject_Z g * pow2 (-1074).
Proof.
  intros H. destruct (isDouble_form q H) as (m & j & _ & Hj & E).
  exists (m * 2 ^ (j + 1074))%Z.
  rewrite inject_Z_mult, <- (pow2_Z (j + 1074)) by lia.
  rewrite E, <- Qmult_assoc, <- pow2_add.
  replace (j + 1074 + -1074)%Z with j by lia. reflexivity.
Qed.

(** The difference of two doubles rounds to a number with its sign: a
    subtraction yields zero only for equal operands. *)
Theorem sub_sign (a b : Q) :
  isDouble a -> isDouble b ->
  (a < b -> 0 < sub b a) /\ (b < a -> sub b a < 0)
  /\ (a == b -> sub b a == 0).
Proof.
  intros Ha Hb.
  destruct (isDouble_grid a Ha) as [ga Ea].
  destruct (isDouble_grid b Hb) as [gb Eb].
  pose proof (pow2_pos (-1074)) as Hp.
  assert (Hleast : isDouble (pow2 (-1074))).
  { apply (round_fixed 1 (-1074)); [reflexivity | lia | ring]. }
  assert (Hdiff : b - a == inject_Z (gb - ga) * pow2 (-1074)).
  { unfold Z.sub. rewrite inject_Z_plus, inject_Z_opp, Ea, Eb. ring. }
  unfold sub. split; [|split].
  - intros Hlt.
    apply Qlt_le_trans with (pow2 (-1074)); [exact Hp|].
    apply round_ge_double; [exact Hleast|].
    assert (Hg : (1 <= gb - ga)%Z).
    { destruct (Z.lt_ge_cases 0 (gb - ga)) as [H | H]; [lia|]. exfalso.
      assert (inject_Z (gb - ga) <= 0).
      { change 0 with (inject_Z 0). rewrite <- Zle_Qle. exact H. }
      nra. }
    rewrite Hdiff. rewrite Zle_Qle in Hg. change (inject_Z 1) with 1 in Hg.
    nra.
  - intros Hlt.
    apply Qle_lt_trans with (- pow2 (-1074)); [|lra].
    assert (Hneg : isDouble (- pow2 (-1074))).
    { unfold isDouble in Hleast |- *. rewrite round_opp, Hleast.
      reflexivity. }
    apply round_le_double; [exact Hneg|].
    assert (Hg : (gb - ga <= -1)%Z).
    { destruct (Z.lt_ge_cases (gb - ga) 0) as [H | H]; [lia|]. exfalso.
      assert (0 <= inject_Z (gb - ga)).
      { change 0 with (inject_Z 0). rewrite <- Zle_Qle. exact H. }
      nra. }
    rewrite Hdiff. rewrite Zle_Qle in Hg.
    change (inject_Z (-1)) with (- (1)) in Hg. nra.
  - intros E. rewrite (round_comp (b - a) 0) by lra. reflexivity.
Qed.

(** *** The rounding error *)

(** Below [2^k], in the normal range, rounding moves a number by at most
    [2^(k-54)]. *)
Theorem round_error (q : Q) (k : Z) :
  0 < q -> q < pow2 k -> (-1021 <= k)%Z ->
  q - pow2 (k - 54) <= round q <= q + pow2 (k - 54).
Proof.
  intros Hq Hk Hnormal. pose proof (Qred_correct q) as Er.
  destruct (round_cases q) as [[H _] | [[_ R] | [H _]]]; [lra | | lra].
  rewrite R. unfold roundPositive. cbv zeta.
  set (r := Qred q) in *. set (u := ulpExponent r).
  assert (Hr : 0 < r) by lra.
  assert (Hu : (u <= k - 53)%Z).
  { destruct (exponentOf_spec r Hr) as [Hlo _].
    assert (Hp : pow2 (exponentOf r) < pow2 k) by lra.
    apply pow2_lt_inv in Hp. unfold u, ulpExponent. lia. }
  pose proof (nearestEven_near (r / pow2 u)) as [Hlo Hhi].
  pose proof (pow2_pos u) as Hpu.
  pose proof (pow2_cancel u r) as Hc.
  assert (Hhalf : (1 # 2) * pow2 u <= pow2 (k - 54)).
  { apply Qle_trans with (pow2 (u - 1)); [|apply pow2_le; lia].
    unfold Z.sub. rewrite pow2_add. change (pow2 (- (1))) with (1 # 2). lra. }
  split.
  - assert (H1 : (r / pow2 u - (1 # 2)) * pow2 u
                 <= inject_Z (nearestEven (r / pow2 u)) * pow2 u).
    { apply Qmult_le_compat_r; lra. }
    lra.
  - assert (H1 : inject_Z (nearestEven (r / pow2 u)) * pow2 u
                 <= (r / pow2 u + (1 # 2)) * pow2 u).
    { apply Qmult_le_compat_r; lra. }
    lra.
Qed.

(** In the normal range rounding moves a number by at most the fraction
    [2^-53] of it. *)
Theorem round_relative (q : Q) :
  pow2 (-1022) <= q ->
  q - q * pow2 (-53) <= round q <= q + q * pow2 (-53).
Proof.
  intros Hq.
  assert (Hpos : 0 < q) by (pose proof (pow2_pos (-1022)); lra).
  destruct (exponentOf_spec q Hpos) as [Hlo Hhi].
  assert (He : (-1022 <= exponentOf q)%Z).
  { assert (H : pow2 (-1022) < pow2 (exponentOf q + 1)) by lra.
    apply pow2_lt_inv in H. lia. }
  destruct (round_error q (exponentOf q + 1) Hpos Hhi) as [H1 H2]; [lia|].
  assert (Hb : pow2 (exponentOf q + 1 - 54) <= q * pow2 (-53)).
  { replace (exponentOf q + 1 - 54)%Z with (exponentOf q + -53)%Z by lia.
    rewrite pow2_add. apply Qmult_le_compat_r; [exact Hlo|].
    apply Qlt_le_weak, pow2_pos. }
  lra.
Qed.

(** [2^-54] is half a unit in the last place below 1; at the tie just
    above 1 the even neighbour is 1. *)
Lemma round_tie_at_1 : round (1 + pow2 (-54) + pow2 (-54)) = 1.
Proof. vm_compute. reflexivity. Qed.

End DoubleFacts.

(* ===================================================================== *)
(** ** Words of a text: lower-casing, trimming and splitting *)
(* ===================================================================== *)

Module WordFacts.
Import JS.

Lemma lowerChar_digit (c : ascii) : isDigit (lowerChar c) = isDigit c.
Proof. destruct c as [[] [] [] [] [] [] [] []]; reflexivity. Qed.

Lemma lowerChar_space (c : ascii) : isSpace (lowerChar c) = isSpace c.
Proof. destruct c as [[] [] [] [] [] [] [] []]; reflexivity. Qed.

Lemma lowerChar_colon (c : ascii) :
  Ascii.eqb (lowerChar c) ":" = Ascii.eqb c ":".
Proof. destruct c as [[] [] [] [] [] [] [] []]; reflexivity. Qed.

Lemma toLowerCase_run (p : ascii -> bool) (s : string) :
  (forall c, p (lowerChar c) = p c) ->
  run p (toLowerCase s) = run p s.
Proof.
  intros Hp. induction s as [|c s IH]; [reflexivity|].
  cbn [toLowerCase run]. rewrite Hp, IH. reflexivity.
Qed.

Lemma toLowerCase_drop (k : nat) (s : string) :
  drop k (toLowerCase s) = toLowerCase (drop k s).
Proof.
  revert s; induction k as [|k IH]; intros [|c s]; try reflexivity.
  cbn [toLowerCase drop]. apply IH.
Qed.

(** Lower-casing leaves the digits and the colons where they are: the
    timestamp pattern matches the same prefixes before and after. *)
Lemma reTimestamp_lower (s : string) :
  reTimestamp (toLowerCase s) = reTimestamp s.
Proof.
  unfold reTimestamp.
  rewrite (toLowerCase_run isDigit s lowerChar_digit).
  destruct (run isDigit s) as [|d1]; [reflexivity|].
  rewrite toLowerCase_drop.
  destruct (drop (S d1) s) as [|c rest]; [reflexivity|].
  cbn [toLowerCase].
  destruct c as [[] [] [] [] [] [] [] []]; try reflexivity.
  change (lowerChar ":") with ":"%char. cbv iota.
  rewrite (toLowerCase_run isDigit rest lowerChar_digit). reflexivity.
Qed.

Lemma removeAllFrom_lower (k : nat) (s : string) :
  removeAllFrom reTimestamp k (toLowerCase s)
  = toLowerCase (removeAllFrom reTimestamp k s).
Proof.
  revert k; induction s as [|c s IH]; intros k; [reflexivity|].
  cbn [toLowerCase removeAllFrom].
  destruct k as [|k]; [|apply IH].
  change (String (lowerChar c) (toLowerCase s)) with (toLowerCase (String c s)).
  rewrite reTimestamp_lower.
  destruct (reTimestamp (String c s)) as [[|n]|].
  - cbn [toLowerCase]. rewrite IH. reflexivity.
  - apply IH.
  - cbn [toLowerCase]. rewrite IH. reflexivity.
Qed.

Lemma trimStart_lower (s : string) :
  trimStart (toLowerCase s) = toLowerCase (trimStart s).
Proof.
  induction s as [|c s IH]; [reflexivity|].
  cbn [toLowerCase trimStart]. rewrite lowerChar_space.
  destruct (isSpace c); [exact IH | reflexivity].
Qed.

Lemma trimEnd_lower (s : string) :
  trimEnd (toLowerCase s) = toLowerCase (trimEnd s).
Proof.
  induction s as [|c s IH]; [reflexivity|].
  cbn [toLowerCase trimEnd]. rewrite IH, lowerChar_space.
  destruct (trimEnd s); cbn [toLowerCase]; [|reflexivity].
  destruct (isSpace c); reflexivity.
Qed.

Lemma trim_lower (s : string) : trim (toLowerCase s) = toLowerCase (trim s).
Proof. unfold trim. rewrite trimStart_lower, trimEnd_lower. reflexivity. Qed.

(** *** Splitting on white space *)

Lemma splitFrom_some (re : matcher) (k : nat) (s : string) :
  splitFrom re k s <> [].
Proof.
  revert k; induction s as [|c s IH]; intros k; cbn [splitFrom]; [discriminate|].
  destruct k as [|k]; [|apply IH].
  destruct (re (String c s)) as [[|n]|]; try discriminate;
    destruct (splitFrom re 0 s); discriminate.
Qed.

Lemma splitFrom_run (k : nat) (s : string) :
  k <= run isSpace s ->
  splitFrom reSpaces k s = splitFrom reSpaces 0 (drop k s).
Proof.
  revert s; induction k as [|k IH]; intros s Hk.
  - destruct s; reflexivity.
  - destruct s as [|c s]; [reflexivity|].
    cbn [run] in Hk. destruct (isSpace c); [|lia].
    cbn [splitFrom drop]. apply IH. lia.
Qed.

Lemma drop_run_trimStart (s : string) : drop (run isSpace s) s = trimStart s.
Proof.
  induction s as [|c s IH]; [reflexivity|].
  cbn [run trimStart]. destruct (isSpace c); [exact IH | reflexivity].
Qed.

Lemma split_space (c : ascii) (s : string) :
  isSpace c = true ->
  split reSpaces (String c s) = EmptyString :: split reSpaces (trimStart s).
Proof.
  intros Hc. unfold split. cbn [splitFrom]. unfold reSpaces at 1.
  cbn [run]. rewrite Hc.
  rewrite splitFrom_run by lia. rewrite drop_run_trimStart. reflexivity.
Qed.

Lemma split_other (c : ascii) (s : string) :
  isSpace c = false ->
  split reSpaces (String c s)
  = match split reSpaces s with
    | p :: ps => String c p :: ps
    | [] => [String c EmptyString]
    end.
Proof.
  intros Hc. unfold split. cbn [splitFrom]. unfold reSpaces at 1.
  cbn [run]. rewrite Hc. reflexivity.
Qed.

Lemma trimEnd_empty_start (s : string) :
  trimEnd s = EmptyString -> trimStart s = EmptyString.
Proof.
  induction s as [|c s IH]; [reflexivity|].
  cbn [trimEnd trimStart]. destruct (trimEnd s) eqn:E; [|discriminate].
  destruct (isSpace c); [intros _; apply IH; reflexivity | discriminate].
Qed.

Lemma trimStart_trimEnd (s : string) :
  trimStart (trimEnd s) = trimEnd (trimStart s).
Proof.
  induction s as [|c s IH]; [reflexivity|].
  cbn [trimEnd trimStart]. destruct (isSpace c) eqn:Hc.
  - destruct (trimEnd s) eqn:E.
    + rewrite <- IH. reflexivity.
    + cbn [trimStart]. rewrite Hc. exact IH.
  - cbn [trimEnd]. destruct (trimEnd s); cbn [trimStart]; rewrite Hc; reflexivity.
Qed.

Lemma trimStart_shorter (s : string) :
  String.length (trimStart s) <= String.length s.
Proof.
  induction s as [|c s IH]; [reflexivity|].
  cbn [trimStart]. destruct (isSpace c); cbn [String.length]; lia.
Qed.

(** Trimming the end takes away at most an empty last piece. *)
Lemma split_trimEnd (s : string) :
  split reSpaces s = split reSpaces (trimEnd s)
  \/ split reSpaces s = split reSpaces (trimEnd s) ++ [EmptyString].
Proof.
  remember (String.length s) as n eqn:Hn.
  assert (Hle : String.length s <= n) by lia. clear Hn.
  revert s Hle; induction n as [|n IH]; intros s Hle.
  - destruct s; [left; reflexivity | cbn in Hle; lia].
  - destruct s as [|c s]; [left; reflexivity|].
    cbn [String.length] in Hle.
    destruct (isSpace c) eqn:Hc.
    + rewrite (split_space c s Hc). cbn [trimEnd].
      destruct (trimEnd s) as [|d r] eqn:E.
      * rewrite Hc. rewrite (trimEnd_empty_start s E). right. reflexivity.
      * rewrite (split_space c (String d r) Hc).
        rewrite <- E, trimStart_trimEnd.
        pose proof (trimStart_shorter s) as Hs.
        destruct (IH (trimStart s)) as [H | H]; [lia | | ]; rewrite H;
          [left | right]; reflexivity.
    + rewrite (split_other c s Hc).
      assert (Et : trimEnd (String c s) = String c (trimEnd s)).
      { cbn [trimEnd]. destruct (trimEnd s); [rewrite Hc|]; reflexivity. }
      rewrite Et, (split_other c (trimEnd s) Hc).
      destruct (IH s) as [H | H]; [lia | | ]; rewrite H; [left; reflexivity|].
      right. pose proof (splitFrom_some reSpaces 0 (trimEnd s)) as Hne.
      unfold split. destruct (splitFrom reSpaces 0 (trimEnd s)); [congruence|].
      reflexivity.
Qed.

Lemma split_trimStart (s : string) :
  split reSpaces s = split reSpaces (trimStart s)
  \/ split reSpaces s = EmptyString :: split reSpaces (trimStart s).
Proof.
  destruct s as [|c s]; [left; reflexivity|].
  cbn [trimStart]. destruct (isSpace c) eqn:Hc.
  - right. apply split_space, Hc.
  - left. reflexivity.
Qed.

(** The words of a text are those of the trimmed text, for every
    filter that drops the empty piece. *)
Lemma words_trim (keep : string -> bool) (s : string) :
  keep EmptyString = false ->
  filter keep (split reSpaces (trim s)) = filter keep (split reSpaces s).
Proof.
  intros Hk. unfold trim.
  transitivity (filter keep (split reSpaces (trimStart s))).
  - destruct (split_trimEnd (trimStart s)) as [H | H]; rewrite H;
      [reflexivity|].
    rewrite filter_app. cbn [filter]. rewrite Hk, app_nil_r. reflexivity.
  - destruct (split_trimStart s) as [H | H]; rewrite H; [reflexivity|].
    cbn [filter]. rewrite Hk. reflexivity.
Qed.

End WordFacts.
(* ===================================================================== *)
(** ** Timestamp alignment: what [matchChunkToTimestamp] returns *)
(* ===================================================================== *)

Module AlignFacts.
Import JS JSFacts WordFacts TimestampMatching DoubleFacts.

Lemma find_first {A : Type} (f : A -> bool) (l1 l2 : list A) (x : A) :
  (forall y, In y l1 -> f y = false) -> f x = true ->
  find f (l1 ++ x :: l2) = Some x.
Proof.
  induction l1 as [|y l1 IH]; intros Hbefore Hx; simpl.
  - rewrite Hx. reflexivity.
  - rewrite (Hbefore y (or_introl eq_refl)).
    apply IH; [|exact Hx]. intros z Hz. apply Hbefore. right. exact Hz.
Qed.

Lemma find_split {A : Type} (f : A -> bool) (l : list A) (x : A) :
  find f l = Some x ->
  exists before after,
    l = before ++ x :: after
    /\ (forall y, In y before -> f y = false) /\ f x = true.
Proof.
  induction l as [|y l IH]; [discriminate|]. cbn [find].
  destruct (f y) eqn:Hy.
  - intros E. injection E as <-. exists [], l.
    split; [reflexivity|]. split; [intros z []|exact Hy].
  - intros E. destruct (IH E) as (before & after & -> & Hb & Hx).
    exists (y :: before), after. split; [reflexivity|].
    split; [|exact Hx]. intros z [<- | Hz]; [exact Hy | apply Hb; exact Hz].
Qed.

Lemma find_map_snd (chunkFp : string) (segments : list TimestampSegment) :
  findMatchingSegment chunkFp (preprocessTimestampSegments segments)
  = find (fun seg => segmentMatches chunkFp (segmentFingerprint (text seg)))
         segments.
Proof.
  unfold findMatchingSegment, preprocessTimestampSegments.
  induction segments as [|seg rest IH]; simpl; [reflexivity|].
  destruct (segmentMatches chunkFp (segmentFingerprint (text seg))); simpl.
  - reflexivity.
  - exact IH.
Qed.

Lemma totalDurationOf_last (segments : list TimestampSegment) (d : TimestampSegment) :
  segments <> [] -> totalDurationOf segments = endSeconds (last segments d).
Proof.
  unfold totalDurationOf.
  induction segments as [|seg rest IH]; intros Hne; [congruence|].
  destruct rest as [|seg' rest'].
  - reflexivity.
  - change (match last (map Some (seg' :: rest')) None with
            | Some s => endSeconds s | None => 0%Z end
            = endSeconds (last (seg' :: rest') d)).
    apply IH. discriminate.
Qed.

Lemma segmentMatches_spec (chunkFp segmentFp : string) :
  segmentMatches chunkFp segmentFp = true <->
  (exists u v, chunkFp = (u ++ substring 0 50 segmentFp ++ v)%string)
  \/ (exists u v, segmentFp = (u ++ substring 0 50 chunkFp ++ v)%string).
Proof.
  unfold segmentMatches. rewrite orb_true_iff, !includes_spec. reflexivity.
Qed.

(** The fingerprint of a segment is the one the specification describes:
    removing the timestamps before or after lower-casing gives the same
    text, and the trim changes no word. *)
Lemma segmentFingerprint_claimed (segText : string) :
  segmentFingerprint segText = Claimed.fingerprint segText.
Proof.
  unfold segmentFingerprint, fingerprintWords, Claimed.fingerprint.
  rewrite <- trim_lower.
  rewrite (words_trim longWord) by reflexivity.
  unfold removeAll. rewrite removeAllFrom_lower. reflexivity.
Qed.

(** So is the fingerprint of a chunk in which the timestamp pattern matches
    nowhere. *)
Lemma chunkFingerprint_claimed (chunkText : string) :
  removeAll reTimestamp chunkText = chunkText ->
  chunkFingerprint chunkText = Claimed.fingerprint chunkText.
Proof.
  intros H. unfold chunkFingerprint, fingerprintWords, Claimed.fingerprint.
  unfold removeAll in *. rewrite removeAllFrom_lower, H. reflexivity.
Qed.

(** C4 (as amended).  The fingerprint of a segment is built as the
    specification says (the timestamps [digits:digits] removed, and a trim
    that changes no word, before the shared steps: lower-case, split on
    white space, keep the words longer than 2, keep the first 20, join
    with spaces); the fingerprint of a chunk takes the shared steps only,
    so it is the specified one for a chunk without timestamps and keeps
    the timestamps of the others.  A
    chunk matches a segment iff the first 50 characters of either
    fingerprint occur in the other; the first matching segment in list
    order gives [startTime], [endTime] and [matched = true]; with no match
    the result is the proportional fallback,
    [floor(chunkIndex / totalChunks * totalDuration)] and
    [floor((chunkIndex / totalChunks + 1 / totalChunks) * totalDuration)],
    every quotient, sum and product rounded to double precision,
    [totalDuration] being the last segment's end; with no segments it is
    [{0, 0, false}]. *)
Theorem C4_matchChunkToTimestamp_characterised
    (chunkText : string) (segments : list TimestampSegment) (i n : Z) :
  chunkFingerprint chunkText
  = join " " (firstn 20 (filter longWord (split reSpaces (toLowerCase chunkText))))
  /\ (removeAll reTimestamp chunkText = chunkText ->
      chunkFingerprint chunkText = Claimed.fingerprint chunkText)
  /\ (forall seg,
        segmentFingerprint (text seg)
        = join " " (firstn 20 (filter longWord
            (split reSpaces
               (toLowerCase (trim (removeAll reTimestamp (text seg)))))))
        /\ segmentFingerprint (text seg) = Claimed.fingerprint (text seg))
  /\ (forall segmentFp,
        segmentMatches (chunkFingerprint chunkText) segmentFp = true <->
        (exists u v, chunkFingerprint chunkText
                     = (u ++ substring 0 50 segmentFp ++ v)%string)
        \/ (exists u v, segmentFp
                     = (u ++ substring 0 50 (chunkFingerprint chunkText) ++ v)%string))
  /\ (forall before seg after,
        segments = before ++ seg :: after ->
        (forall s, In s before ->
           segmentMatches (chunkFingerprint chunkText)
                          (segmentFingerprint (text s)) = false) ->
        segmentMatches (chunkFingerprint chunkText)
                       (segmentFingerprint (text seg)) = true ->
        matchChunkToTimestamp chunkText segments i n
        = mkMatch (timestampSeconds seg) (endSeconds seg) true
                  (Some (timestampDisplay seg)))
  /\ (forall d,
        segments <> [] ->
        (forall s, In s segments ->
           segmentMatches (chunkFingerprint chunkText)
                          (segmentFingerprint (text s)) = false) ->
        (0 < n)%Z ->
        let position := Double.div (inject_Z i) (inject_Z n) in
        let totalDuration := inject_Z (endSeconds (last segments d)) in
        matchChunkToTimestamp chunkText segments i n
        = mkMatch
            (Double.floor (Double.mul position totalDuration))
            (Double.floor
               (Double.mul
                  (Double.add position (Double.div 1%Q (inject_Z n)))
                  totalDuration))
            false None)
  /\ matchChunkToTimestamp chunkText [] i n = mkMatch 0 0 false None.
Proof.
  split; [reflexivity|].
  split; [apply chunkFingerprint_claimed|].
  split; [intros seg; split; [reflexivity | apply segmentFingerprint_claimed]|].
  split; [intros segmentFp; apply segmentMatches_spec|].
  split; [|split; [|reflexivity]].
  - intros before seg after Hsplit Hbefore Hseg.
    unfold matchChunkToTimestamp.
    destruct segments as [|s0 rest] eqn:Hsegs.
    + destruct before; discriminate.
    + rewrite find_map_snd, Hsplit.
      rewrite (find_first _ before after seg Hbefore Hseg). reflexivity.
  - intros d Hne Hnone Hn.
    unfold matchChunkToTimestamp.
    destruct segments as [|s0 rest] eqn:Hsegs; [congruence|].
    rewrite find_map_snd.
    destruct (find _ (s0 :: rest)) as [seg|] eqn:Hfind.
    + apply find_some in Hfind. destruct Hfind as [Hin Hm].
      rewrite (Hnone seg Hin) in Hm. discriminate.
    + rewrite (totalDurationOf_last (s0 :: rest) d Hne). reflexivity.
Qed.

(** C4, witness: a chunk that matches the second segment, and a chunk
    that matches none and falls back. *)
Lemma C4_matchChunkToTimestamp_witness :
  matchChunkToTimestamp "hello big world"
    [mkSegment "opening words" "0:00" 0 7;
     mkSegment "Hello BIG world 0:07" "0:07" 7 17] 0 2
  = mkMatch 7 17 true (Some "0:07")
  /\ matchChunkToTimestamp "something else entirely"
       [mkSegment "opening words" "0:00" 0 7;
        mkSegment "Hello BIG world 0:07" "0:07" 7 17] 1 2
     = mkMatch 8 17 false None.
Proof.
  split.
  - refine (proj1 (proj2 (proj2 (proj2 (proj2
             (C4_matchChunkToTimestamp_characterised "hello big world"
                [mkSegment "opening words" "0:00" 0 7;
                 mkSegment "Hello BIG world 0:07" "0:07" 7 17] 0 2)))))
             [mkSegment "opening words" "0:00" 0 7]
             (mkSegment "Hello BIG world 0:07" "0:07" 7 17) [] eq_refl _ _).
    + intros s [<- | []]. vm_compute. reflexivity.
    + vm_compute. reflexivity.
  - refine (proj1 (proj2 (proj2 (proj2 (proj2 (proj2
             (C4_matchChunkToTimestamp_characterised "something else entirely"
                [mkSegment "opening words" "0:00" 0 7;
                 mkSegment "Hello BIG world 0:07" "0:07" 7 17] 1 2))))))
             (mkSegment "" "" 0 0) _ _ _).
    + discriminate.
    + intros s [<- | [<- | []]]; vm_compute; reflexivity.
    + reflexivity.
Defined.

(** C4, counterexample: a chunk and a segment with the same text.  Built
    the same way, the two fingerprints would be equal and the chunk would
    match; the segment's loses the [1:5], the chunk's keeps it, and the
    chunk falls back.  (The text passes [cleanTranscript] unchanged, whose
    own timestamp pattern asks for two digits after the colon.)  And the
    end of a fallback window: for the fifth of six chunks over 60 seconds
    the source adds the rounded 4/6 and 1/6 and gets 49, where the quotient
    5/6 gives 50. *)
Lemma C4_counterexample :
  chunkFingerprint "ratio 1:5 wins" = "ratio 1:5 wins"
  /\ segmentFingerprint "ratio 1:5 wins" = "ratio wins"
  /\ matchChunkToTimestamp "ratio 1:5 wins"
       [mkSegment "ratio 1:5 wins" "0:05" 5 15] 0 1
     = mkMatch 0 15 false None
  /\ Claimed.align "ratio 1:5 wins"
       [mkSegment "ratio 1:5 wins" "0:05" 5 15] 0 1
     = mkMatch 5 15 true (Some "0:05")
  /\ matchChunkToTimestamp "ratio 1:5 wins"
       [mkSegment "ratio 1:5 wins" "0:05" 5 15] 0 1
     <> Claimed.align "ratio 1:5 wins"
          [mkSegment "ratio 1:5 wins" "0:05" 5 15] 0 1
  /\ matchChunkToTimestamp "something else entirely"
       [mkSegment "opening words here" "0:00" 0 60] 4 6
     = mkMatch 40 49 false None
  /\ Claimed.align "something else entirely"
       [mkSegment "opening words here" "0:00" 0 60] 4 6
     = mkMatch 40 50 false None.
Proof.
  split; [vm_compute; reflexivity|].
  split; [vm_compute; reflexivity|].
  split; [vm_compute; reflexivity|].
  split; [vm_compute; reflexivity|].
  split; [vm_compute; discriminate|].
  split; vm_compute; reflexivity.
Qed.

(** The fallback in numbers: the eighth of ten chunks over 90 seconds
    starts at second 62, the product of the double of 0.7 and 90 being
    just below 63. *)
Lemma fallbackStart_rounded : fallbackStart 7 10 90 = 62%Z.
Proof. vm_compute. reflexivity. Qed.

(** *** Order of the start times *)

Lemma nth_error_alignFrom (segments : list TimestampSegment) (total : Z)
    (chunks : list string) (k i : nat) :
  nth_error (alignFrom segments total k chunks) i
  = option_map (fun c => matchChunkToTimestamp c segments (Z.of_nat (k + i)) total)
               (nth_error chunks i).
Proof.
  revert k i; induction chunks as [|c rest IH]; intros k i.
  - destruct i; reflexivity.
  - destruct i as [|i]; simpl.
    + rewrite Nat.add_0_r. reflexivity.
    + rewrite IH. replace (S k + i) with (k + S i) by lia. reflexivity.
Qed.

Lemma firstMatchIndex_find (chunkFp : string) (segments : list TimestampSegment) :
  match firstMatchIndex chunkFp segments with
  | Some j =>
      exists seg, nth_error segments j = Some seg
        /\ find (fun seg => segmentMatches chunkFp (segmentFingerprint (text seg)))
                segments = Some seg
  | None =>
      find (fun seg => segmentMatches chunkFp (segmentFingerprint (text seg)))
           segments = None
  end.
Proof.
  induction segments as [|seg rest IH]; simpl; [reflexivity|].
  destruct (segmentMatches chunkFp (segmentFingerprint (text seg))) eqn:Hm.
  - exists seg. split; reflexivity.
  - destruct (firstMatchIndex chunkFp rest) as [j|]; simpl.
    + exact IH.
    + exact IH.
Qed.

Lemma match_of_index (c : string) (segments : list TimestampSegment) (i n : Z) (j : nat) :
  firstMatchIndex (chunkFingerprint c) segments = Some j ->
  exists seg, nth_error segments j = Some seg
    /\ startTime (matchChunkToTimestamp c segments i n) = timestampSeconds seg.
Proof.
  intros Hj. pose proof (firstMatchIndex_find (chunkFingerprint c) segments) as H.
  rewrite Hj in H. destruct H as [seg [Hnth Hfind]].
  exists seg. split; [exact Hnth|].
  unfold matchChunkToTimestamp. destruct segments as [|s0 rest].
  - destruct j; discriminate.
  - rewrite find_map_snd, Hfind. reflexivity.
Qed.

(** A matched chunk has the start time of the first segment that passes
    its test. *)
Lemma matched_index (c : string) (segments : list TimestampSegment) (i n : Z) :
  matched (matchChunkToTimestamp c segments i n) = true ->
  exists j seg before after,
    segments = before ++ seg :: after
    /\ List.length before = j
    /\ (segmentMatches (chunkFingerprint c) (segmentFingerprint (text seg)) = true
        /\ nth_error segments j = Some seg)
    /\ (forall s, In s before ->
          segmentMatches (chunkFingerprint c)
                         (segmentFingerprint (text s)) = false)
    /\ startTime (matchChunkToTimestamp c segments i n) = timestampSeconds seg.
Proof.
  unfold matchChunkToTimestamp. destruct segments as [|s0 rest]; [discriminate|].
  rewrite find_map_snd.
  destruct (find _ (s0 :: rest)) as [seg|] eqn:Hfind; [|discriminate].
  intros _.
  destruct (find_split _ _ _ Hfind) as (before & after & Hsplit & Hbefore & Hseg).
  exists (List.length before), seg, before, after.
  split; [exact Hsplit|]. split; [reflexivity|].
  split.
  { split; [exact Hseg|]. rewrite Hsplit.
    rewrite nth_error_app2 by lia. rewrite Nat.sub_diag. reflexivity. }
  split; [exact Hbefore | reflexivity].
Qed.

Lemma unmatched_start (c : string) (segments : list TimestampSegment) (i n : Z) :
  matched (matchChunkToTimestamp c segments i n) = false ->
  startTime (matchChunkToTimestamp c segments i n)
  = match segments with
    | [] => 0%Z
    | _ :: _ => fallbackStart i n (totalDurationOf segments)
    end.
Proof.
  unfold matchChunkToTimestamp. destruct segments as [|s0 rest]; [reflexivity|].
  destruct (findMatchingSegment _ _); simpl; [discriminate | reflexivity].
Qed.

Lemma wellFormed_nth (segments : list TimestampSegment) (j k : nat)
    (sj sk : TimestampSegment) :
  wellFormed segments = true -> j <= k ->
  nth_error segments j = Some sj -> nth_error segments k = Some sk ->
  (timestampSeconds sj <= timestampSeconds sk)%Z.
Proof.
  revert j k; induction segments as [|seg rest IH]; intros j k Hwf Hjk Hj Hk.
  - destruct j; discriminate.
  - simpl in Hwf. apply andb_true_iff in Hwf. destruct Hwf as [Hall Hrest].
    destruct j as [|j], k as [|k]; simpl in Hj, Hk.
    + injection Hj as <-. injection Hk as <-. lia.
    + injection Hj as <-. apply nth_error_In in Hk.
      rewrite forallb_forall in Hall. apply Hall in Hk. lia.
    + lia.
    + apply (IH j k); [exact Hrest | lia | exact Hj | exact Hk].
Qed.

(** The position of a chunk does not decrease with its index, rounding
    included. *)
Lemma chunkPositionOf_mono (i j n : Z) :
  (0 < n)%Z -> (i <= j)%Z ->
  (chunkPositionOf i n <= chunkPositionOf j n)%Q.
Proof.
  intros Hn Hij. unfold chunkPositionOf, Double.div.
  apply round_mono. unfold Qdiv. apply Qmult_le_compat_r.
  - rewrite <- Zle_Qle. exact Hij.
  - apply Qlt_le_weak, Qinv_lt_0_compat.
    change 0%Q with (inject_Z 0). rewrite <- Zlt_Qlt. exact Hn.
Qed.

Lemma fallbackStart_mono (i j n D : Z) :
  (0 < n)%Z -> (0 <= D)%Z -> (i <= j)%Z ->
  (fallbackStart i n D <= fallbackStart j n D)%Z.
Proof.
  intros Hn HD Hij. unfold fallbackStart, Double.floor, Double.mul.
  apply Qfloor_resp_le, round_mono.
  apply Qmult_le_compat_r.
  - apply chunkPositionOf_mono; assumption.
  - change 0%Q with (inject_Z 0). rewrite <- Zle_Qle. exact HD.
Qed.

(** C5 (as amended).  For segments ordered by start time whose last end
    time is not negative: across two consecutive chunks the start time does
    not decrease when both chunks fall back to proportional positioning
    (the positions are doubles, and rounding keeps their order), and when
    both match and no segment ahead of the earlier chunk's matching segment
    passes the test of the later chunk. *)
Theorem C5_startTime_order_amended
    (chunks : list string) (segments : list TimestampSegment)
    (i : nat) (ca cb : string) (a b : TimestampMatch) :
  wellFormed segments = true ->
  (0 <= totalDurationOf segments)%Z ->
  nth_error chunks i = Some ca ->
  nth_error chunks (S i) = Some cb ->
  nth_error (alignChunks chunks segments) i = Some a ->
  nth_error (alignChunks chunks segments) (S i) = Some b ->
  (matched a = false -> matched b = false -> (startTime a <= startTime b)%Z)
  /\ (matched a = true -> matched b = true ->
      (forall before seg after,
         segments = before ++ seg :: after ->
         segmentMatches (chunkFingerprint ca)
                        (segmentFingerprint (text seg)) = true ->
         (forall s, In s before ->
            segmentMatches (chunkFingerprint ca)
                           (segmentFingerprint (text s)) = false) ->
         forall s, In s before ->
           segmentMatches (chunkFingerprint cb)
                          (segmentFingerprint (text s)) = false) ->
      (startTime a <= startTime b)%Z).
Proof.
  intros Hwf HD Hca Hcb Ha Hb.
  unfold alignChunks in Ha, Hb.
  rewrite nth_error_alignFrom in Ha, Hb. rewrite Hca in Ha. rewrite Hcb in Hb.
  simpl in Ha, Hb. injection Ha as <-. injection Hb as <-.
  assert (Hlen : (0 < Z.of_nat (List.length chunks))%Z).
  { assert (i < List.length chunks) by (apply nth_error_Some; congruence). lia. }
  split.
  - intros Hma Hmb.
    rewrite (unmatched_start _ _ _ _ Hma), (unmatched_start _ _ _ _ Hmb).
    destruct segments as [|s0 rest]; [lia|].
    apply fallbackStart_mono; [assumption | assumption | lia].
  - intros Hma Hmb Hahead.
    destruct (matched_index ca segments (Z.of_nat i)
                (Z.of_nat (List.length chunks)) Hma)
      as (ja & sa & befa & afta & Hsa & Hlena & [Hpa Hna] & Hbefa & Hta).
    destruct (matched_index cb segments (Z.of_nat (S i))
                (Z.of_nat (List.length chunks)) Hmb)
      as (jb & sb & befb & aftb & Hsb & Hlenb & [Hpb Hnb] & Hbefb & Htb).
    rewrite Hta, Htb.
    assert (Hle : ja <= jb).
    { destruct (Nat.le_gt_cases ja jb) as [H | H]; [exact H|]. exfalso.
      assert (Hin : In sb befa).
      { pose proof Hnb as Hnth. rewrite Hsa in Hnth.
        rewrite nth_error_app1 in Hnth by lia.
        exact (nth_error_In _ _ Hnth). }
      pose proof (Hahead befa sa afta Hsa Hpa Hbefa sb Hin) as Hno.
      rewrite Hpb in Hno. discriminate. }
    exact (wellFormed_nth segments ja jb sa sb Hwf Hle Hna Hnb).
Qed.

(** C5, witness: two chunks that match the first and the second segment,
    and two chunks that both fall back. *)
Lemma C5_startTime_order_witness :
  (startTime (matchChunkToTimestamp "alpha beta gamma"
                [mkSegment "alpha beta gamma" "0:00" 0 10;
                 mkSegment "delta epsilon zeta" "0:10" 10 20] 0 2)
   <= startTime (matchChunkToTimestamp "delta epsilon zeta"
                [mkSegment "alpha beta gamma" "0:00" 0 10;
                 mkSegment "delta epsilon zeta" "0:10" 10 20] 1 2))%Z
  /\ (startTime (matchChunkToTimestamp "nothing alike here"
                [mkSegment "alpha beta gamma" "0:00" 0 10;
                 mkSegment "delta epsilon zeta" "0:10" 10 20] 0 2)
      <= startTime (matchChunkToTimestamp "other words instead"
                [mkSegment "alpha beta gamma" "0:00" 0 10;
                 mkSegment "delta epsilon zeta" "0:10" 10 20] 1 2))%Z.
Proof.
  split.
  - refine (proj2 (C5_startTime_order_amended
                     ["alpha beta gamma"; "delta epsilon zeta"]
                     [mkSegment "alpha beta gamma" "0:00" 0 10;
                      mkSegment "delta epsilon zeta" "0:10" 10 20]
                     0 "alpha beta gamma" "delta epsilon zeta" _ _
                     eq_refl _ eq_refl eq_refl eq_refl eq_refl)
                  eq_refl eq_refl _).
    + vm_compute. discriminate.
    + intros before seg after Hsplit Hm Hbefore s Hs.
      destruct before as [|s0 before].
      * destruct Hs.
      * exfalso. injection Hsplit as <- _.
        specialize (Hbefore _ (or_introl eq_refl)).
        vm_compute in Hbefore. discriminate.
  - refine (proj1 (C5_startTime_order_amended
                     ["nothing alike here"; "other words instead"]
                     [mkSegment "alpha beta gamma" "0:00" 0 10;
                      mkSegment "delta epsilon zeta" "0:10" 10 20]
                     0 "nothing alike here" "other words instead" _ _
                     eq_refl _ eq_refl eq_refl eq_refl eq_refl)
                  eq_refl eq_refl).
    vm_compute. discriminate.
Defined.

(** C5, counterexample: three chunks in transcript order over two
    segments ordered by start time.  The second chunk matches nothing and
    is placed at a third of the duration, second 33; the third matches
    the second segment, which starts at second 5.  And two chunks that
    both match, the later one an earlier segment. *)
Lemma C5_counterexample :
  ~ (forall (chunks : list string) (segments : list TimestampSegment)
            (i : nat) (a b : TimestampMatch),
        wellFormed segments = true ->
        nth_error (alignChunks chunks segments) i = Some a ->
        nth_error (alignChunks chunks segments) (S i) = Some b ->
        (startTime a <= startTime b)%Z)
  /\ map (fun m => (matched m, startTime m))
         (alignChunks ["main topic explained"; "welcome everybody today"]
                      [mkSegment "welcome everybody today" "0:00" 0 5;
                       mkSegment "main topic explained" "0:05" 5 100])
     = [(true, 5%Z); (true, 0%Z)].
Proof.
  split; [|vm_compute; reflexivity].
  intros H.
  specialize (H ["welcome everybody today"; "nothing alike here";
                 "main topic explained"]
                [mkSegment "welcome everybody today" "0:00" 0 5;
                 mkSegment "main topic explained" "0:05" 5 100]
                1 (mkMatch 33 66 false None) (mkMatch 5 100 true (Some "0:05"))
                eq_refl).
  assert (H' : (33 <= 5)%Z); [|lia].
  apply H; vm_compute; reflexivity.
Qed.

End AlignFacts.

(* ===================================================================== *)
(** ** Result fusion: scores, order and deduplication *)
(* ===================================================================== *)

Module FusionFacts.
Import JS JSFacts HybridSearch Examples DoubleFacts.

(** *** The stable sort *)

Lemma insertByScore_perm (x : SearchResult) (l : list SearchResult) :
  Permutation (insertByScore x l) (x :: l).
Proof.
  induction l as [|y l IH]; simpl; [apply Permutation_refl|].
  destruct (Qle_bool (score y) (score x)).
  - apply Permutation_refl.
  - eapply Permutation_trans; [apply perm_skip, IH | apply perm_swap].
Qed.

Lemma sortByScore_perm (l : list SearchResult) : Permutation (sortByScore l) l.
Proof.
  induction l as [|x l IH]; simpl; [apply perm_nil|].
  eapply Permutation_trans; [apply insertByScore_perm | apply perm_skip, IH].
Qed.

Lemma insertByScore_sorted (x : SearchResult) (l : list SearchResult) :
  StronglySorted descending l -> StronglySorted descending (insertByScore x l).
Proof.
  induction l as [|y l IH]; intros Hs; simpl.
  - constructor; [constructor | constructor].
  - inversion Hs as [|? ? Hl Hy]; subst.
    destruct (Qle_bool (score y) (score x)) eqn:Hle.
    + apply Qle_bool_iff in Hle.
      constructor; [exact Hs|].
      constructor; [exact Hle|].
      rewrite Forall_forall in Hy |- *. intros z Hz.
      unfold descending in *. specialize (Hy z Hz). lra.
    + assert (Hlt : (score x < score y)%Q).
      { apply Qnot_le_lt. intros H. apply Qle_bool_iff in H. congruence. }
      constructor; [apply IH; exact Hl|].
      rewrite Forall_forall in Hy |- *. intros z Hz.
      apply (Permutation_in _ (insertByScore_perm x l)) in Hz.
      destruct Hz as [<- | Hz].
      * unfold descending. lra.
      * apply Hy. exact Hz.
Qed.

Lemma sortByScore_sorted (l : list SearchResult) :
  StronglySorted descending (sortByScore l).
Proof.
  induction l as [|x l IH]; simpl; [constructor|].
  apply insertByScore_sorted. exact IH.
Qed.

Lemma insertByScore_stable (v : Q) (x : SearchResult) (l : list SearchResult) :
  filter (tiedAt v) (insertByScore x l) = filter (tiedAt v) (x :: l).
Proof.
  induction l as [|y l IH]; [reflexivity|].
  cbn [insertByScore].
  destruct (Qle_bool (score y) (score x)) eqn:Hle; [reflexivity|].
  cbn [filter] in *. rewrite IH.
  destruct (tiedAt v x) eqn:Hx, (tiedAt v y) eqn:Hy; try reflexivity.
  exfalso. unfold tiedAt in *.
  apply Qeq_bool_iff in Hx, Hy.
  assert (H : Qle_bool (score y) (score x) = true).
  { apply Qle_bool_iff. rewrite Hx, Hy. apply Qle_refl. }
  congruence.
Qed.

Lemma sortByScore_stable (v : Q) (l : list SearchResult) :
  filter (tiedAt v) (sortByScore l) = filter (tiedAt v) l.
Proof.
  induction l as [|x l IH]; [reflexivity|].
  cbn [sortByScore]. rewrite insertByScore_stable.
  cbn [filter]. rewrite IH. reflexivity.
Qed.

(** *** The hybrid score *)

Lemma boost_0 : boost 0 = 1%Q.
Proof. vm_compute. reflexivity. Qed.

Lemma boost_mono (k K : nat) : k <= K -> (boost k <= boost K)%Q.
Proof.
  intros H. unfold boost, Double.add, Double.mul, Double.ofNat.
  apply round_mono. apply Qplus_le_r. apply round_mono.
  apply Qmult_le_compat_r.
  - rewrite <- Zle_Qle. lia.
  - apply round_nonneg. discriminate.
Qed.

Lemma boost_least (k : nat) : (1 <= boost k)%Q.
Proof.
  rewrite <- boost_0. apply boost_mono. lia.
Qed.

Lemma sourceWeighted_isDouble (r : SearchResult) :
  source r <> hybrid \/ Double.isDouble (score r) ->
  Double.isDouble (sourceWeighted r).
Proof.
  unfold sourceWeighted. intros [H | H]; destruct (source r);
    try apply round_isDouble; try exact H; congruence.
Qed.

(** The guard [keywordMatches > 0] changes nothing: multiplying a double
    by [1 + 0 * 0.1] leaves it as it is. *)
Lemma hybridScore_formula (query : string) (r : SearchResult) :
  source r <> hybrid \/ Double.isDouble (score r) ->
  (hybridScore query r
   == Double.mul (sourceWeighted r) (boost (keywordMatches query (text r))))%Q.
Proof.
  intros Hr. unfold hybridScore. cbv zeta.
  destruct (0 <? keywordMatches query (text r)) eqn:Hk; [reflexivity|].
  apply Nat.ltb_ge in Hk.
  replace (keywordMatches query (text r)) with 0 by lia.
  rewrite boost_0. unfold Double.mul.
  rewrite (round_comp (sourceWeighted r * 1) (sourceWeighted r)) by ring.
  symmetry. exact (sourceWeighted_isDouble r Hr).
Qed.

Lemma hybridScore_isDouble (query : string) (r : SearchResult) :
  source r <> hybrid \/ Double.isDouble (score r) ->
  Double.isDouble (hybridScore query r).
Proof.
  intros Hr. unfold hybridScore. cbv zeta.
  destruct (0 <? keywordMatches query (text r)).
  - apply round_isDouble.
  - apply sourceWeighted_isDouble. exact Hr.
Qed.

(** C7 (as amended).  The fused list is the first [limit] entries of the
    deduplicated candidates, each rescored, in descending score order with
    ties in input order.  The score is the candidate's score times 0.7
    (semantic) or 0.3 (keyword), times [1 + k * 0.1], where [k] counts the
    words of the lower-cased query, repetitions included, that are longer
    than 2 and occur in the lower-cased text; every product and sum is
    rounded to double precision.  The rounded difference the comparator
    returns has the sign of the comparison of the two scores. *)
Theorem C7_fuseAndRankResults_amended
    (semanticResults keywordResults : list SearchResult)
    (query : string) (limit : nat) :
  let candidates := uniqueResults (semanticResults ++ keywordResults) in
  let ranked := sortByScore (map (scoreResult query) candidates) in
  fuseAndRankResults semanticResults keywordResults query limit
  = firstn limit ranked
  /\ Permutation ranked (map (scoreResult query) candidates)
  /\ StronglySorted descending ranked
  /\ (forall v, filter (tiedAt v) ranked
                = filter (tiedAt v) (map (scoreResult query) candidates))
  /\ (forall r, In r candidates ->
        let k := List.length
                   (filter (fun word =>
                              (2 <? String.length word)
                              && includes (toLowerCase (text r)) word)
                           (split reSpaces (toLowerCase query))) in
        let weighted :=
          match source r with
          | semantic => Double.mul (score r) (Double.literal (7 # 10))
          | keyword => Double.mul (score r) (Double.literal (3 # 10))
          | hybrid => score r
          end in
        source (scoreResult query r) = hybrid
        /\ text (scoreResult query r) = text r
        /\ metadata (scoreResult query r) = metadata r
        /\ (0 < k ->
            score (scoreResult query r)
            = Double.mul weighted
                (Double.add 1%Q (Double.mul (Double.ofNat k)
                                            (Double.literal (1 # 10)))))
        /\ (k = 0 -> score (scoreResult query r) = weighted)
        /\ (source r <> hybrid \/ Double.isDouble (score r) ->
            (score (scoreResult query r)
             == Double.mul weighted
                  (Double.add 1%Q (Double.mul (Double.ofNat k)
                                              (Double.literal (1 # 10)))))%Q))
  /\ (forall x y, In x candidates -> In y candidates ->
        (source x <> hybrid \/ Double.isDouble (score x)) ->
        (source y <> hybrid \/ Double.isDouble (score y)) ->
        let sx := score (scoreResult query x) in
        let sy := score (scoreResult query y) in
        (sx < sy -> 0 < Double.sub sy sx)%Q
        /\ (sy < sx -> Double.sub sy sx < 0)%Q
        /\ (sx == sy -> Double.sub sy sx == 0)%Q).
Proof.
  intros candidates ranked.
  split; [reflexivity|].
  split; [apply sortByScore_perm|].
  split; [apply sortByScore_sorted|].
  split; [intros v; apply sortByScore_stable|].
  split.
  - intros r _. cbv zeta.
    split; [reflexivity|]. split; [reflexivity|]. split; [reflexivity|].
    change (score (scoreResult query r)) with (hybridScore query r).
    split; [|split].
    + intros Hk. unfold hybridScore. cbv zeta. unfold keywordMatches. cbv zeta.
      apply Nat.ltb_lt in Hk. rewrite Hk. reflexivity.
    + intros Hk. unfold hybridScore. cbv zeta. unfold keywordMatches. cbv zeta.
      rewrite Hk. reflexivity.
    + intros Hr. apply (hybridScore_formula query r Hr).
  - intros x y _ _ Hx Hy. cbv zeta.
    change (score (scoreResult query x)) with (hybridScore query x).
    change (score (scoreResult query y)) with (hybridScore query y).
    apply sub_sign; apply hybridScore_isDouble; assumption.
Qed.

(** C7, witness: two semantic candidates and a keyword candidate that
    repeats the text of the first. *)
Lemma C7_fuseAndRankResults_amended_witness :
  map text
    (fuseAndRankResults
       [mkResult "dogs bark loudly" (rankScore 0) semantic (mkMetadata "unknown" 0);
        mkResult "cats purr softly" (rankScore 1) semantic (mkMetadata "unknown" 1)]
       [mkResult "dogs bark loudly" 2 keyword (mkMetadata "video1" 3)]
       "cats purr" 5)
  = ["cats purr softly"; "dogs bark loudly"]
  /\ StronglySorted descending
       (sortByScore
          (map (scoreResult "cats purr")
             (uniqueResults
                ([mkResult "dogs bark loudly" (rankScore 0) semantic (mkMetadata "unknown" 0);
                  mkResult "cats purr softly" (rankScore 1) semantic (mkMetadata "unknown" 1)]
                 ++ [mkResult "dogs bark loudly" 2 keyword (mkMetadata "video1" 3)])))).
Proof.
  split.
  - rewrite (proj1 (C7_fuseAndRankResults_amended
                      [mkResult "dogs bark loudly" (rankScore 0) semantic (mkMetadata "unknown" 0);
                       mkResult "cats purr softly" (rankScore 1) semantic (mkMetadata "unknown" 1)]
                      [mkResult "dogs bark loudly" 2 keyword (mkMetadata "video1" 3)]
                      "cats purr" 5)).
    vm_compute. reflexivity.
  - exact (proj1 (proj2 (proj2
             (C7_fuseAndRankResults_amended
                [mkResult "dogs bark loudly" (rankScore 0) semantic (mkMetadata "unknown" 0);
                 mkResult "cats purr softly" (rankScore 1) semantic (mkMetadata "unknown" 1)]
                [mkResult "dogs bark loudly" 2 keyword (mkMetadata "video1" 3)]
                "cats purr" 5)))).
Defined.

(** C7, counterexample: the query "cat cat" against a semantic candidate
    with text "cat" and score 1.  One distinct query word occurs in the
    text, which would give the double of 0.7 times the double of 1.1; the
    source counts both occurrences and multiplies by the double of 1.2:
    0.84 against 0.77, each to the last bit of a double. *)
Lemma C7_counterexample :
  map score (fuseAndRankResults
               [mkResult "cat" 1 semantic (mkMetadata "unknown" 0)] []
               "cat cat" 5)
  = [Double.mul (Double.literal (7 # 10)) (Double.literal (12 # 10))]
  /\ Claimed.hybridScore "cat cat"
       (mkResult "cat" 1 semantic (mkMetadata "unknown" 0))
     = Double.mul (Double.literal (7 # 10)) (Double.literal (11 # 10))
  /\ (Double.mul (Double.literal (7 # 10)) (Double.literal (11 # 10))
      < Double.mul (Double.literal (7 # 10)) (Double.literal (12 # 10)))%Q
  /\ ~ (hybridScore "cat cat" (mkResult "cat" 1 semantic (mkMetadata "unknown" 0))
        == Claimed.hybridScore "cat cat"
             (mkResult "cat" 1 semantic (mkMetadata "unknown" 0)))%Q.
Proof.
  split; [vm_compute; reflexivity|].
  split; [vm_compute; reflexivity|].
  split; [vm_compute; reflexivity|].
  vm_compute. discriminate.
Qed.

(** *** Deduplication *)


Lemma samePrefix_trans (a b c : SearchResult) :
  samePrefix a b = true -> samePrefix b c = true -> samePrefix a c = true.
Proof.
  unfold samePrefix. rewrite !String.eqb_eq. congruence.
Qed.


Lemma existsb_false {A : Type} (f : A -> bool) (l : list A) :
  existsb f l = false <-> forall x, In x l -> f x = false.
Proof.
  induction l as [|y l IH]; simpl.
  - split; [intros _ x [] | reflexivity].
  - rewrite orb_false_iff, IH. split.
    + intros [Hy Hl] x [<- | Hx]; [exact Hy | apply Hl; exact Hx].
    + intros H. split; [apply H; left; reflexivity | intros x Hx; apply H; right; exact Hx].
Qed.

(** A result survives iff no earlier element of the array has its first
    100 characters. *)
Lemma uniqueFrom_In (prev rest : list SearchResult) (r : SearchResult) :
  In r (uniqueFrom prev rest) <->
  exists l1 l2, rest = l1 ++ r :: l2
    /\ forall p, In p (prev ++ l1) -> samePrefix p r = false.
Proof.
  revert prev; induction rest as [|x rest IH]; intros prev; cbn [uniqueFrom].
  - split; [intros [] | intros [l1 [l2 [H _]]]; destruct l1; discriminate].
  - assert (Htail : In r (uniqueFrom (prev ++ [x]) rest) <->
              exists l1 l2, x :: rest = (x :: l1) ++ r :: l2
                /\ forall p, In p (prev ++ x :: l1) -> samePrefix p r = false).
    { rewrite IH. split; intros [l1 [l2 [Heq Hno]]]; exists l1, l2.
      - split; [simpl; f_equal; exact Heq|].
        intros p Hp. apply Hno. rewrite <- app_assoc. exact Hp.
      - split; [simpl in Heq; injection Heq as Heq; exact Heq|].
        intros p Hp. apply Hno. rewrite <- app_assoc in Hp. exact Hp. }
    destruct (existsb (fun p => samePrefix p x) prev) eqn:Hex.
    + rewrite Htail. split.
      * intros [l1 [l2 [Heq Hno]]]. exists (x :: l1), l2. split; assumption.
      * intros [l1 [l2 [Heq Hno]]]. destruct l1 as [|y l1].
        -- exfalso. simpl in Heq. injection Heq as <- _.
           apply existsb_exists in Hex. destruct Hex as [p [Hp Hpx]].
           rewrite (Hno p) in Hpx; [discriminate|].
           rewrite app_nil_r. exact Hp.
        -- simpl in Heq. injection Heq as <- Heq. exists l1, l2.
           split; [simpl; f_equal; exact Heq | exact Hno].
    + cbn [In]. rewrite Htail. split.
      * intros [<- | [l1 [l2 [Heq Hno]]]].
        -- exists [], rest. split; [reflexivity|].
           rewrite app_nil_r. apply existsb_false. exact Hex.
        -- exists (x :: l1), l2. split; assumption.
      * intros [l1 [l2 [Heq Hno]]]. destruct l1 as [|y l1].
        -- left. simpl in Heq. injection Heq as -> _. reflexivity.
        -- right. simpl in Heq. injection Heq as <- Heq. exists l1, l2.
           split; [simpl; f_equal; exact Heq | exact Hno].
Qed.









(** *** The top semantic result *)




Lemma filter_all {A : Type} (f : A -> bool) (l : list A) :
  forallb f l = true -> filter f l = l.
Proof.
  induction l as [|x l IH]; simpl; [reflexivity|].
  intros H. apply andb_true_iff in H. destruct H as [Hx Hl].
  rewrite Hx, (IH Hl). reflexivity.
Qed.




(** The scores by rank do not increase, rounding included. *)
Lemma rankScore_antitone (i j : nat) : i <= j -> (rankScore j <= rankScore i)%Q.
Proof.
  intros H. unfold rankScore, Double.sub, Double.mul, Double.ofNat.
  apply round_mono.
  assert (Hm : (Double.round (inject_Z (Z.of_nat i) * Double.literal (5 # 100))
                <= Double.round (inject_Z (Z.of_nat j) * Double.literal (5 # 100)))%Q).
  { apply round_mono. apply Qmult_le_compat_r.
    - rewrite <- Zle_Qle. lia.
    - apply round_nonneg. discriminate. }
  lra.
Qed.


(** Rounding tells scores apart that exact arithmetic would tie: rank 0
    with one query word gives 0.616, rank 5 with six query words
    0.6160000000000001, and rank 2 has the score 0.7000000000000001. *)
Lemma rounded_scores_are_not_tied :
  (semanticHybridScore 0 1 < semanticHybridScore 5 6)%Q
  /\ rankScore 2 = Double.literal (7000000000000001 # 10000000000000000).
Proof. split; vm_compute; reflexivity. Qed.






End FusionFacts.

(* ===================================================================== *)
(** ** The chunker: sizes of the emitted chunks *)
(* ===================================================================== *)

Module ChunkerFacts.
Import JS Chunker ChunkGroups Examples DoubleFacts.

Lemma flush_In (cur c : string) :
  In c (flush cur) <-> c = cur /\ 100 < String.length cur.
Proof.
  unfold flush. destruct (100 <? String.length cur) eqn:H.
  - apply Nat.ltb_lt in H. simpl. split.
    + intros [<- | []]. split; [reflexivity | exact H].
    + intros [-> _]. left. reflexivity.
  - apply Nat.ltb_ge in H. simpl. split; [intros [] | intros [_ H']; lia].
Qed.

Lemma flush_filter (currentChunk : string) :
  flush currentChunk
  = filter (fun c => 100 <? String.length c) [currentChunk].
Proof. unfold flush. cbn [filter]. destruct (100 <? _); reflexivity. Qed.

Lemma ltb_lt (a b : Q) : Double.ltb a b = true <-> (a < b)%Q.
Proof.
  unfold Double.ltb. rewrite negb_true_iff. split.
  - intros H. apply Qnot_le_lt. intros Hle. apply Qle_bool_iff in Hle. congruence.
  - intros H. destruct (Qle_bool b a) eqn:E; [|reflexivity].
    apply Qle_bool_iff in E. exfalso. apply (Qlt_not_le _ _ H E).
Qed.

(** The size test, in numbers. *)
Lemma fits_spec (maxTokens : nat) (t : string) :
  fits maxTokens t = true <->
  (inject_Z (Z.of_nat ((String.length t + 3) / 4))
   < Double.mul (Double.ofNat maxTokens) (Double.literal (8 # 10)))%Q
  /\ String.length t < 2500.
Proof.
  unfold fits, estimateTokens, targetChunkTokens, Double.ofNat.
  rewrite andb_true_iff, ltb_lt, Nat.ltb_lt. reflexivity.
Qed.

(** At the default budget the target is 320 tokens, the product being
    exact. *)
Lemma target_default : targetChunkTokens 400 = 320%Q.
Proof. vm_compute. reflexivity. Qed.

(** At a budget of 90 tokens the product 90 * 0.7 is the double just
    below 63, and the word fallback takes 62 words a chunk. *)
Lemma wordsPerChunk_rounded : wordsPerChunkOf 90 = 62.
Proof. vm_compute. reflexivity. Qed.

Lemma fits_default_length (t : string) :
  fits 400 t = true -> String.length t <= 1276.
Proof.
  intros H. apply fits_spec in H. destruct H as [H _].
  change (Double.mul (Double.ofNat 400) (Double.literal (8 # 10)))
    with (targetChunkTokens 400) in H.
  rewrite target_default in H.
  change 320%Q with (inject_Z 320) in H. rewrite <- Zlt_Qlt in H.
  assert (Hdiv : (String.length t + 3) / 4 < 320) by lia.
  destruct (Nat.lt_ge_cases (String.length t + 3) (4 * 320)) as [Hlt | Hge]; [lia|].
  apply Nat.div_le_lower_bound in Hge; lia.
Qed.

(** The accumulation cuts the sentences into groups: the sentences taken
    into the current chunk while each passes the size test, then one group
    for every sentence that fails it, made of that sentence and the ones
    that pass after it; the chunks are the accumulated texts of the groups
    that are longer than 100 characters, in order. *)
Lemma accumulate_grouped (maxTokens : nat) (sentences : list string)
    (currentChunk : string) :
  exists first groups,
    sentences = first ++ List.concat groups
    /\ extensionsFit maxTokens currentChunk first = true
    /\ forallb (laterGroup maxTokens) groups = true
    /\ boundariesFail maxTokens (fold_left glueStep first currentChunk) groups
       = true
    /\ accumulate maxTokens currentChunk sentences
       = filter (fun c => 100 <? String.length c)
                (fold_left glueStep first currentChunk :: map glue groups).
Proof.
  revert currentChunk; induction sentences as [|s rest IH]; intros cur.
  - exists [], []. split; [reflexivity|]. split; [reflexivity|].
    split; [reflexivity|]. split; [reflexivity|]. apply flush_filter.
  - cbn [accumulate]. fold (glueStep cur s).
    destruct (fits maxTokens (glueStep cur s)) eqn:Hfit.
    + destruct (IH (glueStep cur s)) as (first & groups & -> & Hf & Hl & Hb & ->).
      exists (s :: first), groups.
      split; [reflexivity|].
      split; [cbn [extensionsFit]; rewrite Hfit, Hf; reflexivity|].
      split; [exact Hl|]. split; [exact Hb | reflexivity].
    + destruct (IH (trim s)) as (first & groups & -> & Hf & Hl & Hb & ->).
      exists [], ((s :: first) :: groups).
      split; [reflexivity|]. split; [reflexivity|].
      split; [cbn [forallb laterGroup]; rewrite Hf, Hl; reflexivity|].
      split.
      { cbn [boundariesFail fold_left]. rewrite Hfit. cbn [negb andb].
        exact Hb. }
      rewrite flush_filter, <- filter_app. reflexivity.
Qed.

(** Every value of [currentChunk] is empty, passes the size test, or is
    one trimmed sentence. *)
Lemma accumulate_chunks (maxTokens : nat) (all sentences : list string)
    (cur c : string) :
  (forall s, In s sentences -> In s all) ->
  cur = EmptyString \/ fits maxTokens cur = true
    \/ (exists s, In s all /\ cur = trim s) ->
  In c (accumulate maxTokens cur sentences) ->
  100 < String.length c
  /\ (fits maxTokens c = true \/ exists s, In s all /\ c = trim s).
Proof.
  revert cur; induction sentences as [|sentence rest IH]; intros cur Hsub Hcur Hin.
  - cbn [accumulate] in Hin. apply flush_In in Hin. destruct Hin as [-> Hlen].
    split; [exact Hlen|].
    destruct Hcur as [-> | Hcur]; [simpl in Hlen; lia | exact Hcur].
  - cbn [accumulate] in Hin.
    assert (Hrest : forall s, In s rest -> In s all).
    { intros s Hs. apply Hsub. right. exact Hs. }
    set (testChunk := match cur with
                      | EmptyString => trim sentence
                      | String _ _ => (cur ++ " " ++ trim sentence)%string
                      end) in *.
    destruct (fits maxTokens testChunk) eqn:Hfit.
    + apply (IH testChunk Hrest); [|exact Hin]. right. left. exact Hfit.
    + apply in_app_or in Hin. destruct Hin as [Hin | Hin].
      * apply flush_In in Hin. destruct Hin as [-> Hlen].
        split; [exact Hlen|].
        destruct Hcur as [-> | Hcur]; [simpl in Hlen; lia | exact Hcur].
      * apply (IH (trim sentence) Hrest); [|exact Hin]. right. right.
        exists sentence. split; [apply Hsub; left; reflexivity | reflexivity].
Qed.

(** At the default budget the word loop of the fallback advances by 252
    words, and [chunkText] returns. *)
Lemma sentencesOf_default (text : string) :
  exists sentences, sentencesOf text 400 = Some sentences.
Proof.
  unfold sentencesOf. cbv zeta.
  destruct (List.length _ <=? 1); [|eexists; reflexivity].
  change (wordsPerChunkOf 400) with 280.
  change (overlapWordsOf 280) with 28.
  cbn [Nat.sub Nat.eqb]. eexists. reflexivity.
Qed.

(** Below a budget of 2 tokens the word loop does not advance. *)
Lemma wordStep_stuck (maxTokens : nat) :
  maxTokens < 2 ->
  wordsPerChunkOf maxTokens - overlapWordsOf (wordsPerChunkOf maxTokens) = 0.
Proof.
  intros H. destruct maxTokens as [|[|n]]; [reflexivity | reflexivity | lia].
Qed.

(** C9 (as amended).  [chunkText] returns the empty list for a text under
    50 characters.  Otherwise it accumulates sentences: while the chunk
    extended by the next sentence has an estimated token count,
    [ceil(length / 4)], below 80% of the budget (the product in double
    precision) and a length below 2500 it keeps extending; when it does
    not, the current chunk is emitted if it is longer than 100 characters
    and the sentence starts the next chunk.  So the sentences are cut, in
    order, into groups of consecutive sentences, a new group starting
    exactly at a sentence that fails the test, and the chunks are the
    groups longer than 100 characters.  An emitted chunk either passed the
    size test (at the default budget of 400 tokens it then has at most 1276
    characters) or is a single trimmed sentence, whatever its length.  At
    the default budget the call always returns. *)
Theorem C9_chunkText_amended (text : string) (maxTokens : nat) :
  (String.length text < 50 -> chunkTextWith text maxTokens = Some [])
  /\ (50 <= String.length text ->
      forall sentences, sentencesOf text maxTokens = Some sentences ->
      exists first groups,
        sentences = first ++ List.concat groups
        /\ extensionsFit maxTokens EmptyString first = true
        /\ forallb (laterGroup maxTokens) groups = true
        /\ boundariesFail maxTokens (glue first) groups = true
        /\ chunkTextWith text maxTokens
           = Some (filter (fun c => 100 <? String.length c)
                          (glue first :: map glue groups)))
  /\ (forall testChunk,
        fits maxTokens testChunk = true <->
        (inject_Z (Z.of_nat ((String.length testChunk + 3) / 4))
         < Double.mul (Double.ofNat maxTokens) (Double.literal (8 # 10)))%Q
        /\ String.length testChunk < 2500)
  /\ (forall chunks c,
        chunkTextWith text maxTokens = Some chunks -> In c chunks ->
        100 < String.length c
        /\ (fits maxTokens c = true
            \/ exists sentences s,
                 sentencesOf text maxTokens = Some sentences
                 /\ In s sentences /\ c = trim s))
  /\ (exists chunks,
        chunkText text = Some chunks
        /\ forall c, In c chunks ->
             100 < String.length c
             /\ (String.length c <= 1276
                 \/ exists sentences s,
                      sentencesOf text 400 = Some sentences
                      /\ In s sentences /\ c = trim s)).
Proof.
  assert (Hgen : forall m chunks c,
            chunkTextWith text m = Some chunks -> In c chunks ->
            100 < String.length c
            /\ (fits m c = true
                \/ exists sentences s,
                     sentencesOf text m = Some sentences
                     /\ In s sentences /\ c = trim s)).
  { intros m chunks c Hc Hin. unfold chunkTextWith in Hc.
    destruct (String.length text <? 50).
    - injection Hc as <-. destruct Hin.
    - destruct (sentencesOf text m) as [sentences|] eqn:Hs; [|discriminate].
      cbn [option_map] in Hc. injection Hc as <-.
      destruct (accumulate_chunks m sentences sentences EmptyString c)
        as [Hlen [Hfit | (s & Hs1 & Hs2)]];
        [auto | left; reflexivity | exact Hin | |].
      + split; [exact Hlen | left; exact Hfit].
      + split; [exact Hlen|]. right. exists sentences, s.
        repeat split; assumption. }
  split.
  { intros Hlen. unfold chunkTextWith.
    apply Nat.ltb_lt in Hlen. rewrite Hlen. reflexivity. }
  split.
  { intros Hlen sentences Hs. unfold chunkTextWith.
    assert (E : (String.length text <? 50) = false) by (apply Nat.ltb_ge; exact Hlen).
    rewrite E, Hs. cbn [option_map].
    destruct (accumulate_grouped maxTokens sentences EmptyString)
      as (first & groups & H1 & H2 & H3 & H4 & H5).
    exists first, groups. repeat split; try assumption.
    rewrite H5. reflexivity. }
  split; [intros testChunk; apply fits_spec|].
  split; [apply Hgen|].
  assert (Hret : exists chunks, chunkText text = Some chunks).
  { unfold chunkText, chunkTextWith.
    destruct (String.length text <? 50); [eexists; reflexivity|].
    destruct (sentencesOf_default text) as [sentences ->].
    eexists. reflexivity. }
  destruct Hret as [chunks Hchunks]. exists chunks. split; [exact Hchunks|].
  intros c Hin. destruct (Hgen 400 chunks c Hchunks Hin) as [Hlen [Hfit | Hs]].
  - split; [exact Hlen|]. left. apply fits_default_length. exact Hfit.
  - split; [exact Hlen|]. right. exact Hs.
Qed.

(** C9, counterexample: a sentence of 3000 characters followed by three
    short ones.  The long sentence is emitted whole, above the ceiling of
    2500 characters. *)
Lemma C9_counterexample :
  option_map (map String.length) (sentencesOf runOnText 400)
  = Some [3000; 12; 12; 12]
  /\ option_map (map String.length) (chunkText runOnText) = Some [3000]
  /\ exists chunks c,
       chunkText runOnText = Some chunks
       /\ In c chunks /\ 2500 < String.length c.
Proof.
  split; [vm_compute; reflexivity|].
  split; [vm_compute; reflexivity|].
  exists [repeatChar 3000 "a"], (repeatChar 3000 "a"). split; [|split].
  - vm_compute. reflexivity.
  - left. reflexivity.
  - apply Nat.ltb_lt. vm_compute. reflexivity.
Qed.

(** C9, witness: a text under 50 characters, and the chunks of the
    run-on sample at the default budget. *)
Lemma C9_chunkText_amended_witness :
  chunkTextWith "Too short to chunk." 400 = Some []
  /\ (exists chunks,
        chunkText runOnText = Some chunks
        /\ forall c, In c chunks ->
             100 < String.length c
             /\ (String.length c <= 1276
                 \/ exists sentences s,
                      sentencesOf runOnText 400 = Some sentences
                      /\ In s sentences /\ c = trim s)).
Proof.
  split.
  - apply (proj1 (C9_chunkText_amended "Too short to chunk." 400)).
    apply Nat.ltb_lt. reflexivity.
  - exact (proj2 (proj2 (proj2 (proj2 (C9_chunkText_amended runOnText 400))))).
Defined.

End ChunkerFacts.
(* ===================================================================== *)
(** ** The two stores on a second run *)
(* ===================================================================== *)

Module StorageFacts.
Import stdpp.base stdpp.gmap stdpp.strings.
Import JS JSFacts Storage Examples.

Lemma foldl_upsert_concat (index : gmap string PineconeRecord)
    (batches : list (list PineconeRecord)) :
  foldl upsert index batches = upsert index (List.concat batches).
Proof.
  revert index; induction batches as [|b bs IH]; intros index; [reflexivity|].
  cbn [foldl List.concat]. rewrite IH. unfold upsert. rewrite foldl_app. reflexivity.
Qed.

(** Batching does not change what is written. *)
Lemma storeToPinecone_upsert (index : gmap string PineconeRecord)
    (creatorId videoId now : string) (chunks : list EmbeddedChunk) :
  storeToPinecone index creatorId videoId now chunks
  = upsert index (map (vectorOf creatorId videoId now) chunks).
Proof.
  unfold storeToPinecone. destruct chunks as [|c rest]; [reflexivity|].
  rewrite foldl_upsert_concat, concat_windows; [reflexivity | lia | lia].
Qed.

(** The record found under a key after an upsert: the last one of the
    batch with that id, or the one that was there. *)
Lemma upsert_lookup (index : gmap string PineconeRecord)
    (batch : list PineconeRecord) (k : string) :
  upsert index batch !! k
  = match List.find (fun v => String.eqb (id v) k) (rev batch) with
    | Some v => Some v
    | None => index !! k
    end.
Proof.
  unfold upsert. revert index.
  induction batch as [|v rest IH] using rev_ind; intros index; [reflexivity|].
  rewrite foldl_app, rev_app_distr. cbn [foldl rev app List.find].
  destruct (String.eqb (id v) k) eqn:E.
  - apply String.eqb_eq in E. subst k. apply lookup_insert_eq.
  - apply String.eqb_neq in E. rewrite lookup_insert_ne by exact E. apply IH.
Qed.

Lemma find_id_map (creatorId videoId now now' : string)
    (chunks : list EmbeddedChunk) (k : string) :
  match List.find (fun v => String.eqb (id v) k)
                  (map (vectorOf creatorId videoId now) chunks),
        List.find (fun v => String.eqb (id v) k)
                  (map (vectorOf creatorId videoId now') chunks) with
  | Some _, Some _ | None, None => True
  | _, _ => False
  end.
Proof.
  induction chunks as [|c rest IH]; simpl; [exact I|].
  destruct (String.eqb (vectorId creatorId videoId (chunkIndex c)) k); [exact I | exact IH].
Qed.

(** A second upload of the same chunks replaces the records of the
    first: the index is what one upload leaves. *)
Lemma storeToPinecone_again (index : gmap string PineconeRecord)
    (creatorId videoId now now' : string) (chunks : list EmbeddedChunk) :
  storeToPinecone (storeToPinecone index creatorId videoId now chunks)
                  creatorId videoId now' chunks
  = storeToPinecone index creatorId videoId now' chunks.
Proof.
  rewrite !storeToPinecone_upsert. apply map_eq. intros k.
  rewrite !upsert_lookup. rewrite <- !map_rev.
  pose proof (find_id_map creatorId videoId now now' (rev chunks) k) as H.
  destruct (List.find _ (map (vectorOf creatorId videoId now') (rev chunks)));
    [reflexivity|].
  destruct (List.find _ (map (vectorOf creatorId videoId now) (rev chunks)));
    [destruct H | reflexivity].
Qed.

Lemma upsert_dom (index : gmap string PineconeRecord)
    (batch : list PineconeRecord) :
  dom (upsert index batch) = dom index ∪ list_to_set (map id batch).
Proof.
  unfold upsert. revert index.
  induction batch as [|v rest IH]; intros index; cbn [foldl map list_to_set].
  - apply set_eq. intros k. rewrite elem_of_union, elem_of_empty. tauto.
  - rewrite IH, dom_insert_L. apply set_eq. intros k.
    rewrite !elem_of_union, elem_of_singleton. tauto.
Qed.

Lemma map_id_vectorOf (creatorId videoId now : string) (chunks : list EmbeddedChunk) :
  map id (map (vectorOf creatorId videoId now) chunks)
  = map (fun c => vectorId creatorId videoId (chunkIndex c)) chunks.
Proof. rewrite map_map. reflexivity. Qed.

Lemma withIdentity_documentOf (creatorId videoId now : string)
    (videoTitle videoUrl thumbnailUrl : option string)
    (segments : list TimestampMatching.TimestampSegment) (total : nat)
    (embedded : list EmbeddedChunk) (e : EmbeddedChunk) :
  In e embedded ->
  1 <= List.length
         (withIdentity creatorId videoId (chunkIndex e)
            (map (documentOf creatorId videoId now videoTitle videoUrl
                             thumbnailUrl segments total) embedded)).
Proof.
  induction embedded as [|x rest IH]; intros Hin; [destruct Hin|].
  unfold withIdentity in *. cbn [map List.filter documentOf doc_creatorId
    doc_videoId doc_chunkIndex].
  rewrite !String.eqb_refl. cbn [andb].
  destruct (Nat.eqb (chunkIndex x) (chunkIndex e)) eqn:E.
  - simpl. lia.
  - destruct Hin as [-> | Hin].
    + rewrite Nat.eqb_refl in E. discriminate.
    + apply IH. exact Hin.
Qed.

(** A call succeeds exactly when the embedding loop yields at least one
    chunk; the stores it leaves. *)
Lemma storeTranscriptChunks_run
    (createEmbedding : string -> Result Embedding) (now : string)
    (stores : Stores) (creatorId videoId : string)
    (chunks : list LangChainDocument)
    (videoTitle videoUrl thumbnailUrl : option string)
    (segments : list TimestampMatching.TimestampSegment)
    (embedded : list EmbeddedChunk) :
  chunks <> [] ->
  embedChunks createEmbedding videoTitle 0 chunks = Ok embedded ->
  embedded <> [] ->
  storeTranscriptChunks createEmbedding now stores creatorId videoId chunks
                        videoTitle videoUrl thumbnailUrl segments
  = Ok (mkStores
          (storeToPinecone (pinecone stores) creatorId videoId now embedded)
          (insertMany (transcript_chunks stores)
             (map (documentOf creatorId videoId now videoTitle videoUrl
                     thumbnailUrl segments (List.length embedded)) embedded))).
Proof.
  intros Hc Hemb Hne. unfold storeTranscriptChunks.
  destruct chunks as [|c0 rest]; [congruence|].
  rewrite Hemb. destruct embedded as [|e0 es]; [congruence | reflexivity].
Qed.

Lemma storeTranscriptChunks_ok
    (createEmbedding : string -> Result Embedding) (now : string)
    (stores stores1 : Stores) (creatorId videoId : string)
    (chunks : list LangChainDocument)
    (videoTitle videoUrl thumbnailUrl : option string)
    (segments : list TimestampMatching.TimestampSegment) :
  storeTranscriptChunks createEmbedding now stores creatorId videoId chunks
                        videoTitle videoUrl thumbnailUrl segments = Ok stores1 ->
  exists embedded,
    embedChunks createEmbedding videoTitle 0 chunks = Ok embedded
    /\ embedded <> []
    /\ stores1
       = mkStores
           (storeToPinecone (pinecone stores) creatorId videoId now embedded)
           (insertMany (transcript_chunks stores)
              (map (documentOf creatorId videoId now videoTitle videoUrl
                      thumbnailUrl segments (List.length embedded)) embedded)).
Proof.
  unfold storeTranscriptChunks. intros Hrun.
  destruct chunks as [|c0 rest]; [discriminate|].
  destruct (embedChunks createEmbedding videoTitle 0 (c0 :: rest))
    as [embedded | msg]; [|discriminate].
  destruct embedded as [|e0 es]; [discriminate|].
  injection Hrun as <-. exists (e0 :: es).
  split; [reflexivity|]. split; [discriminate | reflexivity].
Qed.

(** C6, the behaviour of the code on a second run.  When an ingestion of
    a video has succeeded, the same ingestion run again succeeds too and
    leaves the vector index with the keys it had, each vector record
    replaced under its key [creatorId_videoId_chunkIndex], while the
    [transcript_chunks] collection has grown by one more document per
    chunk: every chunk identity now has at least two documents. *)
Theorem C6_second_run_duplicates_documents
    (createEmbedding : string -> Result Embedding) (now now' : string)
    (stores stores1 : Stores) (creatorId videoId : string)
    (chunks : list LangChainDocument)
    (videoTitle videoUrl thumbnailUrl : option string)
    (segments : list TimestampMatching.TimestampSegment) :
  storeTranscriptChunks createEmbedding now stores creatorId videoId chunks
                        videoTitle videoUrl thumbnailUrl segments = Ok stores1 ->
  exists stores2 embedded,
    embedChunks createEmbedding videoTitle 0 chunks = Ok embedded
    /\ storeTranscriptChunks createEmbedding now' stores1 creatorId videoId
                             chunks videoTitle videoUrl thumbnailUrl segments
       = Ok stores2
    /\ pinecone stores2
       = storeToPinecone (pinecone stores) creatorId videoId now' embedded
    /\ dom (pinecone stores2) = dom (pinecone stores1)
    /\ List.length (transcript_chunks stores2)
       = List.length (transcript_chunks stores) + 2 * List.length embedded
    /\ 1 <= List.length embedded
    /\ forall e, In e embedded ->
         2 <= List.length (withIdentity creatorId videoId (chunkIndex e)
                                        (transcript_chunks stores2)).
Proof.
  intros Hrun.
  destruct (storeTranscriptChunks_ok _ _ _ _ _ _ _ _ _ _ _ Hrun)
    as [embedded [Hemb [Hne ->]]].
  exists (mkStores
            (storeToPinecone
               (storeToPinecone (pinecone stores) creatorId videoId now embedded)
               creatorId videoId now' embedded)
            (insertMany
               (insertMany (transcript_chunks stores)
                  (map (documentOf creatorId videoId now videoTitle videoUrl
                          thumbnailUrl segments (List.length embedded)) embedded))
               (map (documentOf creatorId videoId now' videoTitle videoUrl
                       thumbnailUrl segments (List.length embedded)) embedded))),
         embedded.
  split; [exact Hemb|].
  split.
  { apply storeTranscriptChunks_run; [|exact Hemb | exact Hne].
    intros ->. simpl in Hemb. injection Hemb as <-. apply Hne. reflexivity. }
  cbn [pinecone transcript_chunks]. unfold insertMany.
  split; [apply storeToPinecone_again|].
  split.
  { rewrite !storeToPinecone_upsert, !upsert_dom, !map_id_vectorOf.
    apply set_eq. intros k. rewrite !elem_of_union. tauto. }
  split.
  { rewrite !length_app, !length_map. lia. }
  split.
  { destruct embedded; [congruence | simpl; lia]. }
  intros e He. unfold withIdentity. rewrite !List.filter_app, !length_app.
  pose proof (withIdentity_documentOf creatorId videoId now videoTitle videoUrl
                thumbnailUrl segments (List.length embedded) embedded e He) as H1.
  pose proof (withIdentity_documentOf creatorId videoId now' videoTitle videoUrl
                thumbnailUrl segments (List.length embedded) embedded e He) as H2.
  unfold withIdentity in H1, H2. lia.
Qed.

(** C6, witness and failing input: one chunk of one video ingested twice
    into empty stores.  The index holds one record under
    [creator1_video1_0]; the collection holds two documents for creator1,
    video1, chunk 0. *)
Lemma C6_second_run_duplicates_documents_witness :
  (exists stores2 embedded,
     embedChunks constantEmbedding (Some "Welcome") 0 oneChunk = Ok embedded
     /\ storeTranscriptChunks constantEmbedding "2025-01-02T10:00:00.000Z"
          firstRun "creator1" "video1" oneChunk (Some "Welcome") None None
          [TimestampMatching.mkSegment "welcome everybody today" "0:00" 0 5]
        = Ok stores2
     /\ pinecone stores2
        = storeToPinecone (pinecone emptyStores) "creator1" "video1"
                          "2025-01-02T10:00:00.000Z" embedded
     /\ dom (pinecone stores2) = dom (pinecone firstRun)
     /\ List.length (transcript_chunks stores2)
        = List.length (transcript_chunks emptyStores) + 2 * List.length embedded
     /\ 1 <= List.length embedded
     /\ forall e, In e embedded ->
          2 <= List.length (withIdentity "creator1" "video1" (chunkIndex e)
                                         (transcript_chunks stores2)))
  /\ size (pinecone secondRun) = 1
  /\ map fst (map_to_list (pinecone secondRun)) = ["creator1_video1_0"]
  /\ map (fun d => (doc_creatorId d, doc_videoId d, doc_chunkIndex d))
         (transcript_chunks secondRun)
     = [("creator1", "video1", 0); ("creator1", "video1", 0)].
Proof.
  split.
  - apply (C6_second_run_duplicates_documents
             constantEmbedding "2025-01-01T10:00:00.000Z"
             "2025-01-02T10:00:00.000Z" emptyStores firstRun
             "creator1" "video1" oneChunk (Some "Welcome") None None
             [TimestampMatching.mkSegment "welcome everybody today" "0:00" 0 5]).
    reflexivity.
  - repeat split; vm_compute; reflexivity.
Defined.

End StorageFacts.

(* ===================================================================== *)
(** ** The ingestion job: the gate, concurrent requests and the timer *)
(* ===================================================================== *)

Module IngestionFacts.
Import stdpp.base stdpp.gmap stdpp.strings.
Import JS Ingestion Examples.
Import Storage (Result, Ok, Throw).

(** *** The eligibility gate *)

(** The second block of the eligibility check is never reached with its
    condition true: whatever the gate throws is the message of the first
    block. *)
Lemma eligibilityError_message (videos : list Video)
    (custom channel wiki : option string) (msg : string) :
  eligibilityError videos custom channel wiki = Some msg ->
  msg = noEligibleVideosMessage.
Proof.
  unfold eligibilityError.
  destruct (videosEligibleForProcessing videos =? 0),
           (usableDescription custom), (usableDescription channel),
           (usableDescription wiki); simpl; congruence.
Qed.

Lemma eligibilityError_fires (videos : list Video)
    (custom channel wiki : option string) :
  videosEligibleForProcessing videos = 0 ->
  usableDescription custom = false ->
  usableDescription channel = false ->
  usableDescription wiki = false ->
  eligibilityError videos custom channel wiki = Some noEligibleVideosMessage.
Proof.
  intros Hv Hc Hch Hw. unfold eligibilityError.
  rewrite Hv, Hc, Hch, Hw. reflexivity.
Qed.

(** C2, the behaviour of the code.  With no eligible video and no
    description above 50 characters the job ends failed, and its error is
    one fixed message, which names the captions and the 2-25 minute
    requirement and is the same whichever of the two is unmet. *)
Theorem C2_gate_fails_with_one_message
    (env : Env) (job : ProcessingJob) (videos : list Video)
    (channelDescription wikipediaSummary : option string) :
  channelVideos env = Ok videos ->
  channelInfo env = Ok (channelDescription, wikipediaSummary) ->
  videosEligibleForProcessing videos = 0 ->
  usableDescription (customDescription env) = false ->
  usableDescription channelDescription = false ->
  usableDescription wikipediaSummary = false ->
  status (finishedJob env job) = failed
  /\ error (finishedJob env job) = Some noEligibleVideosMessage
  /\ includes noEligibleVideosMessage "captions" = true
  /\ includes noEligibleVideosMessage "2-25" = true.
Proof.
  intros Hv Hi He Hc Hch Hw.
  assert (Hrun : run_outcome (processBody env job) = Throw noEligibleVideosMessage).
  { unfold processBody. rewrite Hv, Hi.
    rewrite (eligibilityError_fires videos _ _ _ He Hc Hch Hw). reflexivity. }
  unfold finishedJob. rewrite Hrun. cbn [status error].
  repeat split; vm_compute; reflexivity.
Qed.

(** C2, witness and failing input: a channel with no video, a channel
    whose only video has no captions and a channel whose only video is 40
    minutes long.  The block that builds a separate message for each case
    would tell them apart; the job reports the same message for all
    three. *)
Lemma C2_gate_fails_with_one_message_witness :
  (status (finishedJob (envOf noCaptions) (mkJob "job_1" "creator1" processing 0 0 None None))
   = failed
   /\ error (finishedJob (envOf noCaptions) (mkJob "job_1" "creator1" processing 0 0 None None))
      = Some noEligibleVideosMessage
   /\ includes noEligibleVideosMessage "captions" = true
   /\ includes noEligibleVideosMessage "2-25" = true)
  /\ error (finishedJob (envOf noVideos) (mkJob "job_1" "creator1" processing 0 0 None None))
     = error (finishedJob (envOf noCaptions) (mkJob "job_1" "creator1" processing 0 0 None None))
  /\ error (finishedJob (envOf wrongDuration) (mkJob "job_1" "creator1" processing 0 0 None None))
     = error (finishedJob (envOf noCaptions) (mkJob "job_1" "creator1" processing 0 0 None None))
  /\ specificMessage noVideos <> specificMessage noCaptions
  /\ specificMessage noCaptions <> specificMessage wrongDuration
  /\ specificMessage noVideos <> specificMessage wrongDuration.
Proof.
  split.
  - apply (C2_gate_fails_with_one_message (envOf noCaptions)
             (mkJob "job_1" "creator1" processing 0 0 None None)
             noCaptions None None); reflexivity.
  - repeat split; vm_compute; try reflexivity; discriminate.
Defined.

(** *** Concurrent requests *)

(** No step of a request and no timer touches the channel keys: the
    [SET ... NX] of the job store is never issued. *)
Lemma stepRequest_channelKeys (w : World) (r : Request) :
  channelKeys (fst (stepRequest w r)) = channelKeys w.
Proof.
  unfold stepRequest.
  destruct (r_pc r); simpl; try reflexivity.
  - destruct (findOngoing _ _ _); reflexivity.
  - destruct (jobStore w !! r_jobId r); reflexivity.
  - destruct (r_job r); [|reflexivity]. destruct (creatorOwned (r_env r)); reflexivity.
  - destruct (r_job r); [|reflexivity]. destruct (creatorOwned (r_env r)); reflexivity.
Qed.

Lemma fireTimer_frame (w : World) (r : Request) :
  jobStore (fst (fireTimer w r)) = jobStore w
  /\ processingRecords (fst (fireTimer w r)) = processingRecords w
  /\ channelKeys (fst (fireTimer w r)) = channelKeys w
  /\ r_pc (snd (fireTimer w r)) = r_pc r
  /\ r_job (snd (fireTimer w r)) = r_job r.
Proof.
  unfold fireTimer. destruct (taskPending r && negb (r_timerFired r));
    repeat split; reflexivity.
Qed.

Lemma applyEvent_channelKeys (st : State) (e : Event) :
  channelKeys (fst (applyEvent st e)) = channelKeys (fst st).
Proof.
  destruct e as [i | i]; unfold applyEvent, applyAt;
    destruct (List.nth_error (snd st) i) as [r|]; try reflexivity.
  - pose proof (stepRequest_channelKeys (fst st) r) as H.
    destruct (stepRequest (fst st) r). exact H.
  - pose proof (fireTimer_frame (fst st) r) as H.
    destruct (fireTimer (fst st) r). apply H.
Qed.

Lemma exec_channelKeys (schedule : list Event) (st : State) :
  channelKeys (fst (exec schedule st)) = channelKeys (fst st).
Proof.
  unfold exec. revert st. induction schedule as [|e rest IH]; intros st;
    [reflexivity|].
  cbn [List.fold_left]. rewrite IH. apply applyEvent_channelKeys.
Qed.

(** The key primitive would be exclusive: a second [SET ... NX] on the
    same channel and team fails. *)
Lemma markChannelProcessing_exclusive (keys : gmap string string)
    (channelId teamId jobId1 jobId2 : string) :
  snd (markChannelProcessing
         (fst (markChannelProcessing keys channelId teamId jobId1))
         channelId teamId jobId2) = false.
Proof.
  unfold markChannelProcessing.
  destruct (keys !! getChannelKey channelId teamId) eqn:E; cbn [fst snd].
  - rewrite E. reflexivity.
  - rewrite lookup_insert_eq. reflexivity.
Qed.

(** A request that finds a processing record is answered 409. *)
Lemma check_rejects (w : World) (r : Request) (ongoing : ChannelAIProcessing) :
  r_pc r = AtCheck ->
  findOngoing (processingRecords w) (r_channelId r) (r_teamId r) = Some ongoing ->
  fst (stepRequest w r) = w
  /\ r_response (snd (stepRequest w r)) = Some 409
  /\ r_pc (snd (stepRequest w r)) = Done.
Proof.
  intros Hpc Hfind. unfold stepRequest. rewrite Hpc, Hfind.
  repeat split; reflexivity.
Qed.

Lemma exec_cons (e : Event) (schedule : list Event) (st : State) :
  exec (e :: schedule) st = exec schedule (applyEvent st e).
Proof. reflexivity. Qed.

(** One event of a schedule, evaluated on a state in explicit form. *)
Ltac run_event :=
  rewrite exec_cons;
  cbv [applyEvent applyAt List.nth_error fst snd stepRequest fireTimer
       r_pc r_channelId r_teamId r_jobId r_creatorId r_env r_response r_job
       r_timerFired processingRecords jobStore channelKeys errorLog
       findOngoing at_ respond holding setJob writeRecord
       List.firstn List.skipn List.app jobId creatorId status
       progressCurrent progressTotal result error].

(** C1, the behaviour of the code.  Two requests for the same channel and
    team, with different job ids, each passing the duplicate check before
    the other's background task has written its processing record: both
    are answered 202, both jobs are in status processing, the collection
    holds two processing records for the pair, and no channel key was ever
    set. *)
Theorem C1_concurrent_requests_both_processing
    (channelId teamId job1 job2 creator1 creator2 : string)
    (env1 env2 : Env) :
  job1 <> job2 ->
  creatorOwned env1 = true -> creatorOwned env2 = true ->
  let st := exec raceSchedule
              (emptyWorld,
               [newRequest channelId teamId job1 creator1 env1;
                newRequest channelId teamId job2 creator2 env2]) in
  List.map r_response (snd st) = [Some 202; Some 202]
  /\ jobStatusOf st job1 = Some processing
  /\ jobStatusOf st job2 = Some processing
  /\ processingCount st channelId teamId = 2
  /\ channelKeys (fst st) = ∅.
Proof.
  intros Hne Ho1 Ho2.
  assert (E12 : String.eqb job1 job2 = false) by (apply String.eqb_neq; exact Hne).
  unfold raceSchedule, newRequest, emptyWorld. cbv zeta.
  run_event. cbn [List.find].
  run_event. cbn [List.find].
  run_event.
  run_event.
  run_event. rewrite lookup_insert_ne by congruence. rewrite lookup_insert_eq.
  run_event. rewrite lookup_insert_ne by congruence. rewrite lookup_insert_eq.
  run_event. rewrite Ho1.
  run_event. rewrite Ho2.
  unfold exec. cbn [List.fold_left].
  split; [reflexivity|].
  split.
  { unfold jobStatusOf. cbn [fst jobStore].
    rewrite lookup_insert_ne by congruence. rewrite lookup_insert_eq. reflexivity. }
  split.
  { unfold jobStatusOf. cbn [fst jobStore].
    rewrite lookup_insert_eq. reflexivity. }
  split; [|reflexivity].
  unfold processingCount. cbn [fst processingRecords].
  unfold recordOf. cbn [status upsertRecord p_channelId p_teamId p_jobId
                        r_channelId r_teamId r_jobId].
  rewrite !String.eqb_refl, E12. cbn [andb List.filter p_channelId p_teamId
                                      p_status isProcessing].
  rewrite !String.eqb_refl. reflexivity.
Qed.

(** C1, witness and failing input: the two sample requests.  Taken one
    after the other, the second finds the processing record of the first
    and is answered 409. *)
Lemma C1_concurrent_requests_both_processing_witness :
  (List.map r_response (snd (exec raceSchedule twoRequests))
   = [Some 202; Some 202]
   /\ jobStatusOf (exec raceSchedule twoRequests) "job_1" = Some processing
   /\ jobStatusOf (exec raceSchedule twoRequests) "job_2" = Some processing
   /\ processingCount (exec raceSchedule twoRequests) "channel1" "team1" = 2
   /\ channelKeys (fst (exec raceSchedule twoRequests)) = ∅)
  /\ List.map r_response (snd (exec sequentialSchedule twoRequests))
     = [Some 202; Some 409]
  /\ processingCount (exec sequentialSchedule twoRequests) "channel1" "team1" = 1.
Proof.
  split.
  - apply (C1_concurrent_requests_both_processing
             "channel1" "team1" "job_1" "job_2" "creator1" "creator1"
             healthyEnv healthyEnv).
    + discriminate.
    + reflexivity.
    + reflexivity.
  - split; vm_compute; reflexivity.
Defined.

(** *** The timer *)

Lemma stepRequest_untimed (w1 w2 : World) (r1 r2 : Request) :
  jobStore w1 = jobStore w2 ->
  processingRecords w1 = processingRecords w2 ->
  channelKeys w1 = channelKeys w2 ->
  untimed r1 = untimed r2 ->
  jobStore (fst (stepRequest w1 r1)) = jobStore (fst (stepRequest w2 r2))
  /\ processingRecords (fst (stepRequest w1 r1))
     = processingRecords (fst (stepRequest w2 r2))
  /\ channelKeys (fst (stepRequest w1 r1)) = channelKeys (fst (stepRequest w2 r2))
  /\ untimed (snd (stepRequest w1 r1)) = untimed (snd (stepRequest w2 r2)).
Proof.
  destruct w1 as [js1 pr1 ck1 lg1], w2 as [js2 pr2 ck2 lg2].
  destruct r1 as [c1 t1 j1 cr1 e1 pc1 rs1 jb1 tf1],
           r2 as [c2 t2 j2 cr2 e2 pc2 rs2 jb2 tf2].
  cbn [jobStore processingRecords channelKeys]. intros -> -> -> Hu.
  unfold untimed in Hu. cbn in Hu. injection Hu as -> -> -> -> -> -> -> ->.
  unfold stepRequest. cbn [r_pc r_channelId r_teamId r_jobId r_creatorId r_env
                           r_response r_job r_timerFired processingRecords jobStore].
  destruct pc2.
  - destruct (findOngoing pr2 c2 t2); repeat split; reflexivity.
  - repeat split; reflexivity.
  - destruct (js2 !! j2); repeat split; reflexivity.
  - destruct jb2; [destruct (creatorOwned e2)|]; repeat split; reflexivity.
  - destruct jb2; [destruct (creatorOwned e2)|]; repeat split; reflexivity.
  - repeat split; reflexivity.
Qed.

Lemma fireTimer_untimed (w : World) (r : Request) :
  untimed (snd (fireTimer w r)) = untimed r.
Proof.
  unfold fireTimer. destruct (taskPending r && negb (r_timerFired r)); reflexivity.
Qed.

Lemma replace_nth_same {A : Type} (l : list A) (i : nat) (x : A) :
  List.nth_error l i = Some x ->
  List.firstn i l ++ x :: List.skipn (S i) l = l.
Proof.
  revert i; induction l as [|y l IH]; intros i H.
  - destruct i; discriminate.
  - destruct i as [|i]; simpl in *.
    + injection H as ->. reflexivity.
    + f_equal. apply IH. exact H.
Qed.

Lemma map_replace_nth {A B : Type} (f : A -> B) (l : list A) (i : nat) (x : A) :
  List.map f (List.firstn i l ++ x :: List.skipn (S i) l)
  = List.firstn i (List.map f l) ++ f x :: List.skipn (S i) (List.map f l).
Proof.
  rewrite List.map_app. cbn [List.map].
  rewrite List.firstn_map, List.skipn_map. reflexivity.
Qed.

Lemma applyAt_timer_storesOf (st : State) (i : nat) :
  storesOf (applyAt fireTimer i st) = storesOf st.
Proof.
  unfold applyAt. destruct (List.nth_error (snd st) i) as [r|] eqn:Hn;
    [|reflexivity].
  pose proof (fireTimer_frame (fst st) r) as [H1 [H2 [H3 _]]].
  pose proof (fireTimer_untimed (fst st) r) as H4.
  destruct (fireTimer (fst st) r) as [w' r']. cbn [fst snd] in *.
  unfold storesOf. cbn [fst snd]. rewrite H1, H2, H3.
  rewrite map_replace_nth, H4.
  rewrite <- map_replace_nth, (replace_nth_same _ _ _ Hn). reflexivity.
Qed.

Lemma applyAt_step_storesOf (st1 st2 : State) (i : nat) :
  storesOf st1 = storesOf st2 ->
  storesOf (applyAt stepRequest i st1) = storesOf (applyAt stepRequest i st2).
Proof.
  intros H. unfold storesOf in H. injection H as Hj Hp Hk Hl.
  unfold applyAt.
  assert (Hn : option_map untimed (List.nth_error (snd st1) i)
               = option_map untimed (List.nth_error (snd st2) i)).
  { rewrite <- !List.nth_error_map, Hl. reflexivity. }
  destruct (List.nth_error (snd st1) i) as [r1|],
           (List.nth_error (snd st2) i) as [r2|]; try discriminate.
  - assert (Hu : untimed r1 = untimed r2) by (cbn [option_map] in Hn; congruence).
    destruct (stepRequest_untimed (fst st1) (fst st2) r1 r2 Hj Hp Hk Hu)
      as [H1 [H2 [H3 H4]]].
    destruct (stepRequest (fst st1) r1) as [w1' r1'],
             (stepRequest (fst st2) r2) as [w2' r2']. cbn [fst snd] in *.
    unfold storesOf. cbn [fst snd]. rewrite H1, H2, H3, !map_replace_nth, H4, Hl.
    reflexivity.
  - unfold storesOf. rewrite Hj, Hp, Hk, Hl. reflexivity.
Qed.

(** Whatever the schedule, the job store, the collection and the progress
    of every request are what they would be had no timer gone off. *)
Lemma exec_without_timers (schedule : list Event) (st1 st2 : State) :
  storesOf st1 = storesOf st2 ->
  storesOf (exec schedule st1) = storesOf (exec (List.filter isStep schedule) st2).
Proof.
  unfold exec. revert st1 st2.
  induction schedule as [|e rest IH]; intros st1 st2 H; [exact H|].
  destruct e as [i | i]; cbn [List.filter isStep List.fold_left applyEvent].
  - apply IH. apply applyAt_step_storesOf. exact H.
  - apply IH. rewrite applyAt_timer_storesOf. exact H.
Qed.

(** C3, the behaviour of the code.  The timer goes off while the run is
    in its body: the error is logged, the job stays in status processing
    with no error recorded, the processing record of the channel stays, and
    a second request for the channel is answered 409.  When the body later
    finishes, the job is marked completed.  Whatever the schedule, the job
    store, the collection and the progress of every request are what they
    would be had no timer gone off. *)
Theorem C3_timeout_leaves_job_processing :
  jobStatusOf (exec untilTimeout oneRequest) "job_1" = Some processing
  /\ jobErrorOf (exec untilTimeout oneRequest) "job_1" = None
  /\ processingCount (exec untilTimeout oneRequest) "channel1" "team1" = 1
  /\ errorLog (fst (exec untilTimeout oneRequest))
     = [("Processing failed or timed out: " ++ timeoutMessage)%string]
  /\ includes timeoutMessage "exceeded maximum time limit of 30 minutes" = true
  /\ List.map r_response (snd (exec (untilTimeout ++ [Step 1]) twoRequests))
     = [Some 202; Some 409]
  /\ jobStatusOf (exec (untilTimeout ++ [Step 0]) oneRequest) "job_1"
     = Some completed
  /\ jobErrorOf (exec (untilTimeout ++ [Step 0]) oneRequest) "job_1" = None
  /\ (forall (schedule : list Event) (st : State),
        storesOf (exec schedule st)
        = storesOf (exec (List.filter isStep schedule) st)).
Proof.
  do 8 (split; [vm_compute; reflexivity|]).
  intros schedule st. apply exec_without_timers. reflexivity.
Qed.

End IngestionFacts.

(* ===================================================================== *)
(** ** Further properties of the timestamp alignment *)
(* ===================================================================== *)

Module AlignBounds.
Import JS TimestampMatching.

(** The position of a chunk and the position its window ends at, both
    rounded: between 0 and 1, in this order.  The two quotients are each
    within [2^-54] of [i/n] and [1/n], so that their sum is at most
    [1 + 2^-53], which rounds to 1. *)
Lemma position_bounds (i n : Z) :
  (0 <= i < n)%Z ->
  let position := chunkPositionOf i n in
  let next := Double.add position (Double.div 1%Q (inject_Z n)) in
  (0 <= position)%Q /\ (position <= next)%Q /\ (next <= 1)%Q.
Proof.
  intros [Hi Hin]. cbv zeta. unfold chunkPositionOf, Double.add, Double.div.
  assert (Hn : (0 < inject_Z n)%Q).
  { change 0%Q with (inject_Z 0). rewrite <- Zlt_Qlt. lia. }
  assert (Hinv : (0 < / inject_Z n)%Q) by (apply Qinv_lt_0_compat; exact Hn).
  assert (Hiq : (0 <= inject_Z i)%Q).
  { change 0%Q with (inject_Z 0). rewrite <- Zle_Qle. exact Hi. }
  assert (H0 : (0 <= inject_Z i / inject_Z n)%Q).
  { unfold Qdiv. apply Qmult_le_0_compat; lra. }
  assert (Hy0 : (0 <= 1 / inject_Z n)%Q).
  { unfold Qdiv. apply Qmult_le_0_compat; lra. }
  assert (Hsum : (inject_Z i / inject_Z n + 1 / inject_Z n <= 1)%Q).
  { assert (E : (inject_Z i / inject_Z n + 1 / inject_Z n
                 == inject_Z (i + 1) / inject_Z n)%Q).
    { rewrite inject_Z_plus. change (inject_Z 1) with 1%Q. field.
      intros H. rewrite H in Hn. apply (Qlt_irrefl 0). exact Hn. }
    rewrite E. apply Qle_shift_div_r; [exact Hn|]. rewrite Qmult_1_l.
    rewrite <- Zle_Qle. lia. }
  set (p := Double.round (inject_Z i / inject_Z n)).
  set (y := Double.round (1 / inject_Z n)).
  assert (Hp0 : (0 <= p)%Q) by (apply DoubleFacts.round_nonneg; exact H0).
  assert (Hy : (0 <= y)%Q) by (apply DoubleFacts.round_nonneg; exact Hy0).
  assert (H1 : Double.isDouble 1%Q).
  { apply (DoubleFacts.isDouble_Z 1). reflexivity. }
  split; [exact Hp0|]. split.
  - apply DoubleFacts.round_ge_double; [apply DoubleFacts.round_isDouble | lra].
  - destruct (Z.eq_dec i 0) as [-> | Hne].
    + apply DoubleFacts.round_le_double; [exact H1|].
      assert (Ep : p = 0%Q).
      { unfold p. rewrite (DoubleFacts.round_comp (inject_Z 0 / inject_Z n) 0).
        - reflexivity.
        - unfold Qdiv. change (inject_Z 0) with 0%Q. ring. }
      assert (Hy1 : (y <= 1)%Q).
      { apply DoubleFacts.round_le_double; [exact H1|].
        assert (E0 : (inject_Z 0 / inject_Z n == 0)%Q).
        { unfold Qdiv. change (inject_Z 0) with 0%Q. ring. }
        rewrite E0 in Hsum. lra. }
      rewrite Ep. lra.
    + assert (Hi1 : (1 <= inject_Z i)%Q).
      { change 1%Q with (inject_Z 1). rewrite <- Zle_Qle. lia. }
      assert (Hq1 : (0 < inject_Z i / inject_Z n)%Q).
      { unfold Qdiv. apply Qmult_lt_0_compat; lra. }
      assert (Hq2 : (0 < 1 / inject_Z n)%Q).
      { unfold Qdiv. apply Qmult_lt_0_compat; lra. }
      assert (Hp : (p <= inject_Z i / inject_Z n + Double.pow2 (-54))%Q).
      { apply (DoubleFacts.round_error _ 0); [exact Hq1 | | lia].
        change (Double.pow2 0) with 1%Q. lra. }
      assert (Hyy : (y <= 1 / inject_Z n + Double.pow2 (-54))%Q).
      { apply (DoubleFacts.round_error _ 0); [exact Hq2 | | lia].
        change (Double.pow2 0) with 1%Q. lra. }
      apply Qle_trans with (Double.round (1 + Double.pow2 (-54) + Double.pow2 (-54))).
      * apply DoubleFacts.round_mono. lra.
      * rewrite DoubleFacts.round_tie_at_1. apply Qle_refl.
Qed.

(** X1.  An unmatched chunk gets a window inside the transcript: for a chunk
    index below the number of chunks and a last end time that is not
    negative (and, as every integer here, below [2^53]), the fallback start
    and end, computed in double precision, satisfy
    [0 <= start <= end <= totalDuration]. *)
Theorem unmatched_window_within_duration
    (c : string) (segments : list TimestampSegment) (i n : Z) :
  (0 <= i < n)%Z ->
  (0 <= totalDurationOf segments < 2 ^ 53)%Z ->
  matched (matchChunkToTimestamp c segments i n) = false ->
  (0 <= startTime (matchChunkToTimestamp c segments i n)
   <= endTime (matchChunkToTimestamp c segments i n))%Z
  /\ (endTime (matchChunkToTimestamp c segments i n)
      <= totalDurationOf segments)%Z.
Proof.
  intros Hi HD.
  unfold matchChunkToTimestamp. destruct segments as [|s0 rest].
  - intros _. cbn [startTime endTime]. lia.
  - destruct (findMatchingSegment _ _); [discriminate|]. intros _.
    cbv zeta. cbn [startTime endTime].
    set (D := totalDurationOf (s0 :: rest)) in *.
    destruct (position_bounds i n Hi) as (H0 & H1 & H2). cbv zeta in H1, H2.
    assert (HDq : (0 <= inject_Z D)%Q).
    { change 0%Q with (inject_Z 0). rewrite <- Zle_Qle. lia. }
    assert (HDd : Double.isDouble (inject_Z D)).
    { apply DoubleFacts.isDouble_Z. lia. }
    unfold fallbackStart, fallbackEnd, Double.floor, Double.mul.
    repeat split.
    + change 0%Z with (Qfloor 0). apply Qfloor_resp_le.
      apply DoubleFacts.round_nonneg.
      apply Qmult_le_0_compat; assumption.
    + apply Qfloor_resp_le. apply DoubleFacts.round_mono.
      apply Qmult_le_compat_r; assumption.
    + rewrite <- (Qfloor_Z D) at 2. apply Qfloor_resp_le.
      apply DoubleFacts.round_le_double; [exact HDd|].
      rewrite <- (Qmult_1_l (inject_Z D)) at 2.
      apply Qmult_le_compat_r; assumption.
Qed.

Lemma unmatched_window_within_duration_witness :
  (0 <= startTime (matchChunkToTimestamp "something else entirely"
                     [mkSegment "opening words here" "0:00" 0 60] 4 6)
   <= endTime (matchChunkToTimestamp "something else entirely"
                 [mkSegment "opening words here" "0:00" 0 60] 4 6))%Z
  /\ (endTime (matchChunkToTimestamp "something else entirely"
                 [mkSegment "opening words here" "0:00" 0 60] 4 6)
      <= totalDurationOf [mkSegment "opening words here" "0:00" 0 60])%Z.
Proof.
  apply unmatched_window_within_duration.
  - lia.
  - split; [vm_compute; discriminate | vm_compute; reflexivity].
  - vm_compute. reflexivity.
Defined.

(** A chunk is matched exactly when some segment of the list passes the
    containment test against it; the times and the display it then gets
    are those of a segment of the list that passes the test. *)
Theorem matched_iff_some_segment_passes
    (c : string) (segments : list TimestampSegment) (i n : Z) :
  (matched (matchChunkToTimestamp c segments i n) = true <->
   exists seg, In seg segments
     /\ segmentMatches (chunkFingerprint c) (segmentFingerprint (text seg)) = true)
  /\ (matched (matchChunkToTimestamp c segments i n) = true ->
      exists seg, In seg segments
        /\ segmentMatches (chunkFingerprint c) (segmentFingerprint (text seg)) = true
        /\ matchChunkToTimestamp c segments i n
           = mkMatch (timestampSeconds seg) (endSeconds seg) true
                     (Some (timestampDisplay seg))).
Proof.
  assert (Hfind : forall seg,
            find (fun seg => segmentMatches (chunkFingerprint c)
                               (segmentFingerprint (text seg))) segments = Some seg ->
            In seg segments
            /\ segmentMatches (chunkFingerprint c) (segmentFingerprint (text seg)) = true).
  { intros seg H. apply find_some in H. exact H. }
  unfold matchChunkToTimestamp. destruct segments as [|s0 rest].
  - cbn. split; [split|]; try discriminate.
    intros (seg & [] & _).
  - rewrite AlignFacts.find_map_snd.
    destruct (find _ (s0 :: rest)) as [seg|] eqn:E.
    + destruct (Hfind seg eq_refl) as [Hin Hm].
      split; [split|].
      * intros _. exists seg. split; assumption.
      * intros _. reflexivity.
      * intros _. exists seg. repeat split; assumption.
    + split; [split|]; cbn; try discriminate.
      intros (seg & Hin & Hm).
      pose proof (find_none _ _ E seg Hin) as Hn. cbv beta in Hn. congruence.
Qed.

(** X2.  [includes] of the empty string holds, so an empty fingerprint on
    either side passes the test: a chunk without a word longer than two
    characters, or a first segment without one, gives the chunk the times
    of the first segment. *)
Theorem empty_fingerprint_takes_first_segment
    (c : string) (seg : TimestampSegment) (rest : list TimestampSegment)
    (i n : Z) :
  chunkFingerprint c = EmptyString
  \/ segmentFingerprint (text seg) = EmptyString ->
  matchChunkToTimestamp c (seg :: rest) i n
  = mkMatch (timestampSeconds seg) (endSeconds seg) true
            (Some (timestampDisplay seg)).
Proof.
  intros H.
  assert (Hm : segmentMatches (chunkFingerprint c)
                              (segmentFingerprint (text seg)) = true).
  { unfold segmentMatches. destruct H as [-> | ->].
    - change (substring 0 50 EmptyString) with EmptyString.
      rewrite JSFacts.includes_empty. apply orb_true_r.
    - change (substring 0 50 EmptyString) with EmptyString.
      rewrite JSFacts.includes_empty. reflexivity. }
  unfold matchChunkToTimestamp.
  rewrite AlignFacts.find_map_snd.
  cbn [find]. rewrite Hm. reflexivity.
Qed.

Lemma empty_fingerprint_takes_first_segment_witness :
  matchChunkToTimestamp "to be or no"
    [mkSegment "opening words" "0:00" 0 7;
     mkSegment "to be or no" "0:07" 7 17] 1 2
  = mkMatch 0 7 true (Some "0:00").
Proof.
  apply (empty_fingerprint_takes_first_segment "to be or no"
           (mkSegment "opening words" "0:00" 0 7)).
  left. vm_compute. reflexivity.
Defined.

End AlignBounds.

(* ===================================================================== *)
(** ** Further properties of the result fusion *)
(* ===================================================================== *)

Module FusionShape.
Import JS HybridSearch.

Lemma firstn_incl {A : Type} (n : nat) (l : list A) (x : A) :
  In x (firstn n l) -> In x l.
Proof.
  intros H. rewrite <- (firstn_skipn n l). apply in_or_app. left. exact H.
Qed.

Lemma firstn_NoDup {A : Type} (n : nat) (l : list A) :
  NoDup l -> NoDup (firstn n l).
Proof.
  revert l; induction n as [|n IH]; intros l Hl; [constructor|].
  destruct l as [|x l]; [constructor|].
  inversion Hl as [|? ? Hx Hl']; subst.
  cbn [firstn]. constructor.
  - intros Hin. apply Hx. exact (firstn_incl n l x Hin).
  - apply IH. exact Hl'.
Qed.

Lemma samePrefix_eq (a b : SearchResult) :
  samePrefix a b = true <-> substring 0 100 (text a) = substring 0 100 (text b).
Proof. unfold samePrefix. apply String.eqb_eq. Qed.

Lemma uniqueFrom_prefixes (prev rest : list SearchResult) :
  NoDup (map (fun r => substring 0 100 (text r)) (uniqueFrom prev rest)).
Proof.
  revert prev; induction rest as [|result rest IH]; intros prev;
    cbn [uniqueFrom]; [constructor|].
  destruct (existsb _ prev); [apply IH|].
  cbn [map]. constructor; [|apply IH].
  intros Hin. apply in_map_iff in Hin. destruct Hin as (r' & Hp & Hr').
  apply FusionFacts.uniqueFrom_In in Hr'.
  destruct Hr' as (l1 & l2 & _ & Hall).
  assert (Hf : samePrefix result r' = false).
  { apply Hall. apply in_or_app. left. apply in_or_app. right. left. reflexivity. }
  assert (Ht : samePrefix result r' = true).
  { apply samePrefix_eq. symmetry. exact Hp. }
  congruence.
Qed.

Lemma uniqueFrom_sublist (prev rest : list SearchResult) (r : SearchResult) :
  In r (uniqueFrom prev rest) -> In r rest.
Proof.
  intros H. apply FusionFacts.uniqueFrom_In in H.
  destruct H as (l1 & l2 & -> & _). apply in_or_app. right. left. reflexivity.
Qed.

Lemma uniqueFrom_length (prev rest : list SearchResult) :
  List.length (uniqueFrom prev rest) <= List.length rest.
Proof.
  revert prev; induction rest as [|result rest IH]; intros prev;
    cbn [uniqueFrom List.length]; [lia|].
  specialize (IH (prev ++ [result])).
  destruct (existsb _ prev); cbn [List.length]; lia.
Qed.

Lemma sorted_app_le (l1 l2 : list SearchResult) :
  StronglySorted descending (l1 ++ l2) ->
  forall a b, In a l1 -> In b l2 -> (score b <= score a)%Q.
Proof.
  induction l1 as [|x l1 IH]; intros Hs a b Ha Hb; [destruct Ha|].
  cbn in Hs. inversion Hs as [|? ? Hs' Hall]; subst.
  destruct Ha as [<- | Ha].
  - rewrite Forall_forall in Hall. apply (Hall b).
    apply in_or_app. right. exact Hb.
  - apply IH; assumption.
Qed.

(** X3.  What [fuseAndRankResults] returns: at most [limit] results and at most
    as many as there are candidates; every result is marked [hybrid] and
    carries the text and the metadata of a candidate of one of the two
    lists; no two results agree on their first 100 characters. *)
Theorem fused_results_shape
    (semanticResults keywordResults : list SearchResult)
    (query : string) (limit : nat) :
  let results := fuseAndRankResults semanticResults keywordResults query limit in
  List.length results <= limit
  /\ List.length results
     <= List.length semanticResults + List.length keywordResults
  /\ (forall r, In r results ->
        source r = hybrid
        /\ exists c, In c (semanticResults ++ keywordResults)
             /\ text r = text c /\ metadata r = metadata c
             /\ score r = hybridScore query c)
  /\ NoDup (map (fun r => substring 0 100 (text r)) results).
Proof.
  cbv zeta. unfold fuseAndRankResults.
  set (candidates := uniqueResults (semanticResults ++ keywordResults)).
  set (ranked := sortByScore (map (scoreResult query) candidates)).
  assert (Hperm : Permutation ranked (map (scoreResult query) candidates))
    by apply FusionFacts.sortByScore_perm.
  assert (Hlen : List.length ranked <= List.length (semanticResults ++ keywordResults)).
  { rewrite (Permutation_length Hperm), length_map. apply uniqueFrom_length. }
  split; [apply firstn_le_length|].
  split.
  { rewrite length_app in Hlen.
    pose proof (firstn_le_length limit ranked) as H1.
    rewrite length_firstn. lia. }
  split.
  - intros r Hr. apply firstn_incl in Hr.
    apply (Permutation_in _ Hperm) in Hr.
    apply in_map_iff in Hr. destruct Hr as (c & Hrc & Hc). subst r.
    split; [reflexivity|]. exists c. split.
    + exact (uniqueFrom_sublist _ _ _ Hc).
    + split; [reflexivity|]. split; reflexivity.
  - rewrite <- firstn_map. apply firstn_NoDup.
    apply (Permutation_NoDup
             (l := map (fun r => substring 0 100 (text r))
                       (map (scoreResult query) candidates))).
    + apply Permutation_map. symmetry. exact Hperm.
    + rewrite map_map. cbn [scoreResult text]. apply uniqueFrom_prefixes.
Qed.

(** X4.  Truncation keeps the best candidates: a candidate that survives the
    deduplication but is not among the results scores no higher than any
    result, and the first result scores at least as high as every surviving
    candidate. *)
Theorem fused_results_keep_the_best
    (semanticResults keywordResults : list SearchResult)
    (query : string) (limit : nat) :
  let candidates := uniqueResults (semanticResults ++ keywordResults) in
  let results := fuseAndRankResults semanticResults keywordResults query limit in
  (forall r c, In r results -> In c candidates ->
     ~ In (scoreResult query c) results ->
     (hybridScore query c <= score r)%Q)
  /\ (forall first rest c, results = first :: rest -> In c candidates ->
        (hybridScore query c <= score first)%Q).
Proof.
  cbv zeta. unfold fuseAndRankResults.
  set (candidates := uniqueResults (semanticResults ++ keywordResults)).
  set (ranked := sortByScore (map (scoreResult query) candidates)).
  assert (Hperm : Permutation ranked (map (scoreResult query) candidates))
    by apply FusionFacts.sortByScore_perm.
  assert (Hsorted : StronglySorted descending ranked)
    by apply FusionFacts.sortByScore_sorted.
  assert (Hin : forall c, In c candidates -> In (scoreResult query c) ranked).
  { intros c Hc. apply (Permutation_in _ (Permutation_sym Hperm)).
    apply in_map. exact Hc. }
  split.
  - intros r c Hr Hc Hout.
    rewrite <- (firstn_skipn limit ranked) in Hsorted.
    change (hybridScore query c) with (score (scoreResult query c)).
    apply (sorted_app_le _ _ Hsorted); [exact Hr|].
    specialize (Hin c Hc). rewrite <- (firstn_skipn limit ranked) in Hin.
    apply in_app_or in Hin. destruct Hin as [Hin | Hin]; [contradiction | exact Hin].
  - intros first rest c Hres Hc. specialize (Hin c Hc).
    destruct ranked as [|x ranked'].
    + destruct Hin.
    + destruct limit as [|limit]; [discriminate|].
      cbn [firstn] in Hres. injection Hres as <- _.
      destruct Hin as [Heq | Hin]; [subst x; apply Qle_refl|].
      inversion Hsorted as [|? ? _ Hall]; subst.
      rewrite Forall_forall in Hall.
      change (hybridScore query c) with (score (scoreResult query c)).
      apply (Hall _ Hin).
Qed.

Lemma semanticResultsFrom_nth (k : nat) (chunks : list string) (i : nat)
    (r : SearchResult) :
  nth_error (semanticResultsFrom k chunks) i = Some r ->
  nth_error chunks i = Some (text r)
  /\ score r = rankScore (k + i)
  /\ source r = semantic.
Proof.
  revert k i; induction chunks as [|t rest IH]; intros k i H.
  - destruct i; discriminate.
  - destruct i as [|i]; cbn [nth_error semanticResultsFrom] in H.
    + injection H as <-. rewrite Nat.add_0_r. repeat split.
    + apply IH in H. rewrite Nat.add_succ_r. exact H.
Qed.

(** The doubles the proof below rests on: the score of rank 15 is
    positive, that of rank 16 is zero (16 times the double of 0.05 rounds
    to the double of 0.8), that of rank 17 is negative; and a boost is a
    factor of at least the double of 1.1, well above the [1 + 2^-53] that
    rounding could take back. *)
Lemma rankScore_15 : (0 < rankScore 15)%Q.
Proof. vm_compute. reflexivity. Qed.

Lemma rankScore_16 : rankScore 16 = 0%Q.
Proof. vm_compute. reflexivity. Qed.

Lemma lateWeighted_negative :
  (Double.mul (rankScore 17) (Double.literal (7 # 10)) < 0)%Q.
Proof. vm_compute. reflexivity. Qed.

Lemma lateBoosted_normal :
  (Double.pow2 (-1022)
   <= - Double.mul (rankScore 17) (Double.literal (7 # 10)) * boost 1)%Q.
Proof. vm_compute. discriminate. Qed.

Lemma boost_1_margin : (1 < boost 1 * (1 - Double.pow2 (-53)))%Q.
Proof. vm_compute. reflexivity. Qed.

(** X5.  The score [0.8 - index * 0.05] of a semantic candidate is positive
    for the ranks below 16 only.  For a candidate of a later rank the
    score is negative, and the keyword boost, a factor above 1, then turns
    against it: the more words of the query its text contains, the lower
    its hybrid score, and with any such word the score is strictly lower
    than with none.  All of it in double precision. *)
Theorem late_rank_boost_lowers_score
    (chunks : list string) (i : nat) (r : SearchResult) (q1 q2 : string) :
  nth_error (performSemanticSearch chunks) i = Some r ->
  ((0 < score r)%Q <-> i < 16)
  /\ (16 < i ->
      keywordMatches q1 (text r) <= keywordMatches q2 (text r) ->
      (hybridScore q2 r <= hybridScore q1 r)%Q)
  /\ (16 < i ->
      keywordMatches q1 (text r) = 0 -> 0 < keywordMatches q2 (text r) ->
      (hybridScore q2 r < hybridScore q1 r)%Q).
Proof.
  intros H. apply semanticResultsFrom_nth in H.
  destruct H as (_ & Hs & Hsrc). cbn [Nat.add] in Hs.
  split.
  { rewrite Hs. split.
    - intros Hpos. destruct (Nat.lt_ge_cases i 16) as [Hlt | Hge]; [exact Hlt|].
      exfalso. pose proof (FusionFacts.rankScore_antitone 16 i Hge) as Hle.
      rewrite rankScore_16 in Hle. lra.
    - intros Hlt.
      assert (Hle : (rankScore 15 <= rankScore i)%Q).
      { apply FusionFacts.rankScore_antitone. lia. }
      pose proof rankScore_15. lra. }
  set (w := Double.literal (7 # 10)).
  assert (Hw : (0 <= w)%Q) by (apply DoubleFacts.round_nonneg; discriminate).
  assert (Hlate : 16 < i ->
            (Double.mul (score r) w <= Double.mul (rankScore 17) w)%Q).
  { intros Hi. rewrite Hs. unfold Double.mul. apply DoubleFacts.round_mono.
    apply Qmult_le_compat_r; [|exact Hw].
    apply FusionFacts.rankScore_antitone. lia. }
  pose proof lateWeighted_negative as Hneg17. fold w in Hneg17.
  assert (Hx : Double.isDouble (Double.mul (score r) w))
    by apply DoubleFacts.round_isDouble.
  unfold hybridScore, sourceWeighted. cbv zeta. rewrite Hsrc. fold w.
  set (x := Double.mul (score r) w) in *.
  set (k1 := keywordMatches q1 (text r)).
  set (k2 := keywordMatches q2 (text r)).
  split.
  - intros Hi Hk. specialize (Hlate Hi).
    pose proof (FusionFacts.boost_least k1) as Hb1.
    pose proof (FusionFacts.boost_least k2) as Hb2.
    pose proof (FusionFacts.boost_mono k1 k2 Hk) as Hb.
    destruct (0 <? k1) eqn:E1; destruct (0 <? k2) eqn:E2.
    + unfold Double.mul. apply DoubleFacts.round_mono.
      assert (H0 : (0 <= (- x) * (boost k2 - boost k1))%Q).
      { apply Qmult_le_0_compat; lra. }
      lra.
    + apply Nat.ltb_lt in E1. apply Nat.ltb_ge in E2. lia.
    + unfold Double.mul. apply DoubleFacts.round_le_double; [exact Hx|].
      assert (H0 : (0 <= (- x) * (boost k2 - 1))%Q).
      { apply Qmult_le_0_compat; lra. }
      lra.
    + apply Qle_refl.
  - intros Hi Hk1 Hk2. specialize (Hlate Hi).
    apply Nat.ltb_lt in Hk2. rewrite Hk2.
    assert (E1 : (0 <? k1) = false) by (apply Nat.ltb_ge; lia).
    rewrite E1. apply Nat.ltb_lt in Hk2.
    pose proof (FusionFacts.boost_mono 1 k2 Hk2) as Hb.
    pose proof (FusionFacts.boost_least 1) as Hb1.
    pose proof lateBoosted_normal as Hnormal. fold w in Hnormal.
    pose proof boost_1_margin as Hmargin.
    pose proof (DoubleFacts.pow2_pos (-53)) as Hp.
    assert (Hp1 : (Double.pow2 (-53) <= 1)%Q) by (vm_compute; discriminate).
    set (y := (- x * boost k2)%Q).
    assert (Hy1 : (- x * boost 1 <= y)%Q).
    { unfold y. assert (H0 : (0 <= (- x) * (boost k2 - boost 1))%Q).
      { apply Qmult_le_0_compat; lra. }
      lra. }
    assert (Hy0 : (- Double.mul (rankScore 17) w * boost 1 <= - x * boost 1)%Q).
    { apply Qmult_le_compat_r; lra. }
    destruct (DoubleFacts.round_relative y) as [Hrel _]; [lra|].
    assert (Hgt : (- x < Double.round y)%Q).
    { assert (H1 : (- x <= - x * (boost 1 * (1 - Double.pow2 (-53))))%Q).
      { assert (H0 : (0 <= (- x) * (boost 1 * (1 - Double.pow2 (-53)) - 1))%Q).
        { apply Qmult_le_0_compat; lra. }
        lra. }
      assert (H2 : (- x * boost 1 * (1 - Double.pow2 (-53))
                    <= y * (1 - Double.pow2 (-53)))%Q).
      { apply Qmult_le_compat_r; lra. }
      assert (H3 : (- x < - x * (boost 1 * (1 - Double.pow2 (-53))))%Q).
      { assert (H0 : (0 < (- x) * (boost 1 * (1 - Double.pow2 (-53)) - 1))%Q).
        { apply Qmult_lt_0_compat; lra. }
        lra. }
      lra. }
    unfold Double.mul at 1.
    assert (E : (Double.round (x * boost k2) == - Double.round y)%Q).
    { rewrite <- DoubleFacts.round_opp.
      rewrite (DoubleFacts.round_comp (x * boost k2) (- y)); [reflexivity|].
      unfold y. ring. }
    rewrite E. lra.
Qed.

Lemma late_rank_boost_lowers_score_witness :
  (hybridScore "alpha beta" (mkResult "alpha beta" (rankScore 17) semantic
                                      (mkMetadata "unknown" 17))
   < hybridScore "nothing" (mkResult "alpha beta" (rankScore 17) semantic
                                     (mkMetadata "unknown" 17)))%Q.
Proof.
  apply (proj2 (proj2 (late_rank_boost_lowers_score
                  (List.repeat "alpha beta" 18) 17 _ "nothing" "alpha beta"
                  eq_refl))).
  - lia.
  - vm_compute. reflexivity.
  - vm_compute. lia.
Defined.

End FusionShape.

(* ===================================================================== *)
(** ** Further properties of the two stores *)
(* ===================================================================== *)

Module BatchFacts.
Import JS Storage.

Lemma windows_batches {A : Type} (fuel : nat) (l : list A) :
  List.length l <= fuel ->
  Forall (fun b => 1 <= List.length b <= 100) (windows fuel 100 100 l)
  /\ List.length (windows fuel 100 100 l) = (List.length l + 99) / 100.
Proof.
  revert l; induction fuel as [|fuel IH]; intros l Hl.
  - destruct l; [|cbn in Hl; lia]. split; [constructor | reflexivity].
  - destruct l as [|x l]; [split; [constructor | reflexivity]|].
    cbn [windows].
    assert (Hs : List.length (skipn 100 (x :: l)) <= fuel).
    { rewrite length_skipn. cbn [List.length] in *. lia. }
    destruct (IH _ Hs) as [Hall Hn]. split.
    + constructor; [|exact Hall].
      rewrite length_firstn. cbn [List.length]. lia.
    + cbn [List.length]. rewrite Hn. rewrite length_skipn.
      cbn [List.length].
      destruct (Nat.le_gt_cases 100 (S (List.length l))) as [Hge | Hlt].
      * replace (S (List.length l) + 99)
          with ((S (List.length l) - 100 + 99) + 1 * 100) by lia.
        rewrite Nat.div_add by lia. lia.
      * replace (S (List.length l) - 100) with 0 by lia.
        change ((0 + 99) / 100) with 0.
        apply (Nat.div_unique _ 100 1 (List.length l)); lia.
Qed.

(** X6.  The batches the upload loop sends: between 1 and 100 vectors each,
    [ceil(vectors.length / 100)] of them, and, put end to end in the order
    they are sent, exactly the vectors, each one once. *)
Theorem upload_batches_partition_vectors (vectors : list PineconeRecord) :
  let batches := windows (List.length vectors) 100 100 vectors in
  List.concat batches = vectors
  /\ Forall (fun b => 1 <= List.length b <= 100) batches
  /\ List.length batches = (List.length vectors + 99) / 100.
Proof.
  cbv zeta. split.
  - apply JSFacts.concat_windows; lia.
  - apply windows_batches. lia.
Qed.

End BatchFacts.

Module StoreFacts.
Import stdpp.base stdpp.gmap stdpp.strings.
Import JS JSFacts Storage.

Lemma append_cancel_l (s a b : string) :
  (s ++ a)%string = (s ++ b)%string -> a = b.
Proof.
  induction s as [|c s IH]; intros H; [exact H|].
  apply IH. change (String c (s ++ a)%string = String c (s ++ b)%string) in H.
  congruence.
Qed.

Lemma numberToString_inj (i j : nat) :
  numberToString i = numberToString j -> i = j.
Proof.
  unfold numberToString. intros H.
  assert (Hn : forall n, Nat.to_uint n <> Decimal.Nil).
  { intros n E. pose proof (f_equal Nat.of_uint E) as E0.
    rewrite DecimalNat.Unsigned.of_to in E0. cbn in E0. subst n.
    vm_compute in E. discriminate. }
  apply (f_equal NilZero.uint_of_string) in H.
  rewrite !NilZero.usu in H by apply Hn.
  injection H as H. apply (f_equal Nat.of_uint) in H.
  rewrite !DecimalNat.Unsigned.of_to in H. exact H.
Qed.

(** The id distinguishes the chunks of one video. *)
Lemma vectorId_inj (creatorId videoId : string) (i j : nat) :
  vectorId creatorId videoId i = vectorId creatorId videoId j -> i = j.
Proof.
  unfold vectorId. intros H.
  apply append_cancel_l in H.
  change (("_" ++ videoId ++ "_" ++ numberToString i)%string)
    with (String "_" (videoId ++ "_" ++ numberToString i)%string) in H.
  change (("_" ++ videoId ++ "_" ++ numberToString j)%string)
    with (String "_" (videoId ++ "_" ++ numberToString j)%string) in H.
  injection H as H. apply append_cancel_l in H.
  change (("_" ++ numberToString i)%string)
    with (String "_" (numberToString i)) in H.
  change (("_" ++ numberToString j)%string)
    with (String "_" (numberToString j)) in H.
  injection H as H. apply numberToString_inj. exact H.
Qed.

Lemma embedChunks_cons (createEmbedding : string -> Result Embedding)
    (title : option string) (i : nat) (doc : LangChainDocument)
    (rest : list LangChainDocument) (l : list EmbeddedChunk) :
  embedChunks createEmbedding title i (doc :: rest) = Ok l ->
  (pageContent doc = EmptyString
   /\ embedChunks createEmbedding title (S i) rest = Ok l)
  \/ (exists e l',
        pageContent doc <> EmptyString
        /\ createEmbedding (pageContent doc) = Ok e /\ e <> []
        /\ embedChunks createEmbedding title (S i) rest = Ok l'
        /\ l = mkEmbeddedChunk (pageContent doc) e i title
                 (md_startTime doc) (md_endTime doc) :: l').
Proof.
  cbn [embedChunks]. destruct (pageContent doc) as [|a s] eqn:Ep.
  - intros H. left. split; [reflexivity | exact H].
  - destruct (createEmbedding (String a s)) as [e | msg] eqn:Ee; [|discriminate].
    destruct e as [|x e]; [discriminate|].
    destruct (embedChunks createEmbedding title (S i) rest) as [l' | msg];
      [|discriminate].
    intros H. injection H as <-. right. exists (x :: e), l'.
    repeat split; try reflexivity; discriminate.
Qed.

(** The chunks the embedding loop returns are numbered by their position
    in the input, from [i] on, in increasing order. *)
Lemma embedChunks_indices (createEmbedding : string -> Result Embedding)
    (title : option string) (chunks : list LangChainDocument) (i : nat)
    (l : list EmbeddedChunk) :
  embedChunks createEmbedding title i chunks = Ok l ->
  (forall e, In e l -> i <= chunkIndex e)
  /\ List.NoDup (map chunkIndex l).
Proof.
  revert i l; induction chunks as [|doc rest IH]; intros i l H.
  - injection H as <-. split; [intros e [] | constructor].
  - apply embedChunks_cons in H.
    destruct H as [[_ H] | (e & l' & _ & _ & _ & H & ->)];
      destruct (IH _ _ H) as [Hge Hnd].
    + split; [|exact Hnd]. intros x Hx. specialize (Hge x Hx). lia.
    + split.
      * intros x [<- | Hx]; [cbn; lia|]. specialize (Hge x Hx). lia.
      * cbn [map chunkIndex]. constructor; [|exact Hnd].
        intros Hin. apply in_map_iff in Hin. destruct Hin as (x & Hx & Hin).
        specialize (Hge x Hin). lia.
Qed.

Lemma embedChunks_nth (createEmbedding : string -> Result Embedding)
    (title : option string) (chunks : list LangChainDocument) (i : nat)
    (l : list EmbeddedChunk) (k : nat) (doc : LangChainDocument) :
  embedChunks createEmbedding title i chunks = Ok l ->
  nth_error chunks k = Some doc -> pageContent doc <> EmptyString ->
  exists e, createEmbedding (pageContent doc) = Ok e /\ e <> []
    /\ In (mkEmbeddedChunk (pageContent doc) e (i + k) title
             (md_startTime doc) (md_endTime doc)) l.
Proof.
  revert i l k; induction chunks as [|d rest IH]; intros i l k H Hk Hne.
  - destruct k; discriminate.
  - apply embedChunks_cons in H. destruct k as [|k]; cbn in Hk.
    + injection Hk as ->.
      destruct H as [[Hp _] | (e & l' & _ & He & Hnil & _ & ->)]; [congruence|].
      exists e. rewrite Nat.add_0_r. repeat split; try assumption. left. reflexivity.
    + destruct H as [[_ H] | (e0 & l' & _ & _ & _ & H & ->)];
        destruct (IH _ _ _ H Hk Hne) as (e & He & Hnil & Hin);
        exists e; rewrite Nat.add_succ_r; repeat split; try assumption.
      right. exact Hin.
Qed.

(** X7.  The embedding loop is all or nothing: it returns chunks exactly when
    every non-empty document gets a non-empty embedding, and it then
    returns one chunk for each non-empty document. *)
Theorem embedChunks_all_or_nothing
    (createEmbedding : string -> Result Embedding)
    (title : option string) (chunks : list LangChainDocument) (i : nat) :
  ((exists l, embedChunks createEmbedding title i chunks = Ok l) <->
   (forall doc, In doc chunks -> pageContent doc <> EmptyString ->
      exists e, createEmbedding (pageContent doc) = Ok e /\ e <> []))
  /\ (forall l, embedChunks createEmbedding title i chunks = Ok l ->
        List.length l
        = List.length
            (List.filter (fun doc => negb (String.eqb (pageContent doc) EmptyString))
                         chunks)).
Proof.
  split; [split|].
  - intros [l H] doc Hin Hne.
    apply In_nth_error in Hin. destruct Hin as [k Hk].
    destruct (embedChunks_nth _ _ _ _ _ _ _ H Hk Hne) as (e & He & Hnil & _).
    exists e. split; assumption.
  - revert i; induction chunks as [|doc rest IH]; intros i Hall.
    + exists []. reflexivity.
    + destruct (IH (S i)) as [l' Hl'].
      { intros d Hd. apply Hall. right. exact Hd. }
      cbn [embedChunks]. destruct (pageContent doc) as [|a s] eqn:Ep.
      * exists l'. exact Hl'.
      * destruct (Hall doc) as (e & He & Hnil).
        { left. reflexivity. }
        { rewrite Ep. discriminate. }
        rewrite Ep in He. rewrite He. destruct e as [|x e]; [congruence|].
        rewrite Hl'. eexists. reflexivity.
  - revert i; induction chunks as [|doc rest IH]; intros i l H.
    + injection H as <-. reflexivity.
    + apply embedChunks_cons in H. cbn [List.filter].
      destruct H as [[Hp H] | (e & l' & Hp & _ & _ & H & ->)].
      * rewrite Hp. cbn. apply (IH _ _ H).
      * apply String.eqb_neq in Hp. rewrite Hp. cbn. f_equal. apply (IH _ _ H).
Qed.

Lemma embedChunks_all_or_nothing_witness :
  exists l, embedChunks Examples.constantEmbedding (Some "Welcome") 0
                        Examples.oneChunk = Ok l.
Proof.
  apply (proj2 (proj1 (embedChunks_all_or_nothing Examples.constantEmbedding
                         (Some "Welcome") Examples.oneChunk 0))).
  intros doc _ _. exists [1%Q]. split; [reflexivity | discriminate].
Defined.

Lemma NoDup_map_eq {A B : Type} (f : A -> B) (l : list A) (a b : A) :
  List.NoDup (map f l) -> In a l -> In b l -> f a = f b -> a = b.
Proof.
  induction l as [|x l IH]; intros Hnd Ha Hb E; [destruct Ha|].
  cbn [map] in Hnd. inversion Hnd as [|? ? Hx Hnd']; subst.
  destruct Ha as [-> | Ha], Hb as [-> | Hb].
  - reflexivity.
  - exfalso. apply Hx. rewrite E. apply in_map. exact Hb.
  - exfalso. apply Hx. rewrite <- E. apply in_map. exact Ha.
  - apply IH; assumption.
Qed.

(** Each record of a batch whose ids are distinct is found under its id. *)
Lemma upsert_lookup_distinct (index : gmap string PineconeRecord)
    (batch : list PineconeRecord) (v : PineconeRecord) :
  List.NoDup (map id batch) -> In v batch -> upsert index batch !! id v = Some v.
Proof.
  intros Hnd Hin. rewrite StorageFacts.upsert_lookup.
  destruct (List.find _ (rev batch)) as [v' |] eqn:E.
  - apply find_some in E. destruct E as [Hin' Hid].
    apply String.eqb_eq in Hid. apply in_rev in Hin'.
    f_equal. apply (NoDup_map_eq id batch); assumption.
  - apply in_rev in Hin. pose proof (find_none _ _ E v Hin) as Hf.
    cbv beta in Hf. rewrite String.eqb_refl in Hf. discriminate.
Qed.

Lemma upsert_lookup_other (index : gmap string PineconeRecord)
    (batch : list PineconeRecord) (k : string) :
  (forall v, In v batch -> id v <> k) -> upsert index batch !! k = index !! k.
Proof.
  intros Hall. rewrite StorageFacts.upsert_lookup.
  destruct (List.find _ (rev batch)) as [v' |] eqn:E; [|reflexivity].
  apply find_some in E. destruct E as [Hin Hid].
  apply String.eqb_eq in Hid. apply in_rev in Hin. destruct (Hall _ Hin Hid).
Qed.

Lemma embedded_ids_distinct (createEmbedding : string -> Result Embedding)
    (title : option string) (chunks : list LangChainDocument)
    (creatorId videoId now : string) (l : list EmbeddedChunk) :
  embedChunks createEmbedding title 0 chunks = Ok l ->
  List.NoDup (map id (map (vectorOf creatorId videoId now) l)).
Proof.
  intros H. apply embedChunks_indices in H. destruct H as [_ Hnd].
  rewrite StorageFacts.map_id_vectorOf.
  induction l as [|e l IH]; [constructor|].
  cbn [map] in *. inversion Hnd as [|? ? Hx Hnd']; subst.
  constructor; [|apply IH; exact Hnd'].
  intros Hin. apply in_map_iff in Hin. destruct Hin as (x & Hid & Hin).
  apply vectorId_inj in Hid. apply Hx. rewrite <- Hid. apply in_map. exact Hin.
Qed.

(** X8.  After a successful [storeTranscriptChunks], every non-empty chunk of
    the input is in both stores under its position [k] in the input: the
    index holds, under the id [creatorId_videoId_k], a record with the
    chunk's embedding and the first 5000 characters of its text, and the
    collection holds a document with the whole text. *)
Theorem stored_chunk_is_retrievable
    (createEmbedding : string -> Result Embedding) (now : string)
    (stores stores1 : Stores) (creatorId videoId : string)
    (chunks : list LangChainDocument)
    (videoTitle videoUrl thumbnailUrl : option string)
    (segments : list TimestampMatching.TimestampSegment)
    (k : nat) (doc : LangChainDocument) :
  storeTranscriptChunks createEmbedding now stores creatorId videoId chunks
                        videoTitle videoUrl thumbnailUrl segments = Ok stores1 ->
  nth_error chunks k = Some doc ->
  pageContent doc <> EmptyString ->
  (exists record,
     pinecone stores1 !! vectorId creatorId videoId k = Some record
     /\ id record = vectorId creatorId videoId k
     /\ createEmbedding (pageContent doc) = Ok (values record)
     /\ vm_chunkIndex (metadata record) = k
     /\ vm_text (metadata record) = substring 0 5000 (pageContent doc))
  /\ (exists d,
        In d (transcript_chunks stores1)
        /\ doc_creatorId d = creatorId /\ doc_videoId d = videoId
        /\ doc_chunkIndex d = k /\ doc_text d = pageContent doc).
Proof.
  intros Hrun Hk Hne.
  destruct (StorageFacts.storeTranscriptChunks_ok _ _ _ _ _ _ _ _ _ _ _ Hrun)
    as (embedded & Hemb & _ & ->).
  destruct (embedChunks_nth _ _ _ _ _ _ _ Hemb Hk Hne) as (e & He & _ & Hin).
  cbn [Nat.add] in Hin. cbn [pinecone transcript_chunks].
  set (chunk := mkEmbeddedChunk (pageContent doc) e k videoTitle
                  (md_startTime doc) (md_endTime doc)) in *.
  split.
  - exists (vectorOf creatorId videoId now chunk).
    split; [|repeat split; exact He].
    rewrite StorageFacts.storeToPinecone_upsert.
    apply (upsert_lookup_distinct _ _ (vectorOf creatorId videoId now chunk)).
    + exact (embedded_ids_distinct _ _ _ _ _ _ _ Hemb).
    + apply in_map. exact Hin.
  - exists (documentOf creatorId videoId now videoTitle videoUrl thumbnailUrl
                       segments (List.length embedded) chunk).
    split; [|repeat split].
    unfold insertMany. apply in_or_app. right. apply in_map. exact Hin.
Qed.

Lemma stored_chunk_is_retrievable_witness :
  (exists record,
     pinecone Examples.firstRun !! vectorId "creator1" "video1" 0 = Some record
     /\ id record = vectorId "creator1" "video1" 0
     /\ Examples.constantEmbedding "welcome everybody today" = Ok (values record)
     /\ vm_chunkIndex (metadata record) = 0
     /\ vm_text (metadata record) = substring 0 5000 "welcome everybody today")
  /\ (exists d,
        In d (transcript_chunks Examples.firstRun)
        /\ doc_creatorId d = "creator1" /\ doc_videoId d = "video1"
        /\ doc_chunkIndex d = 0 /\ doc_text d = "welcome everybody today").
Proof.
  apply (stored_chunk_is_retrievable Examples.constantEmbedding
           "2025-01-01T10:00:00.000Z" Examples.emptyStores Examples.firstRun
           "creator1" "video1" Examples.oneChunk (Some "Welcome") None None
           [TimestampMatching.mkSegment "welcome everybody today" "0:00" 0 5]
           0 (mkDocument "welcome everybody today" (Some 0%Z) (Some 5%Z))).
  - reflexivity.
  - reflexivity.
  - discriminate.
Defined.

(** X9.  A successful [storeTranscriptChunks] writes under the ids of its own
    video only: every other key of the index keeps what it had, and the
    collection keeps its documents, in order, followed by the new ones,
    which all carry the creator and the video of the call. *)
Theorem store_leaves_other_entries
    (createEmbedding : string -> Result Embedding) (now : string)
    (stores stores1 : Stores) (creatorId videoId : string)
    (chunks : list LangChainDocument)
    (videoTitle videoUrl thumbnailUrl : option string)
    (segments : list TimestampMatching.TimestampSegment) :
  storeTranscriptChunks createEmbedding now stores creatorId videoId chunks
                        videoTitle videoUrl thumbnailUrl segments = Ok stores1 ->
  (forall key, (forall k, key <> vectorId creatorId videoId k) ->
     pinecone stores1 !! key = pinecone stores !! key)
  /\ exists documents,
       transcript_chunks stores1 = (transcript_chunks stores ++ documents)%list
       /\ documents <> []
       /\ Forall (fun d => doc_creatorId d = creatorId /\ doc_videoId d = videoId)
                 documents.
Proof.
  intros Hrun.
  destruct (StorageFacts.storeTranscriptChunks_ok _ _ _ _ _ _ _ _ _ _ _ Hrun)
    as (embedded & Hemb & Hne & ->).
  cbn [pinecone transcript_chunks]. split.
  - intros key Hkey. rewrite StorageFacts.storeToPinecone_upsert.
    apply upsert_lookup_other. intros v Hv.
    apply in_map_iff in Hv. destruct Hv as (e & <- & _).
    intros E. apply (Hkey (chunkIndex e)). symmetry. exact E.
  - eexists. split; [reflexivity|]. split.
    + destruct embedded; [congruence | discriminate].
    + apply List.Forall_forall. intros d Hd.
      apply in_map_iff in Hd. destruct Hd as (e & <- & _). split; reflexivity.
Qed.

Lemma store_leaves_other_entries_witness :
  (forall key, (forall k, key <> vectorId "creator1" "video1" k) ->
     pinecone Examples.firstRun !! key = pinecone Examples.emptyStores !! key)
  /\ exists documents,
       transcript_chunks Examples.firstRun
       = (transcript_chunks Examples.emptyStores ++ documents)%list
       /\ documents <> []
       /\ Forall (fun d => doc_creatorId d = "creator1" /\ doc_videoId d = "video1")
                 documents.
Proof.
  apply (store_leaves_other_entries Examples.constantEmbedding
           "2025-01-01T10:00:00.000Z" Examples.emptyStores Examples.firstRun
           "creator1" "video1" Examples.oneChunk (Some "Welcome") None None
           [TimestampMatching.mkSegment "welcome everybody today" "0:00" 0 5]).
  reflexivity.
Defined.

(** X10.  Without content nothing is stored: the call throws for an empty list
    of chunks, and for chunks whose texts are all empty, before either
    store is written. *)
Theorem store_throws_without_content
    (createEmbedding : string -> Result Embedding) (now : string)
    (stores : Stores) (creatorId videoId : string)
    (chunks : list LangChainDocument)
    (videoTitle videoUrl thumbnailUrl : option string)
    (segments : list TimestampMatching.TimestampSegment) :
  (forall doc, In doc chunks -> pageContent doc = EmptyString) ->
  storeTranscriptChunks createEmbedding now stores creatorId videoId chunks
                        videoTitle videoUrl thumbnailUrl segments
  = match chunks with
    | [] => Throw "No chunks provided for storage"
    | _ :: _ => Throw "No valid embeddings created from chunks"
    end.
Proof.
  intros Hall. unfold storeTranscriptChunks.
  destruct chunks as [|c0 rest]; [reflexivity|].
  assert (H : forall i l, (forall doc, In doc l -> pageContent doc = EmptyString) ->
                embedChunks createEmbedding videoTitle i l = Ok []).
  { intros i l; revert i; induction l as [|d l IH]; intros i Hl; [reflexivity|].
    cbn [embedChunks]. rewrite (Hl d) by (left; reflexivity).
    apply IH. intros doc Hd. apply Hl. right. exact Hd. }
  rewrite (H 0 (c0 :: rest) Hall). reflexivity.
Qed.

Lemma store_throws_without_content_witness :
  storeTranscriptChunks Examples.constantEmbedding "2025-01-01T10:00:00.000Z"
    Examples.emptyStores "creator1" "video1"
    [mkDocument EmptyString None None] None None None []
  = Throw "No valid embeddings created from chunks".
Proof.
  apply (store_throws_without_content Examples.constantEmbedding
           "2025-01-01T10:00:00.000Z" Examples.emptyStores "creator1" "video1"
           [mkDocument EmptyString None None] None None None []).
  intros doc [<- | []]. reflexivity.
Defined.

End StoreFacts.

(* ===================================================================== *)
(** ** Further properties of the ingestion job *)
(* ===================================================================== *)

Module JobFacts.
Import JS Ingestion.
Import Storage (Result, Ok, Throw).

(** The counters of the video loop: each video is counted once, as
    processed or as failed, and once more as failed when its progress
    write throws after it was counted as processed; a processed video has
    a valid duration and adds at least one chunk; the progress is the
    position of the last video whose progress was set. *)
Lemma processVideos_counts (outcome : Video -> VideoOutcome)
    (videos : list Video) (i : nat) (acc : Counters) :
  let c := processVideos outcome i videos acc in
  c_processedVideos c + c_failedVideos c
  = c_processedVideos acc + c_failedVideos acc + List.length videos
    + progressWriteFailures outcome videos
  /\ c_processedVideos acc <= c_processedVideos c
  /\ c_processedVideos c <= c_processedVideos acc + videosWithValidDuration videos
  /\ c_processedVideos c + c_totalChunks acc
     <= c_totalChunks c + c_processedVideos acc
  /\ ((c_processedVideos c = c_processedVideos acc
       /\ c_progressCurrent c = c_progressCurrent acc)
      \/ (i + (c_processedVideos c - c_processedVideos acc) <= c_progressCurrent c
          /\ c_progressCurrent c <= i + List.length videos)).
Proof.
  cbv zeta. revert i acc.
  induction videos as [|video rest IH]; intros i acc.
  - cbn. repeat split; lia.
  - cbn [processVideos]. unfold videosWithValidDuration, progressWriteFailures in *.
    cbn [List.filter].
    set (failedOne := mkCounters (c_processedVideos acc) (c_totalChunks acc)
                        (S (c_failedVideos acc)) (c_progressCurrent acc)).
    pose proof (IH (S i) failedOne) as Hfail. cbn in Hfail.
    destruct (validDuration video) eqn:Hd; cbn [negb andb].
    + destruct (outcome video) as [| documents | documents |].
      * destruct Hfail as (H1 & H2 & H3 & H4 & H5).
        cbn [List.length]. repeat split; lia.
      * destruct documents as [|n].
        { destruct Hfail as (H1 & H2 & H3 & H4 & H5).
          cbn [List.length]. repeat split; lia. }
        specialize (IH (S i)
                      (mkCounters (S (c_processedVideos acc))
                                  (c_totalChunks acc + S n)
                                  (c_failedVideos acc) (S i))).
        cbn in IH. destruct IH as (H1 & H2 & H3 & H4 & H5).
        cbn [List.length]. repeat split; lia.
      * destruct documents as [|n].
        { destruct Hfail as (H1 & H2 & H3 & H4 & H5).
          cbn [List.length]. repeat split; lia. }
        specialize (IH (S i)
                      (mkCounters (S (c_processedVideos acc))
                                  (c_totalChunks acc + S n)
                                  (S (c_failedVideos acc)) (S i))).
        cbn in IH. destruct IH as (H1 & H2 & H3 & H4 & H5).
        cbn [List.length]. repeat split; lia.
      * destruct Hfail as (H1 & H2 & H3 & H4 & H5).
        cbn [List.length]. repeat split; lia.
    + destruct Hfail as (H1 & H2 & H3 & H4 & H5).
      cbn [List.length]. repeat split; lia.
Qed.

Lemma finishedJob_completed (env : Env) (job : ProcessingJob) :
  status (finishedJob env job) = completed ->
  exists videos channelDescription wikipediaSummary,
    channelVideos env = Ok videos
    /\ channelInfo env = Ok (channelDescription, wikipediaSummary)
    /\ eligibilityError videos (customDescription env)
                        channelDescription wikipediaSummary = None
    /\ revalidationError (creatorOwned env) (teamAtEnd env) = None
    /\ (let c := processVideos (videoOutcome env) 0 videos
                   (mkCounters 0 0 0 (progressCurrent job)) in
        ((c_processedVideos c =? 0)
         && negb (usableDescription channelDescription
                  || usableDescription (customDescription env)
                  || usableDescription wikipediaSummary) = false)
        /\ finishedJob env job
           = mkJob (jobId job) (creatorId job) completed (c_progressCurrent c)
                   (List.length videos)
                   (Some (mkJobResult (c_processedVideos c) (c_totalChunks c)
                                      (c_failedVideos c)))
                   (error job)).
Proof.
  unfold finishedJob, processBody.
  destruct (channelVideos env) as [videos | msg]; [|discriminate].
  destruct (channelInfo env) as [[cd ws] | msg]; [|discriminate].
  destruct (eligibilityError videos (customDescription env) cd ws) eqn:Eg;
    [discriminate|].
  cbv zeta.
  destruct ((c_processedVideos _ =? 0) && negb _) eqn:Ec; [discriminate|].
  destruct (revalidationError (creatorOwned env) (teamAtEnd env)) eqn:Er;
    [discriminate|].
  intros _. exists videos, cd, ws. repeat split; try assumption.
Qed.

(** X11.  A job that ends completed accounts for every fetched video: the
    processed and the failed videos add up to the number of videos plus
    the number of videos whose progress write threw (such a video is
    counted as processed before the write and as failed by the handler of
    the loop), so to the number of videos when no progress write throws;
    the number of videos is the progress total; each processed video
    contributed at least one chunk and has a duration of 2 to 25 minutes;
    and, for a job whose progress started at 0, the progress lies between
    the number of processed videos and the total. *)
Theorem completed_job_accounts_for_every_video
    (env : Env) (job : ProcessingJob) :
  progressCurrent job = 0 ->
  status (finishedJob env job) = completed ->
  exists videos res,
    channelVideos env = Ok videos
    /\ result (finishedJob env job) = Some res
    /\ processedVideos res + failedVideos res
       = List.length videos + progressWriteFailures (videoOutcome env) videos
    /\ (progressWriteFailures (videoOutcome env) videos = 0 ->
        processedVideos res + failedVideos res = List.length videos)
    /\ progressTotal (finishedJob env job) = List.length videos
    /\ processedVideos res <= totalChunks res
    /\ processedVideos res <= videosWithValidDuration videos
    /\ processedVideos res <= progressCurrent (finishedJob env job)
    /\ progressCurrent (finishedJob env job) <= progressTotal (finishedJob env job).
Proof.
  intros Hp Hc. apply finishedJob_completed in Hc.
  destruct Hc as (videos & cd & ws & Hv & _ & _ & _ & Hk). cbv zeta in Hk.
  destruct Hk as [_ ->]. rewrite Hp.
  pose proof (processVideos_counts (videoOutcome env) videos 0
                (mkCounters 0 0 0 0)) as H.
  cbv zeta in H. cbn [c_processedVideos c_failedVideos c_totalChunks
                      c_progressCurrent] in H.
  destruct H as (H1 & H2 & H3 & H4 & H5).
  eexists videos, _. split; [exact Hv|]. split; [reflexivity|].
  cbn [processedVideos failedVideos totalChunks progressTotal progressCurrent].
  repeat split; try lia.
Qed.

Lemma completed_job_accounts_for_every_video_witness :
  exists videos res,
    channelVideos Examples.unrecordedEnv = Ok videos
    /\ result (finishedJob Examples.unrecordedEnv
                 (mkJob "job_1" "creator1" processing 0 0 None None)) = Some res
    /\ processedVideos res + failedVideos res
       = List.length videos
         + progressWriteFailures (videoOutcome Examples.unrecordedEnv) videos
    /\ (progressWriteFailures (videoOutcome Examples.unrecordedEnv) videos = 0 ->
        processedVideos res + failedVideos res = List.length videos)
    /\ progressTotal (finishedJob Examples.unrecordedEnv
                        (mkJob "job_1" "creator1" processing 0 0 None None))
       = List.length videos
    /\ processedVideos res <= totalChunks res
    /\ processedVideos res <= videosWithValidDuration videos
    /\ processedVideos res
       <= progressCurrent (finishedJob Examples.unrecordedEnv
                             (mkJob "job_1" "creator1" processing 0 0 None None))
    /\ progressCurrent (finishedJob Examples.unrecordedEnv
                          (mkJob "job_1" "creator1" processing 0 0 None None))
       <= progressTotal (finishedJob Examples.unrecordedEnv
                           (mkJob "job_1" "creator1" processing 0 0 None None)).
Proof.
  apply completed_job_accounts_for_every_video; reflexivity.
Defined.

(** X12.  The re-validation decides last: for a creator owned by a team, a job
    ends failed, with an error and without a result, whenever the team is
    gone, its subscription is not active or it has lost Channel AI,
    however many videos were processed before. *)
Theorem lapsed_subscription_fails_job (env : Env) (job : ProcessingJob) :
  creatorOwned env = true ->
  match teamAtEnd env with
  | None => True
  | Some t => sub_status t <> "active" \/ has_channel_ai t = false
  end ->
  status (finishedJob env job) = failed
  /\ result (finishedJob env job) = result job
  /\ exists msg, error (finishedJob env job) = Some msg.
Proof.
  intros Ho Ht.
  assert (Hr : exists msg,
             revalidationError (creatorOwned env) (teamAtEnd env) = Some msg).
  { unfold revalidationError. rewrite Ho.
    destruct (teamAtEnd env) as [t|]; [|eexists; reflexivity].
    destruct (String.eqb (sub_status t) "active") eqn:Es; cbn [negb];
      [|eexists; reflexivity].
    destruct Ht as [Ht | Ht].
    - apply String.eqb_eq in Es. contradiction.
    - rewrite Ht. eexists. reflexivity. }
  destruct Hr as [msg Hr].
  unfold finishedJob, processBody.
  destruct (channelVideos env) as [videos | m];
    [|repeat split; eexists; reflexivity].
  destruct (channelInfo env) as [[cd ws] | m];
    [|repeat split; eexists; reflexivity].
  destruct (eligibilityError videos (customDescription env) cd ws);
    [repeat split; eexists; reflexivity|].
  cbv zeta.
  destruct ((c_processedVideos _ =? 0) && negb _);
    [repeat split; eexists; reflexivity|].
  rewrite Hr. repeat split; eexists; reflexivity.
Qed.

Lemma lapsed_subscription_fails_job_witness :
  status (finishedJob
            (mkEnv (Ok [mkVideo "video1" 10 true]) (Ok (None, None)) None
                   (fun _ => Chunked 3) true (Some (mkTeam "cancelled" true)))
            (mkJob "job_1" "creator1" processing 0 0 None None)) = failed
  /\ result (finishedJob
            (mkEnv (Ok [mkVideo "video1" 10 true]) (Ok (None, None)) None
                   (fun _ => Chunked 3) true (Some (mkTeam "cancelled" true)))
            (mkJob "job_1" "creator1" processing 0 0 None None)) = None
  /\ exists msg,
       error (finishedJob
            (mkEnv (Ok [mkVideo "video1" 10 true]) (Ok (None, None)) None
                   (fun _ => Chunked 3) true (Some (mkTeam "cancelled" true)))
            (mkJob "job_1" "creator1" processing 0 0 None None)) = Some msg.
Proof.
  apply (lapsed_subscription_fails_job
           (mkEnv (Ok [mkVideo "video1" 10 true]) (Ok (None, None)) None
                  (fun _ => Chunked 3) true (Some (mkTeam "cancelled" true)))
           (mkJob "job_1" "creator1" processing 0 0 None None)).
  - reflexivity.
  - left. discriminate.
Defined.

(** X13.  The gate lets a channel through exactly when it has a video with
    captions and a duration of 2 to 25 minutes, or a description (custom,
    of the channel, or from Wikipedia) of more than 50 characters. *)
Theorem gate_passes_iff_video_or_description (videos : list Video)
    (custom channel wiki : option string) :
  eligibilityError videos custom channel wiki = None <->
  (exists v, In v videos /\ hasCaptions v = true
             /\ (2 <= durationMinutes v <= 25)%Z)
  \/ (exists d, (custom = Some d \/ channel = Some d \/ wiki = Some d)
                /\ 50 < String.length d).
Proof.
  assert (Hu : forall o, usableDescription o = true <->
                         exists d, o = Some d /\ 50 < String.length d).
  { intros [d|]; unfold usableDescription.
    - rewrite Nat.ltb_lt. split.
      + intros H. exists d. split; [reflexivity | exact H].
      + intros (d' & E & H). injection E as <-. exact H.
    - split; [discriminate | intros (d & E & _); discriminate]. }
  assert (Hv : videosEligibleForProcessing videos <> 0 <->
               exists v, In v videos /\ hasCaptions v = true
                         /\ (2 <= durationMinutes v <= 25)%Z).
  { unfold videosEligibleForProcessing. split.
    - intros H. destruct (List.filter _ videos) as [|v l] eqn:E; [contradiction|].
      assert (Hin : In v (List.filter (fun v => hasCaptions v && validDuration v) videos))
        by (rewrite E; left; reflexivity).
      apply filter_In in Hin. destruct Hin as [Hin Hb].
      apply andb_true_iff in Hb. destruct Hb as [Hc Hd].
      unfold validDuration in Hd. apply andb_true_iff in Hd.
      exists v. repeat split; try assumption; lia.
    - intros (v & Hin & Hc & Hd) H0.
      assert (Hf : In v (List.filter (fun v => hasCaptions v && validDuration v) videos)).
      { apply filter_In. split; [exact Hin|]. rewrite Hc. unfold validDuration.
        apply andb_true_iff. split; lia. }
      destruct (List.filter _ videos); [destruct Hf | discriminate]. }
  unfold eligibilityError. cbv zeta.
  destruct (videosEligibleForProcessing videos =? 0) eqn:E0.
  - apply Nat.eqb_eq in E0.
    destruct (usableDescription custom) eqn:Ec,
             (usableDescription channel) eqn:Eh,
             (usableDescription wiki) eqn:Ew; cbn;
      try (split; [intros _ | reflexivity]; right;
           first [ apply Hu in Ec; destruct Ec as (d & -> & Hd); exists d; auto
                 | apply Hu in Eh; destruct Eh as (d & -> & Hd); exists d; auto
                 | apply Hu in Ew; destruct Ew as (d & -> & Hd); exists d; auto ]).
    split; [discriminate|].
    intros [H | (d & [-> | [-> | ->]] & Hd)].
    + apply Hv in H. contradiction.
    + assert (T : usableDescription (Some d) = true) by (apply Hu; eauto). congruence.
    + assert (T : usableDescription (Some d) = true) by (apply Hu; eauto). congruence.
    + assert (T : usableDescription (Some d) = true) by (apply Hu; eauto). congruence.
  - apply Nat.eqb_neq in E0. cbn. split; [|reflexivity].
    intros _. left. apply Hv. exact E0.
Qed.

End JobFacts.

(* ===================================================================== *)
(** ** The duplicate check once the processing record is written *)
(* ===================================================================== *)

Module ExclusionFacts.
Import stdpp.base stdpp.gmap stdpp.strings.
Import JS Ingestion Exclusion.
Import Storage (Result, Ok, Throw).

Lemma upsertRecord_In (record : ChannelAIProcessing)
    (collection : list ChannelAIProcessing) :
  In record (upsertRecord record collection).
Proof.
  induction collection as [|r rest IH]; cbn [upsertRecord]; [left; reflexivity|].
  destruct (_ && _); [left; reflexivity | right; exact IH].
Qed.

Lemma upsertRecord_keeps (record other : ChannelAIProcessing)
    (collection : list ChannelAIProcessing) :
  In other collection -> p_jobId other <> p_jobId record ->
  In other (upsertRecord record collection).
Proof.
  intros Hin Hne. induction collection as [|r rest IH]; [destruct Hin|].
  cbn [upsertRecord].
  destruct (String.eqb (p_channelId r) (p_channelId record)
            && String.eqb (p_teamId r) (p_teamId record)
            && String.eqb (p_jobId r) (p_jobId record)) eqn:E.
  - destruct Hin as [-> | Hin]; [|right; exact Hin].
    apply andb_true_iff in E. destruct E as [_ E].
    apply String.eqb_eq in E. contradiction.
  - destruct Hin as [-> | Hin]; [left; reflexivity | right; apply IH; exact Hin].
Qed.

Lemma recordOf_key (r : Request) (job : ProcessingJob) :
  p_channelId (recordOf r job) = r_channelId r
  /\ p_teamId (recordOf r job) = r_teamId r
  /\ p_jobId (recordOf r job) = r_jobId r
  /\ p_status (recordOf r job) = status job.
Proof. unfold recordOf. destruct (status job); repeat split. Qed.

Lemma stepRequest_static (w : World) (r : Request) :
  r_channelId (snd (stepRequest w r)) = r_channelId r
  /\ r_teamId (snd (stepRequest w r)) = r_teamId r
  /\ r_jobId (snd (stepRequest w r)) = r_jobId r
  /\ r_env (snd (stepRequest w r)) = r_env r.
Proof.
  unfold stepRequest. destruct (r_pc r).
  - destruct (findOngoing _ _ _); repeat split.
  - repeat split.
  - destruct (jobStore w !! r_jobId r); repeat split.
  - destruct (r_job r); repeat split.
  - destruct (r_job r); repeat split.
  - repeat split.
Qed.

Lemma stepRequest_records (w : World) (r : Request) :
  processingRecords (fst (stepRequest w r)) = processingRecords w
  \/ exists job,
       processingRecords (fst (stepRequest w r))
       = upsertRecord (recordOf r job) (processingRecords w).
Proof.
  unfold stepRequest. destruct (r_pc r).
  - destruct (findOngoing _ _ _); left; reflexivity.
  - left; reflexivity.
  - destruct (jobStore w !! r_jobId r); left; reflexivity.
  - destruct (r_job r) as [job|]; [|left; reflexivity].
    destruct (creatorOwned (r_env r)); [right; exists job | left]; reflexivity.
  - destruct (r_job r) as [job|]; [|left; reflexivity].
    destruct (creatorOwned (r_env r)); [right; eexists | left]; reflexivity.
  - left; reflexivity.
Qed.

Lemma invariant_of_other (w : World) (r q : Request) :
  r_jobId q <> r_jobId r ->
  requestInvariant w q -> requestInvariant (fst (stepRequest w r)) q.
Proof.
  intros Hne. unfold requestInvariant.
  destruct (r_pc q); try (intros H; exact H).
  intros [Hjob Hrec]. split; [exact Hjob|].
  intros Ho. destruct (Hrec Ho) as (record & Hin & Hc & Ht & Hj & Hs).
  exists record. split; [|repeat split; assumption].
  destruct (stepRequest_records w r) as [-> | [job ->]]; [exact Hin|].
  apply upsertRecord_keeps; [exact Hin|].
  destruct (recordOf_key r job) as (_ & _ & -> & _). congruence.
Qed.

Lemma invariant_of_self (w : World) (r : Request) :
  requestInvariant w r ->
  requestInvariant (fst (stepRequest w r)) (snd (stepRequest w r)).
Proof.
  unfold requestInvariant at 1. unfold stepRequest.
  destruct (r_pc r) eqn:Hpc.
  - intros _. destruct (findOngoing _ _ _); exact I.
  - intros _. exact I.
  - intros _. destruct (jobStore w !! r_jobId r) as [job|]; [|exact I].
    unfold requestInvariant. cbn. eexists. split; reflexivity.
  - intros (job & Hjob & Hs). rewrite Hjob.
    unfold requestInvariant. cbn [snd fst at_ r_pc r_job r_env].
    split; [exists job; exact Hjob|].
    intros Ho. rewrite Ho. exists (recordOf r job).
    cbn [writeRecord processingRecords].
    split; [apply upsertRecord_In|].
    destruct (recordOf_key r job) as (Hc & Ht & Hj & Hst).
    cbn [r_channelId r_teamId r_jobId at_].
    repeat split; try assumption. congruence.
  - intros _. destruct (r_job r); exact I.
  - intros _. unfold requestInvariant. cbn [snd]. rewrite Hpc. exact I.
Qed.

Lemma fireTimer_invariant (w : World) (r q : Request) :
  requestInvariant w q -> requestInvariant (fst (fireTimer w r)) q.
Proof.
  unfold fireTimer. destruct (taskPending r && negb (r_timerFired r));
    intros H; exact H.
Qed.

Lemma fireTimer_invariant_self (w : World) (r : Request) :
  requestInvariant w r ->
  requestInvariant (fst (fireTimer w r)) (snd (fireTimer w r))
  /\ r_jobId (snd (fireTimer w r)) = r_jobId r.
Proof.
  unfold fireTimer. destruct (taskPending r && negb (r_timerFired r));
    intros H; split; try reflexivity; exact H.
Qed.

Lemma others_have_other_ids (requests : list Request) (i : nat) (r q : Request) :
  List.NoDup (map r_jobId requests) ->
  List.nth_error requests i = Some r ->
  In q (List.firstn i requests ++ List.skipn (S i) requests) ->
  r_jobId q <> r_jobId r.
Proof.
  intros Hnd Hn Hq.
  rewrite <- (IngestionFacts.replace_nth_same _ _ _ Hn) in Hnd.
  rewrite map_app in Hnd. cbn [map] in Hnd.
  apply List.NoDup_remove_2 in Hnd.
  intros E. apply Hnd. rewrite <- E, <- map_app. apply in_map. exact Hq.
Qed.

Lemma applyAt_invariant (f : World -> Request -> World * Request) (i : nat)
    (st : State) :
  (forall w r q, r_jobId q <> r_jobId r ->
     requestInvariant w q -> requestInvariant (fst (f w r)) q) ->
  (forall w r, requestInvariant w r ->
     requestInvariant (fst (f w r)) (snd (f w r))
     /\ r_jobId (snd (f w r)) = r_jobId r) ->
  stateInvariant st -> stateInvariant (applyAt f i st).
Proof.
  intros Hother Hself [Hall Hnd]. unfold applyAt.
  destruct (List.nth_error (snd st) i) as [r|] eqn:Hn; [|split; assumption].
  rewrite List.Forall_forall in Hall.
  assert (Hr : requestInvariant (fst st) r).
  { apply Hall. apply nth_error_In with i. exact Hn. }
  destruct (Hself (fst st) r Hr) as [Hr' Hid].
  pose proof (fun q => Hother (fst st) r q) as Hq.
  destruct (f (fst st) r) as [w' r']. unfold stateInvariant. cbn [fst snd] in *.
  split.
  - apply List.Forall_forall. intros q Hin.
    apply in_app_or in Hin. destruct Hin as [Hin | [<- | Hin]].
    + apply Hq.
      * apply (others_have_other_ids (snd st) i r q Hnd Hn).
        apply in_or_app. left. exact Hin.
      * apply Hall. rewrite <- (firstn_skipn i (snd st)).
        apply in_or_app. left. exact Hin.
    + exact Hr'.
    + apply Hq.
      * apply (others_have_other_ids (snd st) i r q Hnd Hn).
        apply in_or_app. right. exact Hin.
      * apply Hall. rewrite <- (firstn_skipn (S i) (snd st)).
        apply in_or_app. right. exact Hin.
  - rewrite IngestionFacts.map_replace_nth, Hid.
    rewrite <- IngestionFacts.map_replace_nth,
            (IngestionFacts.replace_nth_same _ _ _ Hn).
    exact Hnd.
Qed.

Lemma exec_invariant (schedule : list Event) (st : State) :
  stateInvariant st -> stateInvariant (exec schedule st).
Proof.
  unfold exec. revert st.
  induction schedule as [|e rest IH]; intros st Hst; [exact Hst|].
  cbn [List.fold_left]. apply IH. destruct e as [i | i]; cbn [applyEvent].
  - apply applyAt_invariant; [| |exact Hst].
    + intros w r q. apply invariant_of_other.
    + intros w r Hr. split; [apply invariant_of_self; exact Hr|].
      apply stepRequest_static.
  - apply applyAt_invariant; [| |exact Hst].
    + intros w r q _. apply fireTimer_invariant.
    + intros w r. apply fireTimer_invariant_self.
Qed.

(** X14.  Once a background task has written its processing record and is in
    the body of the job, the duplicate check holds: in whatever order the
    requests and the timers have run, a request for the same channel and
    team that takes its check while another request's task is in its body,
    for a creator owned by a team, is answered 409 and changes no store.
    The requests start at the check, with distinct job ids. *)
Theorem duplicate_rejected_while_body_runs
    (w0 : World) (requests : list Request) (schedule : list Event)
    (i j : nat) (running arriving : Request) :
  allArriving requests ->
  List.NoDup (map r_jobId requests) ->
  let st := exec schedule (w0, requests) in
  List.nth_error (snd st) i = Some running ->
  List.nth_error (snd st) j = Some arriving ->
  r_pc running = AtBody ->
  creatorOwned (r_env running) = true ->
  r_pc arriving = AtCheck ->
  r_channelId arriving = r_channelId running ->
  r_teamId arriving = r_teamId running ->
  fst (stepRequest (fst st) arriving) = fst st
  /\ r_response (snd (stepRequest (fst st) arriving)) = Some 409
  /\ r_pc (snd (stepRequest (fst st) arriving)) = Done.
Proof.
  intros Harr Hnd st Hi Hj Hpc Ho Hpcj Hc Ht.
  assert (Hinv : stateInvariant st).
  { apply exec_invariant. split; [|exact Hnd]. cbn [fst snd].
    unfold allArriving in Harr. rewrite List.Forall_forall in Harr.
    apply List.Forall_forall. intros r Hr. unfold requestInvariant.
    rewrite (Harr r Hr). exact I. }
  destruct Hinv as [Hall _]. rewrite List.Forall_forall in Hall.
  assert (Hrun : requestInvariant (fst st) running).
  { apply Hall. apply nth_error_In with i. exact Hi. }
  unfold requestInvariant in Hrun. rewrite Hpc in Hrun.
  destruct Hrun as [_ Hrec]. destruct (Hrec Ho) as (record & Hin & Hrc & Hrt & _ & Hs).
  assert (Hfind : exists ongoing,
             findOngoing (processingRecords (fst st))
                         (r_channelId arriving) (r_teamId arriving) = Some ongoing).
  { unfold findOngoing.
    destruct (List.find _ (processingRecords (fst st))) as [ongoing|] eqn:E;
      [exists ongoing; reflexivity|].
    pose proof (find_none _ _ E record Hin) as Hf. cbv beta in Hf.
    rewrite Hrc, Hrt, Hc, Ht, Hs, !String.eqb_refl in Hf. discriminate. }
  destruct Hfind as [ongoing Hfind].
  unfold stepRequest. rewrite Hpcj, Hfind. repeat split.
Qed.

Lemma duplicate_rejected_while_body_runs_witness :
  fst (stepRequest
         (fst (exec [Step 0; Step 0; Step 0; Step 0] Examples.twoRequests))
         (newRequest "channel1" "team1" "job_2" "creator1" Examples.healthyEnv))
  = fst (exec [Step 0; Step 0; Step 0; Step 0] Examples.twoRequests)
  /\ r_response
       (snd (stepRequest
               (fst (exec [Step 0; Step 0; Step 0; Step 0] Examples.twoRequests))
               (newRequest "channel1" "team1" "job_2" "creator1" Examples.healthyEnv)))
     = Some 409
  /\ r_pc
       (snd (stepRequest
               (fst (exec [Step 0; Step 0; Step 0; Step 0] Examples.twoRequests))
               (newRequest "channel1" "team1" "job_2" "creator1" Examples.healthyEnv)))
     = Done.
Proof.
  refine (duplicate_rejected_while_body_runs
            emptyWorld (snd Examples.twoRequests)
            [Step 0; Step 0; Step 0; Step 0] 0 1
            (mkRequest "channel1" "team1" "job_1" "creator1" Examples.healthyEnv
                       AtBody (Some 202)
                       (Some (mkJob "job_1" "creator1" processing 0 0 None None))
                       false)
            (newRequest "channel1" "team1" "job_2" "creator1" Examples.healthyEnv)
            _ _ _ _ _ _ _ _ _).
  - repeat constructor.
  - repeat constructor; cbn; intros H;
      repeat (destruct H as [H | H]; [discriminate|]); exact H.
  - vm_compute. reflexivity.
  - vm_compute. reflexivity.
  - reflexivity.
  - reflexivity.
  - reflexivity.
  - reflexivity.
  - reflexivity.
Defined.

End ExclusionFacts.

(* ===================================================================== *)
(** ** Retries, the processing records and the channel keys *)
(* ===================================================================== *)

Module RetryFacts.
Import stdpp.base stdpp.gmap stdpp.strings.
Import JS Ingestion Scenarios.
Import Storage (Result, Ok, Throw).
Import IngestionFacts.
Import FinalWrites.

Lemma finishedJob_shape (env : Env) (job : ProcessingJob) :
  exists s current total res err,
    (s = completed \/ s = failed)
    /\ finishedJob env job
       = mkJob (jobId job) (creatorId job) s current total res err.
Proof.
  unfold finishedJob. destruct (run_outcome (processBody env job)).
  - do 5 eexists. split; [left; reflexivity | reflexivity].
  - do 5 eexists. split; [right; reflexivity | reflexivity].
Qed.

(** With stores that take every write and a creator that stays owned,
    the steps are those of [stepRequest]. *)
Lemma stepRequestWith_allStored (w : World) (r : Request) :
  stepRequestWith (allStored (creatorOwned (r_env r))) w r = stepRequest w r.
Proof.
  unfold stepRequestWith, stepRequest, endOfRun, catchBlock, writeFinalRecord,
    allStored.
  cbn [startRecordStored completedJobError failedJobError ownedAtEnd
       finalRecordStored].
  rewrite !andb_true_r.
  destruct (r_pc r); try reflexivity.
  destruct (r_job r) as [job|]; [|reflexivity].
  destruct (status (finishedJob (r_env r) job)); reflexivity.
Qed.

Lemma execWith_cons (answersOf : nat -> StoreAnswers) (e : Event)
    (schedule : list Event) (st : State) :
  execWith answersOf (e :: schedule) st
  = execWith answersOf schedule (applyEventWith answersOf st e).
Proof. reflexivity. Qed.

Ltac run_event_with :=
  rewrite execWith_cons;
  cbv [applyEventWith applyAt List.nth_error fst snd stepRequestWith
       stepRequest fireTimer
       r_pc r_channelId r_teamId r_jobId r_creatorId r_env r_response r_job
       r_timerFired processingRecords jobStore channelKeys errorLog
       findOngoing at_ respond holding setJob writeRecord
       List.firstn List.skipn List.app jobId creatorId status
       progressCurrent progressTotal result error].

(** X15.  After the first request's run has ended, a second request for the
    same channel and team is accepted exactly when the record of the
    first no longer says processing: when the upsert at the start was not
    stored, or when the run got to its last upsert (its job was written,
    as completed or as failed), the creator still had its team and
    channel, and the upsert was stored.  Otherwise the record stays in
    status processing, not to be reprocessed, and the second request is
    answered 409 and creates no job. *)
Theorem retry_accepted_iff_final_record_written
    (answersOf : nat -> StoreAnswers)
    (channelId teamId job1 job2 creator1 creator2 : string)
    (env1 env2 : Env) :
  job1 <> job2 ->
  creatorOwned env1 = true ->
  let answers := answersOf 0 in
  let st := execWith answersOf retrySchedule
              (emptyWorld,
               [newRequest channelId teamId job1 creator1 env1;
                newRequest channelId teamId job2 creator2 env2]) in
  let written :=
    reachesFinalRecord answers env1
      (mkJob job1 creator1 processing 0 0 None None)
    && ownedAtEnd answers && finalRecordStored answers in
  let released := negb (startRecordStored answers) || written in
  List.map r_response (snd st)
  = [Some 202; Some (if released then 202 else 409)]
  /\ processingCount st channelId teamId = (if released then 0 else 1)
  /\ jobStatusOf st job2 = (if released then Some queued else None)
  /\ (written = true ->
      exists record,
        In record (processingRecords (fst st))
        /\ p_jobId record = job1 /\ p_canReprocess record = true)
  /\ (released = false ->
      exists record,
        processingRecords (fst st) = [record]
        /\ p_jobId record = job1 /\ p_status record = processing
        /\ p_canReprocess record = false).
Proof.
  intros Hne Ho1.
  unfold retrySchedule, newRequest, emptyWorld. cbv zeta.
  run_event_with. cbn [List.find].
  run_event_with.
  run_event_with. rewrite lookup_insert_eq.
  run_event_with. rewrite Ho1. cbn [andb].
  destruct (finishedJob_shape env1
              (mkJob job1 creator1 processing 0 0 None None))
    as (s & current & total & res & err & Hs & Hfj).
  rewrite execWith_cons.
  cbv [applyEventWith applyAt List.nth_error fst snd stepRequestWith r_pc r_job
       r_env endOfRun reachesFinalRecord].
  rewrite Hfj. cbn [status jobId creatorId progressCurrent progressTotal
                    result error].
  destruct (answersOf 0) as [started completedError failedError owned stored].
  cbn [startRecordStored completedJobError failedJobError ownedAtEnd
       finalRecordStored].
  unfold catchBlock, writeFinalRecord.
  cbn [startRecordStored completedJobError failedJobError ownedAtEnd
       finalRecordStored r_timerFired].
  destruct Hs as [-> | ->];
    destruct started, completedError as [cmsg|], failedError as [fmsg|],
             owned, stored;
    cbn [andb orb negb];
    cbv [r_channelId r_teamId r_jobId r_creatorId r_env r_response r_job
         r_timerFired processingRecords jobStore channelKeys errorLog
         at_ respond holding setJob writeRecord recordOf upsertRecord
         List.firstn List.skipn List.app jobId creatorId status
         p_channelId p_teamId p_jobId
         progressCurrent progressTotal result error];
    rewrite ?String.eqb_refl; cbn [andb];
    run_event_with; cbn [List.find p_channelId p_teamId p_status isProcessing];
    rewrite ?String.eqb_refl; cbn [andb];
    run_event_with;
    unfold execWith, processingCount, jobStatusOf;
    cbn [List.fold_left fst snd processingRecords jobStore List.filter
         List.map r_response p_channelId p_teamId p_status isProcessing
         List.length];
    rewrite ?String.eqb_refl; cbn [andb List.length];
    rewrite ?lookup_insert_eq, ?lookup_insert_ne by congruence;
    (split; [reflexivity|]);
    (split; [reflexivity|]);
    (split; [first [reflexivity
                   | rewrite lookup_insert_ne by congruence;
                     rewrite lookup_insert_eq; reflexivity
                   | rewrite lookup_insert_ne by congruence;
                     apply lookup_empty
                   | apply lookup_empty]|]);
    (split;
       [intros Hw;
        first [discriminate Hw
              | eexists; split; [left; reflexivity|]; split; reflexivity]
       |intros Hr;
        first [discriminate Hr
              | eexists; split; [reflexivity|]; repeat split]]).
Qed.

Lemma retry_accepted_iff_final_record_written_witness :
  List.map r_response (snd (execWith lastUpsertFails retrySchedule
                                     Examples.twoRequests))
  = [Some 202; Some 409]
  /\ processingCount (execWith lastUpsertFails retrySchedule
                                Examples.twoRequests) "channel1" "team1" = 1
  /\ jobStatusOf (execWith lastUpsertFails retrySchedule Examples.twoRequests)
                 "job_2" = None.
Proof.
  pose proof (retry_accepted_iff_final_record_written lastUpsertFails
                "channel1" "team1" "job_1" "job_2" "creator1" "creator1"
                Examples.healthyEnv Examples.healthyEnv
                ltac:(discriminate) eq_refl) as H.
  cbv zeta in H. destruct H as (H1 & H2 & H3 & _).
  split; [exact H1|]. split; [exact H2 | exact H3].
Defined.

End RetryFacts.

Module RecordFacts.
Import stdpp.base stdpp.gmap stdpp.strings.
Import JS Ingestion Scenarios.

Lemma sameKey_spec (r record : ChannelAIProcessing) :
  String.eqb (p_channelId r) (p_channelId record)
  && String.eqb (p_teamId r) (p_teamId record)
  && String.eqb (p_jobId r) (p_jobId record) = true
  <-> recordKey r = recordKey record.
Proof.
  unfold recordKey. rewrite !andb_true_iff, !String.eqb_eq. split.
  - intros [[-> ->] ->]. reflexivity.
  - intros H. injection H as -> -> ->. repeat split.
Qed.

Lemma upsertRecord_keys (record : ChannelAIProcessing)
    (collection : list ChannelAIProcessing) :
  (In (recordKey record) (map recordKey collection)
   /\ map recordKey (upsertRecord record collection) = map recordKey collection)
  \/ (~ In (recordKey record) (map recordKey collection)
      /\ map recordKey (upsertRecord record collection)
         = map recordKey collection ++ [recordKey record]).
Proof.
  induction collection as [|r rest IH]; cbn [upsertRecord map].
  - right. split; [intros [] | reflexivity].
  - destruct (String.eqb (p_channelId r) (p_channelId record)
              && String.eqb (p_teamId r) (p_teamId record)
              && String.eqb (p_jobId r) (p_jobId record)) eqn:E.
    + apply sameKey_spec in E. left. cbn [map]. rewrite E.
      split; [left; reflexivity | reflexivity].
    + assert (Hne : recordKey r <> recordKey record).
      { intros H. apply sameKey_spec in H. congruence. }
      cbn [map]. destruct IH as [[Hin ->] | [Hnin ->]].
      * left. split; [right; exact Hin | reflexivity].
      * right. split; [|reflexivity].
        intros [H | H]; [exact (Hne H) | exact (Hnin H)].
Qed.

Lemma upsertRecord_NoDup (record : ChannelAIProcessing)
    (collection : list ChannelAIProcessing) :
  List.NoDup (map recordKey collection) ->
  List.NoDup (map recordKey (upsertRecord record collection)).
Proof.
  intros Hnd. destruct (upsertRecord_keys record collection)
    as [[_ ->] | [Hnin ->]]; [exact Hnd|].
  apply List.NoDup_app; [exact Hnd | repeat constructor; intros [] |].
  intros k Hk [<- | []]. exact (Hnin Hk).
Qed.

(** X16.  The processing collection never holds two records for one job: a
    collection with one record at most for each channel, team and job id
    keeps that property along every schedule. *)
Theorem one_record_per_job (schedule : list Event) (st : State) :
  List.NoDup (map recordKey (processingRecords (fst st))) ->
  List.NoDup (map recordKey (processingRecords (fst (exec schedule st)))).
Proof.
  unfold exec. revert st.
  induction schedule as [|e rest IH]; intros st Hst; [exact Hst|].
  cbn [List.fold_left]. apply IH.
  destruct e as [i | i]; cbn [applyEvent]; unfold applyAt;
    destruct (List.nth_error (snd st) i) as [r|]; try exact Hst.
  - pose proof (ExclusionFacts.stepRequest_records (fst st) r) as H.
    destruct (stepRequest (fst st) r) as [w' r']. cbn [fst] in *.
    destruct H as [-> | [job ->]]; [exact Hst|].
    apply upsertRecord_NoDup. exact Hst.
  - pose proof (IngestionFacts.fireTimer_frame (fst st) r) as (_ & H & _).
    destruct (fireTimer (fst st) r) as [w' r']. cbn [fst] in *.
    rewrite H. exact Hst.
Qed.

Lemma one_record_per_job_witness :
  List.NoDup
    (map recordKey
       (processingRecords (fst (exec Examples.raceSchedule Examples.twoRequests)))).
Proof.
  apply (one_record_per_job Examples.raceSchedule Examples.twoRequests).
  constructor.
Defined.

Lemma startsWith_colon (a : ascii) (s : string) :
  startsWith (String a s) ":" = Ascii.eqb ":" a.
Proof.
  cbn [startsWith]. destruct s; cbn [startsWith]; apply andb_true_r.
Qed.

(** The channel key separates the pairs whose channel ids have no
    colon. *)
Lemma getChannelKey_inj (c1 t1 c2 t2 : string) :
  includes c1 ":" = false -> includes c2 ":" = false ->
  getChannelKey c1 t1 = getChannelKey c2 t2 -> c1 = c2 /\ t1 = t2.
Proof.
  unfold getChannelKey. intros H1 H2 H.
  apply StoreFacts.append_cancel_l in H.
  revert c2 H2 H. induction c1 as [|a c1 IH]; intros c2 H2 H.
  - destruct c2 as [|b c2].
    + change (String ":" t1 = String ":" t2) in H. injection H as ->. split; reflexivity.
    + change (String ":" t1 = String b (c2 ++ ":" ++ t2)%string) in H.
      injection H as <- _. cbn [includes] in H2.
      rewrite startsWith_colon in H2. cbn in H2. discriminate.
  - cbn [includes] in H1. rewrite startsWith_colon in H1.
    apply orb_false_iff in H1. destruct H1 as [Ha H1].
    destruct c2 as [|b c2].
    + change (String a (c1 ++ ":" ++ t1)%string = String ":" t2) in H.
      injection H as -> _. cbn in Ha. discriminate.
    + change (String a (c1 ++ ":" ++ t1)%string
              = String b (c2 ++ ":" ++ t2)%string) in H.
      injection H as -> H. cbn [includes] in H2. rewrite startsWith_colon in H2.
      apply orb_false_iff in H2. destruct H2 as [_ H2].
      destruct (IH H1 c2 H2 H) as [-> ->]. split; reflexivity.
Qed.

(** X17.  The channel key as a lock.  On a channel and team that is not marked,
    [markChannelProcessing] succeeds and records the job; from then on the
    pair reads as processing and a further mark fails and changes nothing,
    until [unmarkChannelProcessing], which restores the keys as they
    were. *)
Theorem channel_key_round_trip (keys : gmap string string)
    (channelId teamId jobId : string) :
  isChannelProcessing keys channelId teamId = false ->
  let marked := fst (markChannelProcessing keys channelId teamId jobId) in
  snd (markChannelProcessing keys channelId teamId jobId) = true
  /\ marked !! getChannelKey channelId teamId = Some jobId
  /\ isChannelProcessing marked channelId teamId = true
  /\ (forall other,
        markChannelProcessing marked channelId teamId other = (marked, false))
  /\ unmarkChannelProcessing marked channelId teamId = keys
  /\ snd (markChannelProcessing
            (unmarkChannelProcessing marked channelId teamId)
            channelId teamId jobId) = true.
Proof.
  unfold isChannelProcessing, markChannelProcessing, unmarkChannelProcessing.
  intros H. cbv zeta.
  destruct (keys !! getChannelKey channelId teamId) eqn:E; [discriminate|].
  cbn [fst snd]. rewrite lookup_insert_eq.
  assert (Hd : delete (getChannelKey channelId teamId)
                 (<[getChannelKey channelId teamId := jobId]> keys) = keys).
  { rewrite delete_insert_eq. apply delete_id. exact E. }
  rewrite Hd, E. repeat split.
Qed.

Lemma channel_key_round_trip_witness :
  snd (markChannelProcessing ∅ "channel1" "team1" "job_1") = true
  /\ fst (markChannelProcessing ∅ "channel1" "team1" "job_1")
       !! getChannelKey "channel1" "team1" = Some "job_1"
  /\ isChannelProcessing
       (fst (markChannelProcessing ∅ "channel1" "team1" "job_1"))
       "channel1" "team1" = true
  /\ (forall other,
        markChannelProcessing
          (fst (markChannelProcessing ∅ "channel1" "team1" "job_1"))
          "channel1" "team1" other
        = (fst (markChannelProcessing ∅ "channel1" "team1" "job_1"), false))
  /\ unmarkChannelProcessing
       (fst (markChannelProcessing ∅ "channel1" "team1" "job_1"))
       "channel1" "team1" = ∅
  /\ snd (markChannelProcessing
            (unmarkChannelProcessing
               (fst (markChannelProcessing ∅ "channel1" "team1" "job_1"))
               "channel1" "team1")
            "channel1" "team1" "job_1") = true.
Proof.
  apply (channel_key_round_trip ∅ "channel1" "team1" "job_1").
  reflexivity.
Defined.

(** X18.  Marking or unmarking one pair leaves the others as they are, for
    channel ids without a colon; with a colon in a channel id two pairs
    can share a key. *)
Theorem channel_keys_are_separate (keys : gmap string string)
    (c1 t1 c2 t2 jobId : string) :
  includes c1 ":" = false -> includes c2 ":" = false ->
  (c1, t1) <> (c2, t2) ->
  isChannelProcessing (fst (markChannelProcessing keys c1 t1 jobId)) c2 t2
  = isChannelProcessing keys c2 t2
  /\ isChannelProcessing (unmarkChannelProcessing keys c1 t1) c2 t2
     = isChannelProcessing keys c2 t2.
Proof.
  intros H1 H2 Hne.
  assert (Hk : getChannelKey c1 t1 <> getChannelKey c2 t2).
  { intros E. destruct (getChannelKey_inj _ _ _ _ H1 H2 E) as [-> ->].
    apply Hne. reflexivity. }
  unfold isChannelProcessing, markChannelProcessing, unmarkChannelProcessing.
  split.
  - destruct (keys !! getChannelKey c1 t1); cbn [fst]; [reflexivity|].
    rewrite lookup_insert_ne by exact Hk. reflexivity.
  - rewrite lookup_delete_ne by exact Hk. reflexivity.
Qed.

Lemma channel_keys_are_separate_witness :
  (isChannelProcessing
     (fst (markChannelProcessing ∅ "channel1" "team1" "job_1")) "channel2" "team1"
   = isChannelProcessing ∅ "channel2" "team1"
   /\ isChannelProcessing (unmarkChannelProcessing ∅ "channel1" "team1")
                          "channel2" "team1"
      = isChannelProcessing ∅ "channel2" "team1")
  /\ getChannelKey "a:b" "c" = getChannelKey "a" "b:c".
Proof.
  split.
  - apply (channel_keys_are_separate ∅ "channel1" "team1" "channel2" "team1" "job_1").
    + reflexivity.
    + reflexivity.
    + discriminate.
  - reflexivity.
Defined.

End RecordFacts.

(* ===================================================================== *)
(** ** White space after cleaning *)
(* ===================================================================== *)

Module TextFacts.
Import JS YouTube.

Lemma space_append (x : string) : (" " ++ x)%string = String " " x.
Proof. reflexivity. Qed.

Lemma removeAllFrom_length (re : matcher) (s : string) (k : nat) :
  String.length (removeAllFrom re k s) <= String.length s.
Proof.
  revert k; induction s as [|c s IH]; intros k; cbn [removeAllFrom String.length];
    [lia|].
  destruct k as [|k].
  - destruct (re (String c s)) as [[|j]|]; cbn [String.length];
      try (specialize (IH 0); lia). specialize (IH j); lia.
  - specialize (IH k); lia.
Qed.

Lemma removeAll_length (re : matcher) (s : string) :
  String.length (removeAll re s) <= String.length s.
Proof. apply removeAllFrom_length. Qed.

Lemma replaceAllFrom_char_length (re : matcher) (r : ascii) (s : string) (k : nat) :
  String.length (replaceAllFrom re (String r EmptyString) k s) <= String.length s.
Proof.
  revert k; induction s as [|c s IH]; intros k;
    cbn [replaceAllFrom String.length]; [lia|].
  destruct k as [|k].
  - destruct (re (String c s)) as [[|j]|];
      try (cbn [String.length]; specialize (IH 0); lia).
    change (String r EmptyString ++ ?x)%string with (String r x).
    cbn [String.length]. specialize (IH j); lia.
  - specialize (IH k); lia.
Qed.

Lemma replaceAllFrom_skip (re : matcher) (rep : string) (s : string) (k : nat) :
  replaceAllFrom re rep k s = replaceAllFrom re rep 0 (drop k s).
Proof.
  revert k; induction s as [|c s IH]; intros k.
  - destruct k; reflexivity.
  - destruct k as [|k]; [reflexivity|]. cbn [replaceAllFrom drop]. apply IH.
Qed.

Lemma drop_length (k : nat) (s : string) :
  String.length (drop k s) <= String.length s.
Proof.
  revert k; induction s as [|c s IH]; intros k; destruct k as [|k];
    cbn [drop String.length]; try lia. specialize (IH k); lia.
Qed.

Lemma drop_run_clear (s : string) : startsClear (drop (run isSpace s) s) = true.
Proof.
  induction s as [|c s IH]; [reflexivity|].
  cbn [run]. destruct (isSpace c) eqn:E; cbn [drop]; [exact IH|].
  cbn [startsClear]. rewrite E. reflexivity.
Qed.

Lemma collapse_space (c : ascii) (s : string) :
  isSpace c = true ->
  replaceAll reSpaces " " (String c s)
  = String " " (replaceAll reSpaces " " (drop (run isSpace s) s)).
Proof.
  intros E. unfold replaceAll. cbn [replaceAllFrom].
  unfold reSpaces at 1. cbn [run]. rewrite E.
  rewrite space_append, replaceAllFrom_skip. reflexivity.
Qed.

Lemma collapse_other (c : ascii) (s : string) :
  isSpace c = false ->
  replaceAll reSpaces " " (String c s) = String c (replaceAll reSpaces " " s).
Proof.
  intros E. unfold replaceAll. cbn [replaceAllFrom].
  unfold reSpaces at 1. cbn [run]. rewrite E. reflexivity.
Qed.

Lemma collapse_clear (s : string) :
  startsClear s = true -> startsClear (replaceAll reSpaces " " s) = true.
Proof.
  destruct s as [|c s]; [reflexivity|]. cbn [startsClear].
  intros E. apply negb_true_iff in E. rewrite (collapse_other _ _ E).
  cbn [startsClear]. rewrite E. reflexivity.
Qed.

(** Replacing each run of white space by one space leaves white space in
    normal form. *)
Lemma collapse_singleSpaced (s : string) :
  singleSpaced (replaceAll reSpaces " " s) = true.
Proof.
  remember (String.length s) as n eqn:Hn.
  revert s Hn. induction n as [n IH] using lt_wf_ind. intros s Hn.
  destruct s as [|c s]; [reflexivity|]. cbn [String.length] in Hn.
  destruct (isSpace c) eqn:E.
  - rewrite (collapse_space _ _ E). cbn [singleSpaced].
    rewrite collapse_clear by apply drop_run_clear.
    rewrite (IH (String.length (drop (run isSpace s) s))); [reflexivity | | reflexivity].
    pose proof (drop_length (run isSpace s) s). lia.
  - rewrite (collapse_other _ _ E). cbn [singleSpaced]. rewrite E.
    rewrite (IH (String.length s)); [reflexivity | lia | reflexivity].
Qed.

Lemma singleSpaced_tail (c : ascii) (s : string) :
  singleSpaced (String c s) = true -> singleSpaced s = true.
Proof. cbn [singleSpaced]. intros H. apply andb_true_iff in H. apply H. Qed.

Lemma trimStart_singleSpaced (s : string) :
  singleSpaced s = true -> singleSpaced (trimStart s) = true.
Proof.
  induction s as [|c s IH]; intros H; [reflexivity|].
  cbn [trimStart]. destruct (isSpace c); [|exact H].
  apply IH. exact (singleSpaced_tail _ _ H).
Qed.

Lemma trimEnd_head (s : string) (d : ascii) (r : string) :
  trimEnd s = String d r -> exists t, s = String d t.
Proof.
  destruct s as [|c s]; [discriminate|]. cbn [trimEnd].
  destruct (trimEnd s).
  - destruct (isSpace c); [discriminate|]. intros H. injection H as -> _.
    eexists; reflexivity.
  - intros H. injection H as -> _. eexists; reflexivity.
Qed.

Lemma trimEnd_singleSpaced (s : string) :
  singleSpaced s = true -> singleSpaced (trimEnd s) = true.
Proof.
  induction s as [|c s IH]; intros H; [reflexivity|].
  pose proof (IH (singleSpaced_tail _ _ H)) as Hs.
  cbn [trimEnd]. destruct (trimEnd s) as [|d r] eqn:Et.
  - destruct (isSpace c) eqn:E; [reflexivity|]. cbn [singleSpaced]. rewrite E.
    reflexivity.
  - cbn [singleSpaced] in H |- *. apply andb_true_iff in H. destruct H as [Hc _].
    apply andb_true_iff. split; [|exact Hs].
    destruct (isSpace c); [|reflexivity].
    apply andb_true_iff in Hc. destruct Hc as [-> Hclear].
    destruct (trimEnd_head _ _ _ Et) as [t ->]. exact Hclear.
Qed.

Lemma trimStart_clear (s : string) : startsClear (trimStart s) = true.
Proof.
  induction s as [|c s IH]; [reflexivity|].
  cbn [trimStart]. destruct (isSpace c) eqn:E; [exact IH|].
  cbn [startsClear]. rewrite E. reflexivity.
Qed.

Lemma trimStart_of_clear (s : string) : startsClear s = true -> trimStart s = s.
Proof.
  destruct s as [|c s]; [reflexivity|]. cbn [startsClear trimStart].
  intros E. apply negb_true_iff in E. rewrite E. reflexivity.
Qed.

Lemma trimEnd_clear (s : string) :
  startsClear s = true -> startsClear (trimEnd s) = true.
Proof.
  destruct s as [|c s]; [reflexivity|]. cbn [startsClear trimEnd].
  intros E. apply negb_true_iff in E. rewrite E.
  destruct (trimEnd s); cbn [startsClear]; rewrite E; reflexivity.
Qed.

Lemma trimEnd_idem (s : string) : trimEnd (trimEnd s) = trimEnd s.
Proof.
  induction s as [|c s IH]; [reflexivity|].
  cbn [trimEnd]. destruct (trimEnd s) as [|d r] eqn:Et.
  - destruct (isSpace c) eqn:E; [reflexivity|]. cbn [trimEnd]. rewrite E. reflexivity.
  - cbn [trimEnd]. cbn [trimEnd] in IH. rewrite IH. reflexivity.
Qed.

(** Trimming a trimmed string changes nothing. *)
Lemma trim_fixed (s : string) :
  trimStart (trim s) = trim s /\ trimEnd (trim s) = trim s.
Proof.
  unfold trim. split.
  - apply trimStart_of_clear, trimEnd_clear, trimStart_clear.
  - apply trimEnd_idem.
Qed.

Lemma trimStart_length (s : string) : String.length (trimStart s) <= String.length s.
Proof.
  induction s as [|c s IH]; cbn [trimStart String.length]; [lia|].
  destruct (isSpace c); cbn [String.length]; lia.
Qed.

Lemma trimEnd_length (s : string) : String.length (trimEnd s) <= String.length s.
Proof.
  induction s as [|c s IH]; cbn [trimEnd String.length]; [lia|].
  destruct (trimEnd s); [destruct (isSpace c)|]; cbn [String.length] in *; lia.
Qed.

Lemma trim_length (s : string) : String.length (trim s) <= String.length s.
Proof.
  unfold trim. pose proof (trimEnd_length (trimStart s)).
  pose proof (trimStart_length s). lia.
Qed.

(** X19.  A cleaned transcript has its white space in normal form: it neither
    starts nor ends with white space, every white-space character in it is
    a single space, and it is no longer than the raw text. *)
Theorem cleanTranscript_normal_form (text : string) :
  singleSpaced (cleanTranscript text) = true
  /\ trimStart (cleanTranscript text) = cleanTranscript text
  /\ trimEnd (cleanTranscript text) = cleanTranscript text
  /\ String.length (cleanTranscript text) <= String.length text.
Proof.
  unfold cleanTranscript.
  set (stripped := removeAll (reLiteral "[adultswim]")
                     (removeAll reBracket (removeAll reClock text))).
  split.
  { unfold trim. apply trimEnd_singleSpaced, trimStart_singleSpaced,
      collapse_singleSpaced. }
  split; [apply trim_fixed|]. split; [apply trim_fixed|].
  pose proof (trim_length (replaceAll reSpaces " " stripped)) as H1.
  pose proof (replaceAllFrom_char_length reSpaces " " stripped 0) as H2.
  fold (replaceAll reSpaces " " stripped) in H2.
  pose proof (removeAll_length (reLiteral "[adultswim]")
                (removeAll reBracket (removeAll reClock text))) as H3.
  pose proof (removeAll_length reBracket (removeAll reClock text)) as H4.
  pose proof (removeAll_length reClock text) as H5.
  fold stripped in H3. lia.
Qed.

End TextFacts.

(* ===================================================================== *)
(** ** Decimal numbers, durations and timestamps *)
(* ===================================================================== *)

Module NumberFacts.
Import JS YouTube.

Lemma digitsValue_uint (d : Decimal.uint) (acc : nat) :
  digitsValue acc (NilEmpty.string_of_uint d) = Nat.of_uint_acc d acc.
Proof.
  revert acc; induction d; intros acc;
    cbn [NilEmpty.string_of_uint digitsValue Nat.of_uint_acc];
    try reflexivity;
    rewrite <- IHd; f_equal; rewrite Nat.tail_mul_spec;
    match goal with
    | |- context [nat_of_ascii ?c] =>
        let v := eval vm_compute in (nat_of_ascii c) in
        change (nat_of_ascii c) with v
    end; lia.
Qed.

Lemma to_uint_not_nil (n : nat) : Nat.to_uint n <> Decimal.Nil.
Proof.
  intros E. pose proof (f_equal Nat.of_uint E) as E0.
  rewrite DecimalNat.Unsigned.of_to in E0. cbn in E0. subst n.
  vm_compute in E. discriminate.
Qed.

Lemma numberToString_uint (n : nat) :
  numberToString n = NilEmpty.string_of_uint (Nat.to_uint n).
Proof.
  unfold numberToString, NilZero.string_of_uint.
  pose proof (to_uint_not_nil n) as H.
  destruct (Nat.to_uint n); [congruence | reflexivity ..].
Qed.

(** [Number(String(n))] is [n]. *)
Lemma digitsValue_numberToString (n : nat) :
  digitsValue 0 (numberToString n) = n.
Proof.
  rewrite numberToString_uint, digitsValue_uint.
  apply DecimalNat.Unsigned.of_to.
Qed.

Lemma uint_digits (d : Decimal.uint) :
  run isDigit (NilEmpty.string_of_uint d)
  = String.length (NilEmpty.string_of_uint d).
Proof.
  induction d; cbn [NilEmpty.string_of_uint run String.length];
    try reflexivity;
    match goal with
    | |- context [isDigit ?c] =>
        change (isDigit c) with true
    end; cbv iota; f_equal; exact IHd.
Qed.

Lemma numberToString_digits (n : nat) :
  run isDigit (numberToString n) = String.length (numberToString n)
  /\ 1 <= String.length (numberToString n).
Proof.
  rewrite numberToString_uint. split; [apply uint_digits|].
  pose proof (to_uint_not_nil n) as H.
  destruct (Nat.to_uint n); [congruence | cbn; lia ..].
Qed.

Lemma append_cons (c : ascii) (s x : string) :
  (String c s ++ x)%string = String c (s ++ x)%string.
Proof. reflexivity. Qed.

Lemma append_assoc (a b c : string) :
  ((a ++ b) ++ c)%string = (a ++ (b ++ c))%string.
Proof.
  induction a as [|x a IH]; [reflexivity|].
  rewrite !append_cons, IH. reflexivity.
Qed.

Lemma run_digits_append (s : string) (u : ascii) (rest : string) :
  run isDigit s = String.length s -> isDigit u = false ->
  run isDigit (s ++ String u rest) = String.length s.
Proof.
  intros Hs Hu. induction s as [|c s IH].
  - change (EmptyString ++ String u rest)%string with (String u rest).
    cbn [run]. rewrite Hu. reflexivity.
  - rewrite append_cons. cbn [run String.length] in *.
    destruct (isDigit c); [|discriminate]. f_equal. apply IH. lia.
Qed.

Lemma drop_append (s x : string) : drop (String.length s) (s ++ x) = x.
Proof.
  induction s as [|c s IH]; [destruct x; reflexivity|].
  rewrite append_cons. cbn [String.length drop]. exact IH.
Qed.

Lemma substring_append (s x : string) :
  substring 0 (String.length s) (s ++ x) = s.
Proof.
  induction s as [|c s IH]; [destruct x; reflexivity|].
  rewrite append_cons. cbn [String.length substring]. rewrite IH. reflexivity.
Qed.

(** A group of the duration pattern takes the number in front of its own
    unit, and takes nothing in front of another unit or at the end. *)
Lemma durationField_taken (u : ascii) (n : nat) (rest : string) :
  isDigit u = false ->
  durationField u (numberToString n ++ String u rest) = (Some n, rest).
Proof.
  intros Hu. destruct (numberToString_digits n) as [Hd Hl].
  unfold durationField. rewrite (run_digits_append _ _ _ Hd Hu).
  destruct (String.length (numberToString n)) as [|k] eqn:E; [lia|].
  rewrite <- E, drop_append, substring_append, Ascii.eqb_refl.
  rewrite digitsValue_numberToString. reflexivity.
Qed.

Lemma durationField_other (u v : ascii) (n : nat) (rest : string) :
  isDigit v = false -> v <> u ->
  durationField u (numberToString n ++ String v rest)
  = (None, (numberToString n ++ String v rest)%string).
Proof.
  intros Hv Hne. destruct (numberToString_digits n) as [Hd Hl].
  unfold durationField. rewrite (run_digits_append _ _ _ Hd Hv).
  destruct (String.length (numberToString n)) as [|k] eqn:E; [lia|].
  rewrite <- E, drop_append.
  destruct (Ascii.eqb_spec v u); [contradiction | reflexivity].
Qed.

Lemma afterPT_none (s : string) : includes s "PT" = false -> afterPT s = None.
Proof.
  induction s as [|c s IH]; [reflexivity|].
  cbn [includes afterPT]. intros H. apply orb_false_iff in H.
  destruct H as [-> H]. apply IH. exact H.
Qed.

Lemma afterPT_found (x : string) : afterPT ("PT" ++ x) = Some x.
Proof. destruct x; reflexivity. Qed.

(** X20.  [parseDurationToMinutes] reads the hours, minutes and seconds of an
    ISO 8601 duration back, whichever of them are present, and counts any
    seconds as one more minute; a string without [PT] (a duration of whole
    days, for one) counts as 0 minutes. *)
Theorem parseDurationToMinutes_rounds_up (h m s : option nat) :
  parseDurationToMinutes (isoDuration h m s)
  = fieldValue h * 60 + fieldValue m + (if 0 <? fieldValue s then 1 else 0)
  /\ (forall duration, includes duration "PT" = false ->
        parseDurationToMinutes duration = 0).
Proof.
  split.
  - unfold parseDurationToMinutes, isoDuration.
    rewrite afterPT_found.
    destruct h as [h|], m as [m|], s as [s|]; cbn [durationComponent fieldValue];
      rewrite ?append_assoc;
      repeat first
        [ progress change (EmptyString ++ ?x)%string with x
        | progress change (String ?u EmptyString ++ ?x)%string with (String u x)
        | rewrite durationField_taken by reflexivity
        | rewrite durationField_other by (first [reflexivity | discriminate]) ];
      reflexivity.
  - intros duration H. unfold parseDurationToMinutes.
    rewrite (afterPT_none _ H). reflexivity.
Qed.

End NumberFacts.

Module TimestampFacts.
Import JS YouTube VideoReferences NumberFacts.

Lemma digit_not_colon (c : ascii) : isDigit c = true -> Ascii.eqb ":" c = false.
Proof.
  intros H. destruct (Ascii.eqb_spec ":" c) as [<- |]; [|reflexivity].
  vm_compute in H. discriminate.
Qed.

Lemma colon_at_head (c : ascii) (s : string) :
  reLiteral ":" (String c s) = if Ascii.eqb ":" c then Some 1 else None.
Proof.
  unfold reLiteral. cbn [startsWith]. destruct (Ascii.eqb ":" c); [|reflexivity].
  destruct s; reflexivity.
Qed.

Lemma split_digits (s : string) :
  run isDigit s = String.length s -> split (reLiteral ":") s = [s].
Proof.
  unfold split. induction s as [|c s IH]; intros H; [reflexivity|].
  cbn [run String.length] in H. destruct (isDigit c) eqn:E; [|discriminate].
  cbn [splitFrom]. rewrite colon_at_head, (digit_not_colon _ E).
  rewrite IH by lia. reflexivity.
Qed.

Lemma split_digits_colon (s rest : string) :
  run isDigit s = String.length s ->
  split (reLiteral ":") (s ++ String ":" rest)
  = s :: split (reLiteral ":") rest.
Proof.
  unfold split. induction s as [|c s IH]; intros H.
  - change (EmptyString ++ String ":" rest)%string with (String ":" rest).
    cbn [splitFrom]. rewrite colon_at_head. reflexivity.
  - cbn [run String.length] in H. destruct (isDigit c) eqn:E; [|discriminate].
    rewrite append_cons. cbn [splitFrom].
    rewrite colon_at_head, (digit_not_colon _ E).
    rewrite IH by lia. reflexivity.
Qed.

Lemma append_length_string (s x : string) :
  String.length s + String.length x = String.length (s ++ x).
Proof.
  induction s as [|c s IH]; [reflexivity|].
  rewrite append_cons. cbn [String.length]. rewrite <- IH. reflexivity.
Qed.

Lemma padStart2_digits (n : nat) :
  run isDigit (padStart2 n) = String.length (padStart2 n)
  /\ digitsValue 0 (padStart2 n) = n.
Proof.
  destruct (numberToString_digits n) as [Hd _].
  unfold padStart2. destruct (String.length (numberToString n) <? 2).
  - change ("0" ++ numberToString n)%string with (String "0" (numberToString n)).
    cbn [run String.length digitsValue]. change (isDigit "0") with true. cbv iota.
    split; [f_equal; exact Hd|].
    change (10 * 0 + (nat_of_ascii "0" - 48)) with 0.
    apply digitsValue_numberToString.
  - split; [exact Hd | apply digitsValue_numberToString].
Qed.

Lemma seconds_split (n : nat) :
  n / 3600 * 3600 + n mod 3600 / 60 * 60 + n mod 60 = n.
Proof.
  assert (Hmod : (n mod 3600) mod 60 = n mod 60).
  { change 3600 with (60 * 60). rewrite Nat.Div0.mod_mul_r.
    rewrite (Nat.mul_comm 60), Nat.Div0.mod_add, Nat.Div0.mod_mod. reflexivity. }
  pose proof (Nat.div_mod_eq n 3600) as H1.
  pose proof (Nat.div_mod_eq (n mod 3600) 60) as H2.
  lia.
Qed.

Lemma padStart2_two (n : nat) :
  n < 60 ->
  exists a b, padStart2 n = String a (String b EmptyString)
              /\ isDigit a = true /\ isDigit b = true.
Proof.
  intros H.
  do 60 (destruct n as [|n];
         [eexists _, _; repeat split; vm_compute; reflexivity|]).
  lia.
Qed.

Lemma secondsOf_formatted (seconds : nat) :
  secondsOf (formatTimestamp seconds) = seconds.
Proof.
  unfold formatTimestamp, secondsOf. cbv zeta.
  destruct (padStart2_digits (seconds mod 60)) as [Hs1 Hs2].
  destruct (padStart2_digits ((seconds mod 3600) / 60)) as [Hm1 Hm2].
  destruct (numberToString_digits (seconds / 3600)) as [Hh1 Hh2].
  destruct (numberToString_digits ((seconds mod 3600) / 60)) as [Hn1 Hn2].
  destruct (0 <? seconds / 3600) eqn:E.
  - change (":" ++ ?x)%string with (String ":" x).
    rewrite (split_digits_colon _ _ Hh1).
    change (":" ++ ?x)%string with (String ":" x).
    rewrite (split_digits_colon _ _ Hm1), (split_digits _ Hs1).
    cbn [map]. rewrite Hs2, Hm2, digitsValue_numberToString.
    apply seconds_split.
  - change (":" ++ ?x)%string with (String ":" x).
    rewrite (split_digits_colon _ _ Hn1), (split_digits _ Hs1).
    cbn [map]. rewrite Hs2, digitsValue_numberToString.
    apply Nat.ltb_ge in E. pose proof (seconds_split seconds) as H. lia.
Qed.

(** What may follow a timestamp without being read as its third part. *)
Lemma clock_tail (R : string) (d1 : nat) :
  (forall r, R = String ":" r -> twoDigits r = false) ->
  match R with
  | String ":" rest' => if twoDigits rest' then Some (d1 + 6) else Some (d1 + 3)
  | _ => Some (d1 + 3)
  end = Some (d1 + 3).
Proof.
  intros H. destruct R as [|c R]; [reflexivity|].
  destruct (Ascii.eqb_spec c ":") as [-> | Hne].
  - rewrite (H R eq_refl). reflexivity.
  - destruct c as [[] [] [] [] [] [] [] []]; try reflexivity. congruence.
Qed.

Lemma reClock_formatted (seconds : nat) (R : string) :
  (forall r, R = String ":" r -> twoDigits r = false) ->
  reClock (formatTimestamp seconds ++ R)%string
  = Some (String.length (formatTimestamp seconds)).
Proof.
  intros HR. unfold formatTimestamp. cbv zeta.
  destruct (numberToString_digits (seconds / 3600)) as [Hh1 Hh2].
  destruct (numberToString_digits ((seconds mod 3600) / 60)) as [Hn1 Hn2].
  destruct (padStart2_two (seconds mod 60)) as (a & b & Ep & Ha & Hb).
  { apply Nat.mod_upper_bound. discriminate. }
  destruct (padStart2_two ((seconds mod 3600) / 60)) as (c & d & Eq & Hc & Hd).
  { apply Nat.Div0.div_lt_upper_bound. apply Nat.mod_upper_bound. discriminate. }
  rewrite Ep, Eq.
  destruct (0 <? seconds / 3600).
  - rewrite append_assoc.
    change ((":" ++ String c (String d EmptyString) ++ ":"
             ++ String a (String b EmptyString)) ++ R)%string
      with (String ":" (String c (String d (String ":"
              (String a (String b R)))))).
    change (":" ++ String c (String d EmptyString) ++ ":"
            ++ String a (String b EmptyString))%string
      with (String ":" (String c (String d (String ":"
              (String a (String b EmptyString)))))).
    unfold reClock. rewrite (run_digits_append _ _ _ Hh1) by reflexivity.
    destruct (String.length (numberToString (seconds / 3600))) as [|k] eqn:El;
      [lia|].
    rewrite <- El, drop_append. cbn [twoDigits drop]. rewrite Ha, Hb, Hc, Hd.
    cbn [andb]. f_equal.
    rewrite <- (append_length_string (numberToString (seconds / 3600))).
    reflexivity.
  - rewrite append_assoc.
    change ((":" ++ String a (String b EmptyString)) ++ R)%string
      with (String ":" (String a (String b R))).
    change (":" ++ String a (String b EmptyString))%string
      with (String ":" (String a (String b EmptyString))).
    unfold reClock. rewrite (run_digits_append _ _ _ Hn1) by reflexivity.
    destruct (String.length (numberToString (seconds mod 3600 / 60)))
      as [|k] eqn:El; [lia|].
    rewrite <- El, drop_append. cbn [twoDigits drop]. rewrite Ha, Hb.
    cbn [andb]. rewrite (clock_tail R _ HR). f_equal.
    rewrite <- (append_length_string (numberToString (seconds mod 3600 / 60))).
    reflexivity.
Qed.

(** X21.  Reading a formatted timestamp back gives the seconds it was made
    from: [formatTimestamp] writes what the segment extraction parses, and
    the clock pattern of the transcript helpers matches it whole. *)
Theorem formatTimestamp_round_trip (seconds : nat) :
  secondsOf (formatTimestamp seconds) = seconds
  /\ reClock (formatTimestamp seconds)
     = Some (String.length (formatTimestamp seconds)).
Proof.
  split; [apply secondsOf_formatted|].
  rewrite <- (JSFacts.append_empty_r (formatTimestamp seconds)) at 1.
  apply reClock_formatted. intros r H. discriminate.
Qed.

End TimestampFacts.

(* ===================================================================== *)
(** ** The segments of a transcript and the selection of videos *)
(* ===================================================================== *)

Module SegmentFacts.
Import JS TimestampMatching YouTube.

Lemma closeSegments_nth (pushed : list (string * string * nat)) (i : nat)
    (a : TimestampSegment) :
  nth_error (closeSegments pushed) i = Some a ->
  exists t d sec,
    nth_error pushed i = Some (t, d, sec)
    /\ text a = t /\ timestampDisplay a = d
    /\ timestampSeconds a = Z.of_nat sec
    /\ endSeconds a
       = match nth_error pushed (S i) with
         | Some (_, _, next) => Z.of_nat next
         | None => (Z.of_nat sec + 10)%Z
         end.
Proof.
  revert i; induction pushed as [|[[t d] sec] rest IH]; intros i H.
  - destruct i; discriminate.
  - destruct i as [|i]; cbn [closeSegments nth_error] in H.
    + injection H as <-. exists t, d, sec. cbn [nth_error].
      destruct rest as [|[[t' d'] next] rest']; repeat split.
    + destruct (IH _ H) as (t' & d' & sec' & Hn & Ht & Hd & Hs & He).
      exists t', d', sec'. cbn [nth_error]. repeat split; assumption.
Qed.

Lemma closeSegments_length (pushed : list (string * string * nat)) :
  List.length (closeSegments pushed) = List.length pushed.
Proof.
  induction pushed as [|[[t d] sec] rest IH]; [reflexivity|].
  cbn [closeSegments List.length]. rewrite IH. reflexivity.
Qed.

Lemma nth_error_last {A : Type} (l : list A) (d : A) :
  l <> [] -> nth_error l (List.length l - 1) = Some (last l d).
Proof.
  induction l as [|x l IH]; intros H; [congruence|].
  destruct l as [|y r]; [reflexivity|].
  replace (List.length (x :: y :: r) - 1)
    with (S (List.length (y :: r) - 1)) by (cbn [List.length]; lia).
  cbn [nth_error]. rewrite IH by discriminate. reflexivity.
Qed.

Lemma pushedSegments_text (text : string) (t d : string) (sec : nat) :
  In (t, d, sec) (pushedSegments text) ->
  5 < String.length t /\ trimStart t = t /\ trimEnd t = t
  /\ sec = secondsOf d.
Proof.
  unfold pushedSegments. intros H. apply in_map_iff in H.
  destruct H as ([cur disp] & E & Hin). cbn [fst snd] in E.
  injection E as <- <- <-. apply filter_In in Hin. destruct Hin as [_ Hlen].
  cbn [fst] in Hlen. apply Nat.ltb_lt in Hlen.
  split; [exact Hlen|]. split; [apply TextFacts.trim_fixed|].
  split; [apply TextFacts.trim_fixed | reflexivity].
Qed.

(** X22.  The segments [extractTimestampSegments] returns are chained: each one
    ends where the next one starts, and the last one ends 10 seconds after
    its start.  Every segment has a trimmed text of more than 5 characters
    and the start its display denotes; and the transcript they span, the
    end of the last segment, is at least 10 seconds long. *)
Theorem extracted_segments_are_chained (raw : string) :
  let segments := extractTimestampSegments raw in
  (forall i a b,
     nth_error segments i = Some a -> nth_error segments (S i) = Some b ->
     endSeconds a = timestampSeconds b)
  /\ (forall a,
        nth_error segments (List.length segments - 1) = Some a ->
        endSeconds a = (timestampSeconds a + 10)%Z)
  /\ (forall a, In a segments ->
        5 < String.length (text a)
        /\ trimStart (text a) = text a /\ trimEnd (text a) = text a
        /\ timestampSeconds a = Z.of_nat (secondsOf (timestampDisplay a)))
  /\ (segments <> [] -> (10 <= totalDurationOf segments)%Z).
Proof.
  cbv zeta. unfold extractTimestampSegments.
  set (pushed := pushedSegments raw).
  assert (Hlast : forall a,
            nth_error (closeSegments pushed) (List.length (closeSegments pushed) - 1)
            = Some a ->
            endSeconds a = (timestampSeconds a + 10)%Z).
  { intros a Ha. destruct (closeSegments_nth _ _ _ Ha)
      as (t & d & sec & Hn & _ & _ & Hs & He).
    rewrite closeSegments_length in He.
    assert (Hnone : nth_error pushed (S (List.length pushed - 1)) = None).
    { apply nth_error_None. lia. }
    rewrite Hnone in He. rewrite He, Hs. reflexivity. }
  split.
  { intros i a b Ha Hb.
    destruct (closeSegments_nth _ _ _ Ha) as (t & d & sec & _ & _ & _ & _ & He).
    destruct (closeSegments_nth _ _ _ Hb) as (t' & d' & sec' & Hn' & _ & _ & Hs' & _).
    rewrite Hn' in He. rewrite He, Hs'. reflexivity. }
  split; [exact Hlast|].
  split.
  { intros a Ha. apply In_nth_error in Ha. destruct Ha as [i Ha].
    destruct (closeSegments_nth _ _ _ Ha) as (t & d & sec & Hn & Ht & Hd & Hs & _).
    apply nth_error_In in Hn. apply pushedSegments_text in Hn.
    destruct Hn as (H1 & H2 & H3 & H4). rewrite Ht, Hd, Hs, H4.
    repeat split; assumption. }
  intros Hne.
  destruct (closeSegments pushed) as [|s0 rest] eqn:E; [congruence|].
  rewrite <- E in *.
  rewrite (AlignFacts.totalDurationOf_last _ s0) by (rewrite E; discriminate).
  assert (Hl : nth_error (closeSegments pushed)
                 (List.length (closeSegments pushed) - 1)
               = Some (last (closeSegments pushed) s0)).
  { apply nth_error_last. rewrite E. discriminate. }
  rewrite (Hlast _ Hl).
  destruct (closeSegments_nth _ _ _ Hl) as (t & d & sec & _ & _ & _ & -> & _).
  lia.
Qed.

End SegmentFacts.

Module RenderFacts.
Import JS TimestampMatching YouTube VideoReferences NumberFacts TimestampFacts.

Lemma scan_text (t : string) (current rest : string) :
  digitFree t = true ->
  scanTimestamps current 0 (t ++ rest)%string
  = scanTimestamps (current ++ t)%string 0 rest.
Proof.
  revert current; induction t as [|c t IH]; intros current H.
  - rewrite JSFacts.append_empty_r. reflexivity.
  - cbn [digitFree] in H. apply andb_true_iff in H. destruct H as [Hc Ht].
    apply negb_true_iff in Hc.
    rewrite append_cons. cbn [scanTimestamps]. rewrite Hc.
    rewrite (IH _ Ht), append_assoc. reflexivity.
Qed.

Lemma scan_skip (k : nat) (s current : string) :
  scanTimestamps current (S k) s = scanTimestamps EmptyString 0 (drop (S k) s).
Proof.
  revert k current; induction s as [|c s IH]; intros k current; [reflexivity|].
  cbn [scanTimestamps drop]. destruct k as [|k]; [|apply IH].
  destruct s; reflexivity.
Qed.

Lemma digitFree_tail (t : string) (r : string) (x : string) :
  digitFree t = true -> 3 <= String.length t ->
  (t ++ x)%string = String ":" r -> twoDigits r = false.
Proof.
  intros Hd Hl E. destruct t as [|c0 [|c1 [|c2 t]]]; cbn [String.length] in Hl; try lia.
  rewrite !append_cons in E. injection E as _ <-.
  cbn [digitFree] in Hd. apply andb_true_iff in Hd. destruct Hd as [_ Hd].
  apply andb_true_iff in Hd. destruct Hd as [H1 _]. apply negb_true_iff in H1.
  cbn [twoDigits]. rewrite H1. reflexivity.
Qed.

Lemma render_tail (pieces : list (string * nat)) (r : string) :
  Forall (fun p => digitFree (fst p) = true
                   /\ 5 < String.length (trim (fst p))) pieces ->
  renderTranscript pieces = String ":" r -> twoDigits r = false.
Proof.
  intros Hall E. destruct pieces as [|[t n] rest]; [discriminate|].
  inversion Hall as [|? ? [Hd Hl] _]; subst. cbn [fst] in *.
  cbn [renderTranscript] in E.
  pose proof (TextFacts.trim_length t) as Ht.
  apply (digitFree_tail t r (formatTimestamp n ++ renderTranscript rest)%string Hd);
    [lia | exact E].
Qed.

Lemma scan_render (pieces : list (string * nat)) :
  Forall (fun p => digitFree (fst p) = true
                   /\ 5 < String.length (trim (fst p))) pieces ->
  scanTimestamps EmptyString 0 (renderTranscript pieces)
  = map (fun p => (fst p, formatTimestamp (snd p))) pieces.
Proof.
  induction pieces as [|[t n] rest IH]; intros Hall; [reflexivity|].
  inversion Hall as [|? ? [Hd Hl] Hrest]; subst. cbn [fst snd] in *.
  cbn [renderTranscript map fst snd].
  rewrite (scan_text t _ _ Hd).
  change (EmptyString ++ t)%string with t.
  pose proof (reClock_formatted n (renderTranscript rest)
                (fun r => render_tail rest r Hrest)) as Hclock.
  pose proof (substring_append (formatTimestamp n) (renderTranscript rest)) as Hsub.
  pose proof (drop_append (formatTimestamp n) (renderTranscript rest)) as Hdrop.
  pose proof (TextFacts.trim_length t) as Ht.
  destruct (formatTimestamp n ++ renderTranscript rest)%string as [|c X] eqn:E.
  { unfold reClock in Hclock. cbn in Hclock. discriminate. }
  assert (Hc : isDigit c = true).
  { unfold reClock in Hclock. cbn [run] in Hclock.
    destruct (isDigit c); [reflexivity | discriminate]. }
  cbn [scanTimestamps]. rewrite Hc.
  destruct t as [|c0 t']; [cbn in Hl; lia|].
  rewrite Hclock.
  destruct (String.length (formatTimestamp n)) as [|k] eqn:El.
  { unfold reClock in Hclock. destruct (run isDigit (String c X));
      [discriminate|]. destruct (drop _ _) as [|[[] [] [] [] [] [] [] []] ?];
      try discriminate.
    destruct (twoDigits _); [|discriminate].
    destruct (drop 2 _) as [|[[] [] [] [] [] [] [] []] ?]; try discriminate;
      try (destruct (twoDigits _)); injection Hclock; lia. }
  rewrite Hsub. f_equal.
  cbn [drop] in Hdrop. destruct k as [|k].
  - assert (HX : X = renderTranscript rest) by (destruct X; exact Hdrop).
    rewrite HX. apply IH. exact Hrest.
  - rewrite scan_skip. cbn [drop] in Hdrop |- *. rewrite Hdrop.
    apply IH. exact Hrest.
Qed.

(** X23.  On a transcript in the layout it is written for, pieces of text each
    followed by the timestamp of its start, [extractTimestampSegments]
    returns the pieces: for texts without digits and of more than 5
    characters once trimmed, one segment for each piece, with the trimmed
    text, the timestamp as displayed and its seconds, each segment ending
    where the next one starts. *)
Theorem extract_reads_rendered_transcript (pieces : list (string * nat)) :
  Forall (fun p => digitFree (fst p) = true
                   /\ 5 < String.length (trim (fst p))) pieces ->
  extractTimestampSegments (renderTranscript pieces)
  = closeSegments
      (map (fun p => (trim (fst p), formatTimestamp (snd p), snd p)) pieces).
Proof.
  intros Hall. unfold extractTimestampSegments, pushedSegments.
  rewrite (scan_render _ Hall). f_equal.
  induction pieces as [|[t n] rest IH]; [reflexivity|].
  inversion Hall as [|? ? [Hd Hl] Hrest]; subst. cbn [fst snd] in *.
  cbn [map filter fst snd].
  apply Nat.ltb_lt in Hl. rewrite Hl. cbn [map fst snd].
  rewrite (secondsOf_formatted n), (IH Hrest). reflexivity.
Qed.

Lemma extract_reads_rendered_transcript_witness :
  extractTimestampSegments
    (renderTranscript [("welcome back everyone ", 0); (" today we bake bread ", 125)])
  = [mkSegment "welcome back everyone" "0:00" 0 125;
     mkSegment "today we bake bread" "2:05" 125 135].
Proof.
  apply (extract_reads_rendered_transcript
           [("welcome back everyone ", 0); (" today we bake bread ", 125)]).
  repeat constructor; vm_compute; lia.
Defined.

End RenderFacts.

Module SelectionFacts.
Import JS Ingestion YouTube.

Lemma firstn_all_le {A : Type} (n : nat) (l : list A) :
  List.length l <= n -> firstn n l = l.
Proof. intros H. apply firstn_all2. exact H. Qed.

Lemma filter_filter_length {A : Type} (f g : A -> bool) (l : list A) :
  List.length (filter f (filter g l))
  = List.length (filter (fun x => f x && g x) l).
Proof.
  induction l as [|x l IH]; [reflexivity|].
  cbn [filter]. destruct (g x) eqn:Eg.
  - cbn [filter]. destruct (f x) eqn:Ef; cbn [andb List.length];
      rewrite IH; reflexivity.
  - rewrite Bool.andb_false_r. exact IH.
Qed.

Lemma filter_none {A : Type} (f : A -> bool) (l : list A) :
  (forall x, In x l -> f x = false) -> filter f l = [].
Proof.
  induction l as [|x l IH]; intros H; [reflexivity|].
  cbn [filter]. rewrite (H x) by (left; reflexivity).
  apply IH. intros y Hy. apply H. right. exact Hy.
Qed.

(** The explicit form of the selection: the outer [slice] cuts nothing. *)
Lemma selectVideos_parts (allVideos : list Video) (maxVideos : nat) :
  let inRange := filter validDuration allVideos in
  selectVideos allVideos maxVideos
  = firstn maxVideos (filter hasCaptions inRange)
    ++ firstn (maxVideos - List.length (filter hasCaptions inRange))
              (filter (fun v => negb (hasCaptions v)) inRange).
Proof.
  cbv zeta. unfold selectVideos. cbv zeta.
  change (filter (fun video => _) allVideos) with (filter validDuration allVideos).
  apply firstn_all_le. rewrite length_app, !length_firstn. lia.
Qed.

(** X24.  What [getChannelVideos] hands to the job: at most [maxVideos] videos,
    all of them fetched videos of 2 to 25 minutes, those with captions
    before the others; a video without captions is selected only when
    every captioned video in range is; and the number of videos the job
    can process is the number of captioned videos in range, up to
    [maxVideos]. *)
Theorem selected_videos_are_in_range (allVideos : list Video) (maxVideos : nat) :
  let videos := selectVideos allVideos maxVideos in
  List.length videos <= maxVideos
  /\ (forall v, In v videos -> In v allVideos /\ validDuration v = true)
  /\ videosWithValidDuration videos = List.length videos
  /\ videosEligibleForProcessing videos
     = Nat.min maxVideos (videosEligibleForProcessing allVideos)
  /\ (exists captioned others,
        videos = captioned ++ others
        /\ forallb hasCaptions captioned = true
        /\ forallb (fun v => negb (hasCaptions v)) others = true
        /\ (others <> [] ->
            captioned = filter hasCaptions (filter validDuration allVideos))).
Proof.
  cbv zeta. rewrite selectVideos_parts. cbv zeta.
  set (inRange := filter validDuration allVideos).
  set (W := filter hasCaptions inRange).
  set (U := filter (fun v => negb (hasCaptions v)) inRange).
  assert (HW : forall v, In v W -> In v allVideos /\ validDuration v = true
                                   /\ hasCaptions v = true).
  { intros v Hv. apply filter_In in Hv. destruct Hv as [Hv Hc].
    apply filter_In in Hv. destruct Hv as [Hv Hd]. repeat split; assumption. }
  assert (HU : forall v, In v U -> In v allVideos /\ validDuration v = true
                                   /\ hasCaptions v = false).
  { intros v Hv. apply filter_In in Hv. destruct Hv as [Hv Hc].
    apply filter_In in Hv. destruct Hv as [Hv Hd].
    apply negb_true_iff in Hc. repeat split; assumption. }
  assert (Hin : forall v, In v (firstn maxVideos W ++ firstn (maxVideos - List.length W) U) ->
                          In v allVideos /\ validDuration v = true).
  { intros v Hv. apply in_app_or in Hv. destruct Hv as [Hv | Hv];
      apply FusionShape.firstn_incl in Hv.
    - destruct (HW v Hv) as (H1 & H2 & _). split; assumption.
    - destruct (HU v Hv) as (H1 & H2 & _). split; assumption. }
  split.
  { rewrite length_app, !length_firstn. lia. }
  split; [exact Hin|].
  split.
  { unfold videosWithValidDuration. f_equal. apply FusionFacts.filter_all.
    apply forallb_forall. intros v Hv. apply (Hin v Hv). }
  split.
  { unfold videosEligibleForProcessing. rewrite filter_app, length_app.
    rewrite (FusionFacts.filter_all _ (firstn maxVideos W)).
    2:{ apply forallb_forall. intros v Hv. apply FusionShape.firstn_incl in Hv.
        destruct (HW v Hv) as (_ & -> & ->). reflexivity. }
    assert (H0 : filter (fun v => hasCaptions v && validDuration v)
                        (firstn (maxVideos - List.length W) U) = []).
    { apply filter_none. intros v Hv. apply FusionShape.firstn_incl in Hv.
      destruct (HU v Hv) as (_ & _ & ->). reflexivity. }
    rewrite H0, length_firstn. cbn [List.length].
    unfold W, inRange. rewrite filter_filter_length. lia. }
  exists (firstn maxVideos W), (firstn (maxVideos - List.length W) U).
  split; [reflexivity|]. split.
  { apply forallb_forall. intros v Hv. apply FusionShape.firstn_incl in Hv.
    apply (HW v Hv). }
  split.
  { apply forallb_forall. intros v Hv. apply FusionShape.firstn_incl in Hv.
    destruct (HU v Hv) as (_ & _ & ->). reflexivity. }
  intros Hne. apply firstn_all_le.
  destruct (Nat.le_gt_cases (List.length W) maxVideos) as [H | H]; [exact H|].
  exfalso. apply Hne. replace (maxVideos - List.length W) with 0 by lia.
  reflexivity.
Qed.

End SelectionFacts.

(* ===================================================================== *)
(** ** Sanitized and normalized text *)
(* ===================================================================== *)

Module SanitizeFacts.
Import JS YouTube Validation QueryPreprocessing TextFacts.

Lemma replaceAllFrom_allChars (q : ascii -> bool) (re : matcher) (rep : string)
    (s : string) (k : nat) :
  allChars q rep = true -> allChars q s = true ->
  allChars q (replaceAllFrom re rep k s) = true.
Proof.
  intros Hrep. revert k; induction s as [|c s IH]; intros k H; [reflexivity|].
  cbn [allChars] in H. apply andb_true_iff in H. destruct H as [Hc Hs].
  cbn [replaceAllFrom]. destruct k as [|k]; [|apply IH; exact Hs].
  destruct (re (String c s)) as [[|j]|].
  - cbn [allChars]. rewrite Hc. apply IH. exact Hs.
  - assert (Happ : forall a b, allChars q a = true -> allChars q b = true ->
                     allChars q (a ++ b) = true).
    { intros a b Ha Hb. induction a as [|x a IHa]; [exact Hb|].
      rewrite NumberFacts.append_cons. cbn [allChars] in *.
      apply andb_true_iff in Ha. destruct Ha as [-> Ha]. apply IHa. exact Ha. }
    apply Happ; [exact Hrep | apply IH; exact Hs].
  - cbn [allChars]. rewrite Hc. apply IH. exact Hs.
Qed.

Lemma removeAll_class (p : ascii -> bool) (s : string) :
  allChars (fun c => negb (p c)) (removeAll (reClass p) s) = true.
Proof.
  unfold removeAll. induction s as [|c s IH]; [reflexivity|].
  cbn [removeAllFrom reClass]. destruct (p c) eqn:E; [exact IH|].
  cbn [allChars]. rewrite E. exact IH.
Qed.

Lemma substring_length (n : nat) (s : string) :
  String.length (substring 0 n s) <= n
  /\ String.length (substring 0 n s) <= String.length s.
Proof.
  revert n; induction s as [|c s IH]; intros n; destruct n as [|n];
    cbn [substring String.length]; try lia.
  specialize (IH n). lia.
Qed.

Lemma substring_allChars (q : ascii -> bool) (n : nat) (s : string) :
  allChars q s = true -> allChars q (substring 0 n s) = true.
Proof.
  revert n; induction s as [|c s IH]; intros n H; destruct n as [|n];
    try reflexivity.
  cbn [substring allChars] in *. apply andb_true_iff in H. destruct H as [-> H].
  apply IH. exact H.
Qed.

Lemma substring_singleSpaced (n : nat) (s : string) :
  singleSpaced s = true -> singleSpaced (substring 0 n s) = true.
Proof.
  revert n; induction s as [|c s IH]; intros n H; destruct n as [|n];
    try reflexivity.
  cbn [substring singleSpaced] in *. apply andb_true_iff in H.
  destruct H as [Hc Hs]. rewrite (IH n Hs), andb_true_r.
  destruct (isSpace c); [|reflexivity].
  apply andb_true_iff in Hc. destruct Hc as [-> Hclear]. cbn [andb].
  destruct s as [|d s], n as [|n]; try reflexivity. exact Hclear.
Qed.

(** X25.  Sanitized text has at most 10000 characters, none of them a control
    character, and its white space is in normal form; it is no longer
    than the input. *)
Theorem sanitizeText_is_clean (text : string) :
  String.length (sanitizeText text) <= maxSanitizedLength
  /\ String.length (sanitizeText text) <= String.length text
  /\ allChars (fun c => negb (isControl c)) (sanitizeText text) = true
  /\ singleSpaced (sanitizeText text) = true.
Proof.
  unfold sanitizeText.
  set (kept := removeAll (reClass isControl) (trim text)).
  destruct (substring_length maxSanitizedLength (replaceAll reSpaces " " kept)) as [H1 H2].
  split; [exact H1|]. split.
  { pose proof (replaceAllFrom_char_length reSpaces " " kept 0) as H3.
    fold (replaceAll reSpaces " " kept) in H3.
    pose proof (removeAll_length (reClass isControl) (trim text)) as H4.
    fold kept in H4. pose proof (trim_length text). lia. }
  split.
  { apply substring_allChars. apply replaceAllFrom_allChars; [reflexivity|].
    apply removeAll_class. }
  apply substring_singleSpaced, collapse_singleSpaced.
Qed.

Lemma punctuation_space (c : ascii) (s : string) :
  isPunctuation c = true ->
  replaceAll rePunctuation " " (String c s)
  = String " " (replaceAll rePunctuation " " (drop (run isPunctuation s) s)).
Proof.
  intros E. unfold replaceAll. cbn [replaceAllFrom].
  unfold rePunctuation at 1. cbn [run]. rewrite E.
  rewrite space_append, replaceAllFrom_skip. reflexivity.
Qed.

Lemma punctuation_other (c : ascii) (s : string) :
  isPunctuation c = false ->
  replaceAll rePunctuation " " (String c s)
  = String c (replaceAll rePunctuation " " s).
Proof.
  intros E. unfold replaceAll. cbn [replaceAllFrom].
  unfold rePunctuation at 1. cbn [run]. rewrite E. reflexivity.
Qed.

Lemma punctuation_removed (s : string) :
  allChars (fun c => negb (isPunctuation c)) (replaceAll rePunctuation " " s) = true.
Proof.
  remember (String.length s) as n eqn:Hn.
  revert s Hn. induction n as [n IH] using lt_wf_ind. intros s Hn.
  destruct s as [|c s]; [reflexivity|]. cbn [String.length] in Hn.
  destruct (isPunctuation c) eqn:E.
  - rewrite (punctuation_space _ _ E). cbn [allChars].
    change (negb (isPunctuation " ")) with true. cbn [andb].
    apply (IH (String.length (drop (run isPunctuation s) s))); [|reflexivity].
    pose proof (drop_length (run isPunctuation s) s). lia.
  - rewrite (punctuation_other _ _ E). cbn [allChars]. rewrite E. cbn [negb andb].
    apply (IH (String.length s)); [lia | reflexivity].
Qed.

Lemma trimStart_allChars (q : ascii -> bool) (s : string) :
  allChars q s = true -> allChars q (trimStart s) = true.
Proof.
  induction s as [|c s IH]; intros H; [reflexivity|].
  cbn [trimStart]. destruct (isSpace c); [|exact H].
  cbn [allChars] in H. apply andb_true_iff in H. apply IH, H.
Qed.

Lemma trimEnd_allChars (q : ascii -> bool) (s : string) :
  allChars q s = true -> allChars q (trimEnd s) = true.
Proof.
  induction s as [|c s IH]; intros H; [reflexivity|].
  cbn [allChars] in H. apply andb_true_iff in H. destruct H as [Hc Hs].
  specialize (IH Hs). cbn [trimEnd]. destruct (trimEnd s).
  - destruct (isSpace c); [reflexivity|]. cbn [allChars]. rewrite Hc. reflexivity.
  - cbn [allChars] in *. rewrite Hc. exact IH.
Qed.

Lemma collapse_fixed (s : string) :
  singleSpaced s = true -> replaceAll reSpaces " " s = s.
Proof.
  induction s as [|c s IH]; intros H; [reflexivity|].
  cbn [singleSpaced] in H. apply andb_true_iff in H. destruct H as [Hc Hs].
  destruct (isSpace c) eqn:E.
  - apply andb_true_iff in Hc. destruct Hc as [Hsp Hclear].
    apply Ascii.eqb_eq in Hsp. subst c.
    rewrite (collapse_space _ _ E).
    assert (Hrun : run isSpace s = 0).
    { destruct s as [|d s]; [reflexivity|]. cbn [startsClear] in Hclear.
      apply negb_true_iff in Hclear. cbn [run]. rewrite Hclear. reflexivity. }
    rewrite Hrun. replace (drop 0 s) with s by (destruct s; reflexivity).
    rewrite (IH Hs). reflexivity.
  - rewrite (collapse_other _ _ E), (IH Hs). reflexivity.
Qed.

Lemma punctuation_fixed (s : string) :
  allChars (fun c => negb (isPunctuation c)) s = true ->
  replaceAll rePunctuation " " s = s.
Proof.
  induction s as [|c s IH]; intros H; [reflexivity|].
  cbn [allChars] in H. apply andb_true_iff in H. destruct H as [Hc Hs].
  apply negb_true_iff in Hc.
  rewrite (punctuation_other _ _ Hc), (IH Hs). reflexivity.
Qed.

(** X26.  A normalized query has no punctuation mark among [.,!?;] left, its
    white space is in normal form, it neither starts nor ends with white
    space, and normalizing it again changes nothing. *)
Theorem normalizeText_normal_form (text : string) :
  allChars (fun c => negb (isPunctuation c)) (normalizeText text) = true
  /\ singleSpaced (normalizeText text) = true
  /\ trimStart (normalizeText text) = normalizeText text
  /\ trimEnd (normalizeText text) = normalizeText text
  /\ normalizeText (normalizeText text) = normalizeText text.
Proof.
  assert (Hp : allChars (fun c => negb (isPunctuation c)) (normalizeText text) = true).
  { unfold normalizeText, trim.
    apply trimEnd_allChars, trimStart_allChars.
    apply replaceAllFrom_allChars; [reflexivity|]. apply punctuation_removed. }
  assert (Hs : singleSpaced (normalizeText text) = true).
  { unfold normalizeText, trim.
    apply trimEnd_singleSpaced, trimStart_singleSpaced, collapse_singleSpaced. }
  assert (Ht : trimStart (normalizeText text) = normalizeText text
               /\ trimEnd (normalizeText text) = normalizeText text).
  { unfold normalizeText. apply trim_fixed. }
  split; [exact Hp|]. split; [exact Hs|].
  split; [apply Ht|]. split; [apply Ht|].
  set (x := normalizeText text) in *.
  unfold normalizeText at 1.
  rewrite (collapse_fixed x Hs), (punctuation_fixed x Hp), (collapse_fixed x Hs).
  unfold trim. rewrite (proj1 Ht). apply Ht.
Qed.

End SanitizeFacts.

(* ===================================================================== *)
(** ** The keywords of a query *)
(* ===================================================================== *)

Module KeywordFacts.
Import JS YouTube Validation QueryPreprocessing.

Lemma countOf_increment (w word : string) (m : list (string * nat)) :
  countOf w (increment word m)
  = countOf w m + (if String.eqb word w then 1 else 0).
Proof.
  induction m as [|[k n] m IH].
  - cbn [increment countOf]. reflexivity.
  - cbn [increment countOf]. destruct (String.eqb k word) eqn:Ek.
    + apply String.eqb_eq in Ek. subst k. cbn [countOf].
      destruct (String.eqb word w); lia.
    + cbn [countOf]. destruct (String.eqb k w) eqn:Ekw; [|exact IH].
      apply String.eqb_eq in Ekw. subst k. rewrite String.eqb_sym, Ek. lia.
Qed.

Lemma keys_increment (word : string) (m : list (string * nat)) :
  map fst (increment word m)
  = if existsb (String.eqb word) (map fst m) then map fst m
    else map fst m ++ [word].
Proof.
  induction m as [|[k n] m IH]; [reflexivity|].
  cbn [increment map fst existsb]. rewrite (String.eqb_sym word k).
  destruct (String.eqb k word); [reflexivity|].
  cbn [map fst orb]. rewrite IH.
  destruct (existsb _ (map fst m)); reflexivity.
Qed.

Lemma existsb_eqb_In (word : string) (l : list string) :
  existsb (String.eqb word) l = true <-> In word l.
Proof.
  rewrite existsb_exists. split.
  - intros (x & Hx & E). apply String.eqb_eq in E. subst x. exact Hx.
  - intros H. exists word. split; [exact H | apply String.eqb_refl].
Qed.

Lemma keys_increment_In (word w : string) (m : list (string * nat)) :
  In w (map fst (increment word m)) <-> In w (map fst m) \/ w = word.
Proof.
  rewrite keys_increment.
  destruct (existsb (String.eqb word) (map fst m)) eqn:E.
  - apply existsb_eqb_In in E. split; [tauto|].
    intros [H | ->]; assumption.
  - rewrite in_app_iff. cbn [In]. split.
    + intros [H | [<- | []]]; tauto.
    + intros [H | ->]; [left; exact H | right; left; reflexivity].
Qed.

Lemma keys_increment_NoDup (word : string) (m : list (string * nat)) :
  List.NoDup (map fst m) -> List.NoDup (map fst (increment word m)).
Proof.
  intros H. rewrite keys_increment.
  destruct (existsb (String.eqb word) (map fst m)) eqn:E; [exact H|].
  apply NoDup_app.
  - exact H.
  - constructor; [intros [] | constructor].
  - intros x Hx [<- | []].
    apply existsb_eqb_In in Hx. rewrite Hx in E. discriminate.
Qed.

Lemma counted_from (words : list string) (m : list (string * nat)) :
  let counted := fold_left (fun wordCount word => increment word wordCount)
                           words m in
  (List.NoDup (map fst m) -> List.NoDup (map fst counted))
  /\ (forall w, In w (map fst counted) <-> In w (map fst m) \/ In w words)
  /\ (forall w, countOf w counted = countOf w m + occurrences words w).
Proof.
  cbv zeta. revert m; induction words as [|word words IH]; intros m.
  - cbn [fold_left]. split; [tauto|]. split.
    + intros w. cbn [In]. tauto.
    + intros w. unfold occurrences. cbn [count_occ]. lia.
  - cbn [fold_left]. destruct (IH (increment word m)) as (Hnd & Hin & Hc).
    split; [|split].
    + intros H. apply Hnd, keys_increment_NoDup, H.
    + intros w. rewrite Hin, keys_increment_In. cbn [In].
      split; [intros [[H | ->] | H] | intros [H | [<- | H]]]; tauto.
    + intros w. rewrite Hc, countOf_increment. unfold occurrences.
      cbn [count_occ]. destruct (string_dec word w) as [-> | Hne].
      * rewrite String.eqb_refl. lia.
      * destruct (String.eqb word w) eqn:E; [|lia].
        apply String.eqb_eq in E. contradiction.
Qed.

Lemma countOf_entry (m : list (string * nat)) (k : string) (n : nat) :
  List.NoDup (map fst m) -> In (k, n) m -> countOf k m = n.
Proof.
  induction m as [|[k' n'] m IH]; intros Hnd Hin; [destruct Hin|].
  cbn [map fst] in Hnd. inversion Hnd as [|? ? Hk Hnd']; subst.
  cbn [countOf]. destruct Hin as [E | Hin].
  - injection E as -> ->. rewrite String.eqb_refl. reflexivity.
  - destruct (String.eqb k' k) eqn:E.
    + apply String.eqb_eq in E. subst k'. exfalso. apply Hk.
      apply (in_map fst) in Hin. exact Hin.
    + apply IH; assumption.
Qed.

(** The entries of the counted map: one per distinct word, with the
    number of its occurrences. *)
Lemma countWords_entries (words : list string) :
  List.NoDup (map fst (countWords words))
  /\ (forall w, In w (map fst (countWords words)) <-> In w words)
  /\ (forall k n, In (k, n) (countWords words) -> n = occurrences words k).
Proof.
  destruct (counted_from words []) as (Hnd & Hin & Hc).
  fold (countWords words) in Hnd, Hin, Hc.
  assert (Hnd' : List.NoDup (map fst (countWords words))).
  { apply Hnd. constructor. }
  split; [exact Hnd'|]. split.
  - intros w. rewrite Hin. cbn [map In]. tauto.
  - intros k n H. rewrite <- (countOf_entry _ k n Hnd' H), Hc. reflexivity.
Qed.

Lemma insertByCount_perm (x : string * nat) (l : list (string * nat)) :
  Permutation (insertByCount x l) (x :: l).
Proof.
  induction l as [|y l IH]; [reflexivity|].
  cbn [insertByCount]. destruct (snd y <=? snd x); [reflexivity|].
  rewrite IH. apply perm_swap.
Qed.

Lemma sortByCount_perm (l : list (string * nat)) :
  Permutation (sortByCount l) l.
Proof.
  induction l as [|x l IH]; [reflexivity|].
  cbn [sortByCount]. rewrite insertByCount_perm, IH. reflexivity.
Qed.

Lemma insertByCount_sorted (x : string * nat) (l : list (string * nat)) :
  StronglySorted byCount l -> StronglySorted byCount (insertByCount x l).
Proof.
  induction l as [|y l IH]; intros Hs.
  - cbn [insertByCount]. constructor; [constructor | constructor].
  - inversion Hs as [|? ? Hs' Hall]; subst.
    cbn [insertByCount]. destruct (snd y <=? snd x) eqn:E.
    + apply Nat.leb_le in E. constructor; [exact Hs|].
      constructor; [exact E|].
      rewrite List.Forall_forall in *. intros z Hz.
      specialize (Hall z Hz). unfold byCount in *. lia.
    + apply Nat.leb_gt in E. constructor; [apply IH; exact Hs'|].
      rewrite List.Forall_forall in *. intros z Hz.
      apply (Permutation_in _ (insertByCount_perm x l)) in Hz.
      destruct Hz as [<- | Hz]; [unfold byCount; lia | apply Hall; exact Hz].
Qed.

Lemma sortByCount_sorted (l : list (string * nat)) :
  StronglySorted byCount (sortByCount l).
Proof.
  induction l as [|x l IH]; [constructor|].
  cbn [sortByCount]. apply insertByCount_sorted, IH.
Qed.

Lemma byCount_app_le (l1 l2 : list (string * nat)) :
  StronglySorted byCount (l1 ++ l2) ->
  forall a b, In a l1 -> In b l2 -> snd b <= snd a.
Proof.
  induction l1 as [|x l1 IH]; intros Hs a b Ha Hb; [destruct Ha|].
  cbn in Hs. inversion Hs as [|? ? Hs' Hall]; subst.
  destruct Ha as [<- | Ha].
  - rewrite List.Forall_forall in Hall. apply (Hall b).
    apply in_or_app. right. exact Hb.
  - apply IH; assumption.
Qed.

Lemma byCount_nth (l : list (string * nat)) :
  StronglySorted byCount l ->
  forall i j a b, i < j -> nth_error l i = Some a -> nth_error l j = Some b ->
                  snd b <= snd a.
Proof.
  induction l as [|x l IH]; intros Hs i j a b Hij Ha Hb.
  - destruct i; discriminate.
  - inversion Hs as [|? ? Hs' Hall]; subst.
    destruct j as [|j]; [lia|]. cbn [nth_error] in Hb.
    destruct i as [|i].
    + cbn [nth_error] in Ha. injection Ha as <-.
      rewrite List.Forall_forall in Hall.
      apply (Hall b). eapply nth_error_In. exact Hb.
    + cbn [nth_error] in Ha. apply (IH Hs' i j); [lia | assumption..].
Qed.

Lemma candidate_is_keyword_word (text word : string) :
  In word (keywordCandidates text) ->
  2 < String.length word
  /\ ~ In word STOP_WORDS /\ ~ In word FILLER_WORDS
  /\ allChars isWordChar word = true.
Proof.
  unfold keywordCandidates. rewrite filter_In. intros [Hin H].
  apply andb_true_iff in H. destruct H as [H Hf].
  apply andb_true_iff in H. destruct H as [Hl Hs].
  apply Nat.ltb_lt in Hl. apply negb_true_iff in Hs, Hf.
  split; [exact Hl|]. split; [|split].
  - intros Hc. apply existsb_eqb_In in Hc. unfold has in Hs.
    rewrite Hc in Hs. discriminate.
  - intros Hc. apply existsb_eqb_In in Hc. unfold has in Hf.
    rewrite Hc in Hf. discriminate.
  - unfold strippedWords in Hin. apply in_map_iff in Hin.
    destruct Hin as (piece & <- & _). unfold stripNonWord.
    pose proof (SanitizeFacts.removeAll_class
                  (fun c => negb (isWordChar c)) piece) as Hc.
    erewrite <- Hc. clear Hc.
    generalize (removeAll (reClass (fun c => negb (isWordChar c))) piece).
    intros s. induction s as [|c s IH]; [reflexivity|].
    cbn [allChars]. rewrite Bool.negb_involutive, IH. reflexivity.
Qed.

(** X27.  What [extractKeywords] returns: at most ten words, none of them empty,
    made of letters, digits and underscores only.  When the text has a word
    of more than two characters that is neither a stop word nor a filler
    word, the keywords are pairwise distinct such words, listed by
    decreasing number of occurrences; a word of that kind is left out only
    when ten keywords are returned, and then it occurs no more often than
    any keyword. *)
Theorem keywords_are_the_most_frequent_words (text : string) :
  let candidates := keywordCandidates text in
  let keywords := extractKeywords text in
  List.length keywords <= 10
  /\ (forall k, In k keywords ->
        0 < String.length k /\ allChars isWordChar k = true)
  /\ (candidates <> [] ->
      List.NoDup keywords
      /\ (forall k, In k keywords ->
            In k candidates /\ 2 < String.length k
            /\ ~ In k STOP_WORDS /\ ~ In k FILLER_WORDS)
      /\ (forall i j a b, i < j ->
            nth_error keywords i = Some a -> nth_error keywords j = Some b ->
            occurrences candidates b <= occurrences candidates a)
      /\ (forall w, In w candidates -> ~ In w keywords ->
            List.length keywords = 10
            /\ forall k, In k keywords ->
                 occurrences candidates w <= occurrences candidates k)).
Proof.
  cbv zeta. unfold extractKeywords.
  destruct (keywordCandidates text) as [|w0 ws] eqn:Ecands.
  - split; [apply firstn_le_length|]. split; [|intros H; contradiction].
    intros k Hk. apply FusionShape.firstn_incl in Hk.
    apply filter_In in Hk. destruct Hk as [Hin Hl].
    apply Nat.ltb_lt in Hl. split; [exact Hl|].
    unfold strippedWords in Hin. apply in_map_iff in Hin.
    destruct Hin as (piece & <- & _). unfold stripNonWord.
    pose proof (SanitizeFacts.removeAll_class
                  (fun c => negb (isWordChar c)) piece) as Hc.
    erewrite <- Hc. clear Hc.
    generalize (removeAll (reClass (fun c => negb (isWordChar c))) piece).
    intros s. induction s as [|c s IH]; [reflexivity|].
    cbn [allChars]. rewrite Bool.negb_involutive, IH. reflexivity.
  - rewrite <- Ecands.
    assert (Hne : keywordCandidates text <> []) by (rewrite Ecands; discriminate).
    clear Ecands w0 ws.
    set (cands := keywordCandidates text) in *.
    destruct (countWords_entries cands) as (Hnd & Hkeys & Hcount).
    set (sorted := sortByCount (countWords cands)).
    pose proof (sortByCount_perm (countWords cands)) as Hperm.
    pose proof (sortByCount_sorted (countWords cands)) as Hsorted.
    fold sorted in Hperm, Hsorted.
    assert (Hentry : forall k n, In (k, n) sorted ->
                       In k cands /\ n = occurrences cands k).
    { intros k n H. apply (Permutation_in _ Hperm) in H. split.
      - apply Hkeys. apply (in_map fst) in H. exact H.
      - apply Hcount. exact H. }
    assert (Hkw : forall k, In k (map fst (firstn 10 sorted)) ->
                    In (k, occurrences cands k) (firstn 10 sorted)).
    { intros k H. apply in_map_iff in H. destruct H as ([k' n] & E & H).
      cbn [fst] in E. subst k'.
      destruct (Hentry k n (FusionShape.firstn_incl _ _ _ H)) as [_ ->].
      exact H. }
    assert (Hcand : forall k, In k (map fst (firstn 10 sorted)) -> In k cands).
    { intros k H. apply Hkw in H. apply FusionShape.firstn_incl in H.
      apply (Hentry _ _ H). }
    split; [rewrite length_map; apply firstn_le_length|].
    split.
    { intros k H. apply Hcand in H.
      destruct (candidate_is_keyword_word text k H) as (Hl & _ & _ & Hc).
      split; [lia | exact Hc]. }
    intros _. split; [|split; [|split]].
    + rewrite <- firstn_map. apply FusionShape.firstn_NoDup.
      apply (Permutation_NoDup (l := map fst (countWords cands))); [|exact Hnd].
      apply Permutation_map. symmetry. exact Hperm.
    + intros k H. apply Hcand in H. split; [exact H|].
      destruct (candidate_is_keyword_word text k H) as (Hl & Hs & Hf & _).
      tauto.
    + intros i j a b Hij Ha Hb.
      rewrite nth_error_map in Ha, Hb.
      destruct (nth_error (firstn 10 sorted) i) as [[a' na]|] eqn:Ea;
        [|discriminate].
      destruct (nth_error (firstn 10 sorted) j) as [[b' nb]|] eqn:Eb;
        [|discriminate].
      cbn [option_map fst] in Ha, Hb.
      injection Ha as ->. injection Hb as ->.
      assert (Hs : StronglySorted byCount (firstn 10 sorted)).
      { rewrite <- (firstn_skipn 10 sorted) in Hsorted.
        clear - Hsorted. revert Hsorted.
        generalize (firstn 10 sorted) (skipn 10 sorted).
        intros l1 l2. induction l1 as [|x l1 IH]; intros H; [constructor|].
        cbn in H. inversion H as [|? ? H' Hall]; subst.
        constructor; [apply IH; exact H'|].
        rewrite List.Forall_forall in *. intros z Hz. apply Hall.
        apply in_or_app. left. exact Hz. }
      pose proof (byCount_nth _ Hs i j _ _ Hij Ea Eb) as Hle.
      cbn [snd] in Hle.
      apply nth_error_In in Ea, Eb.
      apply FusionShape.firstn_incl in Ea, Eb.
      destruct (Hentry _ _ Ea) as [_ <-]. destruct (Hentry _ _ Eb) as [_ <-].
      exact Hle.
    + intros w Hw Hout.
      assert (Hin : In (w, occurrences cands w) sorted).
      { apply Hkeys in Hw. apply in_map_iff in Hw.
        destruct Hw as ([w' n] & E & H). cbn [fst] in E. subst w'.
        rewrite <- (Hcount _ _ H).
        apply (Permutation_in _ (Permutation_sym Hperm)). exact H. }
      rewrite <- (firstn_skipn 10 sorted) in Hin.
      apply in_app_or in Hin. destruct Hin as [Hin | Hin].
      { exfalso. apply Hout. apply (in_map fst) in Hin. exact Hin. }
      split.
      * rewrite length_map, length_firstn.
        assert (10 < List.length sorted); [|lia].
        destruct (Nat.le_gt_cases (List.length sorted) 10) as [Hl | Hl];
          [|exact Hl].
        rewrite skipn_all2 in Hin by exact Hl. destruct Hin.
      * intros k Hk. apply Hkw in Hk.
        rewrite <- (firstn_skipn 10 sorted) in Hsorted.
        exact (byCount_app_le _ _ Hsorted _ _ Hk Hin).
Qed.

End KeywordFacts.

(* ===================================================================== *)
(** ** Chunks as groups of consecutive sentences *)
(* ===================================================================== *)

Module ChunkGroupFacts.
Import JS Chunker ChunkGroups.

(** X28.  [chunkText] cuts the list of sentences into groups of consecutive
    sentences and returns, in order, the groups whose accumulated text is
    longer than 100 characters: no sentence is moved, repeated or split
    between two chunks, and what is left out is left out by whole
    groups.  Where the split into sentences does not return, neither does
    [chunkText]. *)
Theorem chunks_are_groups_of_sentences (text : string) (maxTokens : nat) :
  50 <= String.length text ->
  match sentencesOf text maxTokens with
  | Some sentences =>
      exists groups,
        List.concat groups = sentences
        /\ chunkTextWith text maxTokens
           = Some (filter (fun c => 100 <? String.length c) (map glue groups))
  | None => chunkTextWith text maxTokens = None
  end.
Proof.
  intros Hlen. unfold chunkTextWith.
  assert (E : (String.length text <? 50) = false) by (apply Nat.ltb_ge; exact Hlen).
  rewrite E.
  destruct (sentencesOf text maxTokens) as [sentences|]; [|reflexivity].
  cbn [option_map].
  destruct (ChunkerFacts.accumulate_grouped maxTokens sentences EmptyString)
    as (first & groups & Hs & _ & _ & _ & ->).
  exists (first :: groups). split; [symmetry; exact Hs | reflexivity].
Qed.

Lemma chunks_are_groups_of_sentences_witness :
  match sentencesOf Examples.runOnText 400 with
  | Some sentences =>
      exists groups,
        List.concat groups = sentences
        /\ chunkTextWith Examples.runOnText 400
           = Some (filter (fun c => 100 <? String.length c) (map glue groups))
  | None => chunkTextWith Examples.runOnText 400 = None
  end.
Proof.
  apply (chunks_are_groups_of_sentences Examples.runOnText 400).
  vm_compute. repeat constructor.
Defined.

End ChunkGroupFacts.

(* ===================================================================== *)
(** ** The channel context *)
(* ===================================================================== *)

Module ContextFacts.
Import stdpp.base stdpp.gmap stdpp.strings.
Import JS Storage ChannelContext.

Lemma describedChunk_spec (label : string) (d : option string) (ty : ContentType) :
  (Ingestion.usableDescription d = true
   /\ exists s, d = Some s
        /\ describedChunk label d ty = [((label ++ s)%string, ty)])
  \/ (Ingestion.usableDescription d = false /\ describedChunk label d ty = []).
Proof.
  unfold describedChunk, Ingestion.usableDescription.
  destruct d as [s|]; [|right; split; reflexivity].
  destruct (50 <? String.length s); [left | right]; split; try reflexivity.
  exists s. split; reflexivity.
Qed.

Lemma contextChunks_shape (description customDescription : option string)
    (wikipediaData : option WikipediaData) :
  List.length (contextChunks description customDescription wikipediaData) <= 4
  /\ (contextChunks description customDescription wikipediaData = [] <->
      Ingestion.usableDescription description = false
      /\ Ingestion.usableDescription customDescription = false
      /\ Ingestion.usableDescription
           (match wikipediaData with Some w => summary w | None => None end) = false
      /\ (match wikipediaData with Some w => relatedTopics w | None => None end = None
          \/ match wikipediaData with Some w => relatedTopics w | None => None end
             = Some [])).
Proof.
  unfold contextChunks.
  set (wikipediaSummary := match wikipediaData with Some w => summary w | None => None end).
  set (topics := match wikipediaData with Some w => relatedTopics w | None => None end).
  assert (Ht : (topicsChunk topics = [] /\ (topics = None \/ topics = Some []))
               \/ (exists c, topicsChunk topics = [c]
                   /\ ~ (topics = None \/ topics = Some []))).
  { unfold topicsChunk. destruct topics as [[|t ts]|].
    - left. split; [reflexivity | right; reflexivity].
    - right. eexists. split; [reflexivity|]. intros [H | H]; discriminate.
    - left. split; [reflexivity | left; reflexivity]. }
  destruct (describedChunk_spec "Channel Description: " description channel_description)
    as [(-> & s1 & _ & ->) | (-> & ->)];
  destruct (describedChunk_spec "About this channel: " customDescription custom_description)
    as [(-> & s2 & _ & ->) | (-> & ->)];
  destruct (describedChunk_spec "Background information: " wikipediaSummary wikipedia_summary)
    as [(-> & s3 & _ & ->) | (-> & ->)];
  destruct Ht as [(-> & Hn) | (c & -> & Hn)];
  (split; [cbn; lia|]);
  (split; [intros H; try discriminate H; repeat split; try reflexivity; exact Hn
          | intros (H1 & H2 & H3 & H4); try discriminate; try contradiction;
            reflexivity]).
Qed.

(** X29.  The context has four chunks at most, and none exactly when no
    description is longer than 50 characters and there are no related
    topics.  A channel that passes the eligibility gate without an eligible
    video therefore has at least one context chunk to embed. *)
Theorem context_follows_the_gate
    (description customDescription : option string)
    (wikipediaData : option WikipediaData) :
  let wikipediaSummary :=
    match wikipediaData with Some w => summary w | None => None end in
  let topics :=
    match wikipediaData with Some w => relatedTopics w | None => None end in
  let chunks := contextChunks description customDescription wikipediaData in
  List.length chunks <= 4
  /\ (chunks = [] <->
      Ingestion.usableDescription description = false
      /\ Ingestion.usableDescription customDescription = false
      /\ Ingestion.usableDescription wikipediaSummary = false
      /\ (topics = None \/ topics = Some []))
  /\ (forall videos,
        Ingestion.eligibilityError videos customDescription description
                                   wikipediaSummary = None ->
        Ingestion.videosEligibleForProcessing videos = 0 ->
        chunks <> []).
Proof.
  cbv zeta.
  destruct (contextChunks_shape description customDescription wikipediaData)
    as [Hlen Hiff].
  split; [exact Hlen|]. split; [exact Hiff|].
  intros videos Hgate Hv Hnil. apply Hiff in Hnil.
  destruct Hnil as (H1 & H2 & H3 & _).
  unfold Ingestion.eligibilityError in Hgate. cbv zeta in Hgate.
  rewrite Hv, H1, H2, H3 in Hgate. cbn in Hgate. discriminate.
Qed.

Lemma embedContext_spec (createEmbedding : string -> Result Embedding)
    (chunks : list (string * ContentType)) (i : nat) :
  (forall c, In c (embedContext createEmbedding i chunks) ->
     i <= ec_chunkIndex c < i + List.length chunks)
  /\ List.NoDup (map ec_chunkIndex (embedContext createEmbedding i chunks))
  /\ (forall k t ty x e,
        nth_error chunks k = Some (t, ty) -> createEmbedding t = Ok (x :: e) ->
        In (mkEmbeddedContext t (x :: e) (i + k) ty)
           (embedContext createEmbedding i chunks)).
Proof.
  revert i; induction chunks as [|[t ty] rest IH]; intros i.
  - split; [intros c []|]. split; [constructor|]. intros k; destruct k; discriminate.
  - destruct (IH (S i)) as (Hr & Hnd & Hnth). cbn [embedContext List.length].
    assert (Hskip :
      (forall c, In c (embedContext createEmbedding (S i) rest) ->
         i <= ec_chunkIndex c < i + S (List.length rest))).
    { intros c Hc. specialize (Hr c Hc). lia. }
    destruct (createEmbedding t) as [[|x e]|msg] eqn:E.
    + split; [exact Hskip|]. split; [exact Hnd|].
      intros k t' ty' x' e' Hk He. destruct k as [|k]; cbn in Hk.
      * injection Hk as <- <-. congruence.
      * rewrite Nat.add_succ_r. apply (Hnth k t' ty' x' e' Hk He).
    + split.
      { intros c [<- | Hc]; [cbn; lia | apply Hskip; exact Hc]. }
      split.
      { cbn [map ec_chunkIndex]. constructor; [|exact Hnd].
        intros Hin. apply in_map_iff in Hin. destruct Hin as (c & Hc & Hin).
        specialize (Hr c Hin). lia. }
      intros k t' ty' x' e' Hk He. destruct k as [|k]; cbn in Hk.
      * injection Hk as <- <-. rewrite Nat.add_0_r.
        rewrite E in He. injection He as <- <-. left. reflexivity.
      * right. rewrite Nat.add_succ_r. apply (Hnth k t' ty' x' e' Hk He).
    + split; [exact Hskip|]. split; [exact Hnd|].
      intros k t' ty' x' e' Hk He. destruct k as [|k]; cbn in Hk.
      * injection Hk as <- <-. congruence.
      * rewrite Nat.add_succ_r. apply (Hnth k t' ty' x' e' Hk He).
Qed.

(** X30.  What a successful [storeChannelContext] writes.  Chunk [i] of the
    context, when it gets an embedding, is in the index under
    [creatorId_CHANNEL_CONTEXT_i]; every key that is not of that form for a
    position of the context keeps what it had, so a context record that an
    earlier call left at a later position stays in the index; and the
    collection keeps its documents and gains four at most. *)
Theorem channel_context_is_stored
    (createEmbedding : string -> Result Embedding) (now : string)
    (stores stores1 : ContextStores) (creatorId : string)
    (title description customDescription : option string)
    (wikipediaData : option WikipediaData) :
  storeChannelContext createEmbedding now stores creatorId title description
                      customDescription wikipediaData = Ok stores1 ->
  let chunks := contextChunks description customDescription wikipediaData in
  (forall i t ty x e,
     nth_error chunks i = Some (t, ty) -> createEmbedding t = Ok (x :: e) ->
     exists record,
       pinecone stores1 !! vectorId creatorId "CHANNEL_CONTEXT" i = Some record
       /\ values record = x :: e
       /\ vm_text (metadata record) = substring 0 5000 t
       /\ vm_videoTitle (metadata record) = contextTitle title)
  /\ (forall key,
        (forall i, i < List.length chunks ->
                   key <> vectorId creatorId "CHANNEL_CONTEXT" i) ->
        pinecone stores1 !! key = pinecone stores !! key)
  /\ (exists documents,
        transcript_chunks stores1 = (transcript_chunks stores ++ documents)%list
        /\ List.length documents <= 4).
Proof.
  intros Hrun. cbv zeta.
  destruct (contextChunks_shape description customDescription wikipediaData)
    as [Hlen _].
  unfold storeChannelContext in Hrun.
  set (chunks := contextChunks description customDescription wikipediaData) in *.
  destruct (embedContext_spec createEmbedding chunks 0) as (Hrange & Hnd & Hnth).
  destruct chunks as [|c0 rest] eqn:Echunks.
  { injection Hrun as <-. split; [intros i; destruct i; discriminate|].
    split; [reflexivity|]. exists []. split; [rewrite app_nil_r; reflexivity|].
    cbn; lia. }
  rewrite <- Echunks in *.
  destruct (embedContext createEmbedding 0 chunks) as [|e0 es] eqn:Eemb;
    [discriminate|].
  rewrite <- Eemb in *. injection Hrun as <-. cbn [pinecone transcript_chunks].
  rewrite StorageFacts.storeToPinecone_upsert.
  assert (Hids : List.NoDup
                   (map id (map (vectorOf creatorId "CHANNEL_CONTEXT" now)
                              (map (pineconeChunkOf title)
                                 (embedContext createEmbedding 0 chunks))))).
  { rewrite !map_map. cbn [id vectorOf pineconeChunkOf chunkIndex].
    clear -Hnd. induction (embedContext createEmbedding 0 chunks) as [|c l IH];
      [constructor|].
    cbn [map] in *. inversion Hnd as [|? ? Hx Hnd']; subst.
    constructor; [|apply IH; exact Hnd'].
    intros Hin. apply in_map_iff in Hin. destruct Hin as (c' & Hid & Hin).
    apply StoreFacts.vectorId_inj in Hid. apply Hx. rewrite <- Hid.
    apply in_map. exact Hin. }
  split.
  - intros i t ty x e Hi He. specialize (Hnth i t ty x e Hi He).
    cbn [Nat.add] in Hnth.
    set (chunk := mkEmbeddedContext t (x :: e) i ty) in *.
    exists (vectorOf creatorId "CHANNEL_CONTEXT" now (pineconeChunkOf title chunk)).
    split; [|repeat split].
    apply (StoreFacts.upsert_lookup_distinct _ _
             (vectorOf creatorId "CHANNEL_CONTEXT" now (pineconeChunkOf title chunk)));
      [exact Hids|].
    apply in_map, in_map. exact Hnth.
  - split.
    + intros key Hkey. apply StoreFacts.upsert_lookup_other.
      intros v Hv. apply in_map_iff in Hv. destruct Hv as (pc & <- & Hv).
      apply in_map_iff in Hv. destruct Hv as (c & <- & Hc).
      specialize (Hrange c Hc). cbn [id vectorOf pineconeChunkOf chunkIndex].
      intros E. apply (Hkey (ec_chunkIndex c)); [lia | symmetry; exact E].
    + eexists. split; [reflexivity|]. rewrite length_map.
      assert (Hle : List.length (embedContext createEmbedding 0 chunks)
                    <= List.length chunks).
      { rewrite <- (length_map ec_chunkIndex).
        clear -Hrange Hnd.
        assert (Hsub : forall n, In n (map ec_chunkIndex
                                         (embedContext createEmbedding 0 chunks)) ->
                                 In n (seq 0 (List.length chunks))).
        { intros n Hn. apply in_map_iff in Hn. destruct Hn as (c & <- & Hc).
          apply in_seq. specialize (Hrange c Hc). lia. }
        pose proof (List.NoDup_incl_length Hnd Hsub) as H.
        rewrite length_seq in H. exact H. }
      lia.
Qed.

Lemma channel_context_is_stored_witness :
  let stores1 :=
    mkContextStores
      (storeToPinecone ∅ "creator1" "CHANNEL_CONTEXT" "2025-01-01T10:00:00.000Z"
         [mkEmbeddedChunk
            "Channel Description: Weekly videos about bread, pastry and the science of baking."
            [1%Q] 0 (Some "Bakery - Channel Context") None None])
      [contextDocumentOf "creator1" "2025-01-01T10:00:00.000Z" (Some "Bakery")
         (mkEmbeddedContext
            "Channel Description: Weekly videos about bread, pastry and the science of baking."
            [1%Q] 0 channel_description)] in
  pinecone stores1 !! vectorId "creator1" "CHANNEL_CONTEXT" 3
  = (∅ : gmap string PineconeRecord) !! vectorId "creator1" "CHANNEL_CONTEXT" 3.
Proof.
  cbv zeta.
  refine (proj1 (proj2 (channel_context_is_stored
            Examples.constantEmbedding "2025-01-01T10:00:00.000Z"
            (mkContextStores ∅ []) _ "creator1" (Some "Bakery")
            (Some "Weekly videos about bread, pastry and the science of baking.")
            None None eq_refl)) _ _).
  intros i Hi. cbn in Hi.
  destruct i as [|i]; [|lia]. vm_compute. discriminate.
Defined.

End ContextFacts.
